(** * PyReduce wavelength calibration engine

    A shallow embedding of [pyreduce/wavelength_calibration.py] (class
    [WavelengthCalibration]) and of the helpers of [pyreduce/util.py] it
    calls, followed by the properties of the specification.

    Conventions of the embedding.
    - NumPy floats are exact rationals ([Q]); integer arrays are [Z].
      There is no NaN, no infinity and no rounding: where the source would
      produce a non-finite value the text says how the model treats it.
    - A masked array is a list of [option]: [None] is a masked entry.
    - A Python exception is the [Raise] case of [result]; statements are
      sequenced with the bind of that monad.
    - The record array [lines] is a list of [line] records; an in-place
      update [lines["f"][i] = v] is an update of the list at index [i].
    - numpy and scipy routines that are not code of this repository
      (least squares, peak finding, correlation, windows, logarithm) are
      the fields of the class [NumLib].  Plotting and logging are left out. *)

From Stdlib Require Import ZArith QArith Qabs Qround Qpower Sorted Lia Lqa.
From stdpp Require Import base tactics option list.

Open Scope Q_scope.

(** ** Python exceptions and the error monad *)

Inductive exn : Type :=
| ValueError
| TypeError
| IndexError
| ZeroDivisionError
| MaskError      (* numpy.ma.MaskError *)
| NameError.     (* a local variable read before it is bound *)

Inductive result (A : Type) : Type :=
| Ok (a : A)
| Raise (e : exn).

Arguments Ok {A} a.
Arguments Raise {A} e.

#[export] Instance result_ret : MRet result := fun A a => Ok a.
#[export] Instance result_bind : MBind result := fun A B f c =>
  match c with
  | Ok a => f a
  | Raise e => Raise e
  end.
#[export] Instance result_fmap : FMap result := fun A B f c =>
  match c with
  | Ok a => Ok (f a)
  | Raise e => Raise e
  end.

(** [try: c except: h]: a bare [except] clause. *)
Definition try_except {A} (c : result A) (h : A) : A :=
  match c with
  | Ok a => a
  | Raise _ => h
  end.

(** Sequential [for] loop whose body can raise. *)
Fixpoint for_each {A S : Type} (body : S -> A -> result S) (xs : list A) (s : S)
  : result S :=
  match xs with
  | [] => Ok s
  | x :: xs' => s' ← body s x; for_each body xs' s'
  end.

(** [a[i]] on a sequence, with Python's negative indices. *)
Definition py_index {A} (a : list A) (i : Z) : result A :=
  let n := Z.of_nat (length a) in
  let j := (if (i <? 0)%Z then i + n else i)%Z in
  if ((0 <=? j) && (j <? n))%Z
  then match a !! Z.to_nat j with Some v => Ok v | None => Raise IndexError end
  else Raise IndexError.

(** [a[lo:hi]]: a negative bound counts from the end, and both bounds are
    clipped to the sequence. *)
Definition slice_bound (n : nat) (i : Z) : nat :=
  if (i <? 0)%Z then Z.to_nat (i + Z.of_nat n) else Z.to_nat i `min` n.

Definition py_slice {A} (a : list A) (lo hi : Z) : list A :=
  let lo' := slice_bound (length a) lo in
  let hi' := slice_bound (length a) hi in
  take (hi' - lo') (drop lo' a).

(** [range(lo, hi)] and [np.arange(lo, hi)] on integers. *)
Definition py_range (lo hi : Z) : list Z :=
  (fun k => (lo + Z.of_nat k)%Z) <$> seq 0 (Z.to_nat (hi - lo)).

(** ** Arithmetic on floats as rationals *)

Definition Qltb (a b : Q) : bool := negb (Qle_bool b a).

(** [int(x)]: truncation towards zero. *)
Definition py_int (x : Q) : Z :=
  if Qle_bool 0 x then Qfloor x else Qceiling x.

Definition speed_of_light : Q := 299792458.

Definition Qsum (l : list Q) : Q := foldr Qplus 0 l.

Fixpoint Qinsert (x : Q) (l : list Q) : list Q :=
  match l with
  | [] => [x]
  | y :: l' => if Qle_bool x y then x :: l else y :: Qinsert x l'
  end.

Definition Qsort (l : list Q) : list Q := foldr Qinsert [] l.

(** [np.median]: middle element, or mean of the two middle elements.  The
    median of an empty array is NaN in NumPy: [None] here. *)
Definition np_median (l : list Q) : option Q :=
  let s := Qsort l in
  let n := length s in
  if (n =? 0)%nat then None
  else if Nat.even n
       then Some ((nth (n / 2 - 1) s 0 + nth (n / 2) s 0) / 2)
       else Some (nth (n / 2) s 0).

(** [np.mean]; NaN ([None]) on an empty array. *)
Definition np_mean (l : list Q) : option Q :=
  match l with
  | [] => None
  | _ => Some (Qsum l / inject_Z (Z.of_nat (length l)))
  end.

(** [np.diff] of an integer array. *)
Fixpoint np_diff (l : list Z) : list Z :=
  match l with
  | a :: (b :: _) as l' => (b - a)%Z :: np_diff l'
  | _ => []
  end.

(** [np.unique]: the sorted distinct values. *)
Fixpoint Zinsert_new (x : Z) (l : list Z) : list Z :=
  match l with
  | [] => [x]
  | y :: l' =>
      if (x <? y)%Z then x :: l
      else if (x =? y)%Z then l
      else y :: Zinsert_new x l'
  end.

Definition np_unique (l : list Z) : list Z := foldr Zinsert_new [] l.

(** [np.linspace(start, stop, num)]. *)
Definition np_linspace (start stop : Q) (num : nat) : list Q :=
  match num with
  | 0%nat => []
  | 1%nat => [start]
  | _ => (fun k => start + inject_Z (Z.of_nat k) * ((stop - start) / inject_Z (Z.of_nat (num - 1))))
           <$> seq 0 num
  end.

(** [np.max] / [np.min]: [ValueError] on an empty array. *)
Definition Qmax (a b : Q) : Q := if Qle_bool a b then b else a.
Definition Qmin (a b : Q) : Q := if Qle_bool a b then a else b.

Definition np_max (l : list Q) : result Q :=
  match l with
  | [] => Raise ValueError
  | x :: l' => Ok (foldl Qmax x l')
  end.

Definition np_min (l : list Q) : result Q :=
  match l with
  | [] => Raise ValueError
  | x :: l' => Ok (foldl Qmin x l')
  end.

Definition np_max_Z (l : list Z) : result Z :=
  match l with
  | [] => Raise ValueError
  | x :: l' => Ok (foldl Z.max x l')
  end.

Definition np_min_Z (l : list Z) : result Z :=
  match l with
  | [] => Raise ValueError
  | x :: l' => Ok (foldl Z.min x l')
  end.

(** First index of the largest (smallest) element, as [np.argmax]
    ([np.argmin]) returns it; [ValueError] on an empty array. *)
Fixpoint argbest_from (better : Q -> Q -> bool) (l : list Q) (i besti : nat) (best : Q)
  : nat :=
  match l with
  | [] => besti
  | x :: l' =>
      if better x best then argbest_from better l' (S i) i x
      else argbest_from better l' (S i) besti best
  end.

Definition np_argmax (l : list Q) : result nat :=
  match l with
  | [] => Raise ValueError
  | x :: l' => Ok (argbest_from (fun a b => Qltb b a) l' 1 0 x)
  end.

Definition np_argmin (l : list Q) : result nat :=
  match l with
  | [] => Raise ValueError
  | x :: l' => Ok (argbest_from (fun a b => Qltb a b) l' 1 0 x)
  end.

(** ** Masked arrays *)

Abbreviation marray := (list (option Q)).

Definition ma_filled (fill : Q) (a : marray) : list Q :=
  (fun o => default fill o) <$> a.

Definition ma_compressed (a : marray) : list Q := omap id a.

Definition ma_all_masked (a : marray) : bool :=
  forallb (fun o => negb (bool_decide (is_Some o))) a.

Definition ma_abs (a : marray) : marray := (fun o : option Q => Qabs <$> o) <$> a.

(** [np.ma.any(a > t)]: masked entries do not count. *)
Definition ma_any_gt (a : marray) (t : Q) : bool :=
  existsb (fun o => match o with Some v => Qltb t v | None => false end) a.

(** [np.ma.argmax]: masked entries are filled with the smallest value, then
    the first index of the maximum is taken. *)
Fixpoint ma_argmax_from (l : marray) (i besti : nat) (best : option Q) : nat :=
  match l with
  | [] => besti
  | x :: l' =>
      let better := match x, best with
                    | Some v, Some b => Qltb b v
                    | Some _, None => true
                    | None, _ => false
                    end in
      if better then ma_argmax_from l' (S i) i x
      else ma_argmax_from l' (S i) besti best
  end.

Definition ma_argmax (a : marray) : result nat :=
  match a with
  | [] => Raise ValueError
  | x :: l' => Ok (ma_argmax_from l' 1 0 x)
  end.

(** A masked array as it is stored: the data of every pixel with its mask
    bit, [true] for a masked pixel.  [ma_view] is the array as a read that
    honours the mask sees it. *)
Abbreviation sarray := (list (Q * bool)).

Definition ma_view (s : sarray) : marray :=
  (fun p : Q * bool => if p.2 then None else Some p.1) <$> s.

(** [np.ma.min] and [np.ma.max]: a [ValueError] on an empty array, and
    masked ([None]) when every entry is masked. *)
Definition ma_min (a : marray) : result (option Q) :=
  match a with
  | [] => Raise ValueError
  | _ => match np_min (ma_compressed a) with
         | Ok m => Ok (Some m)
         | Raise _ => Ok None
         end
  end.

Definition ma_max (a : marray) : result (option Q) :=
  match a with
  | [] => Raise ValueError
  | _ => match np_max (ma_compressed a) with
         | Ok m => Ok (Some m)
         | Raise _ => Ok None
         end
  end.

(** ** The data model *)

(** One entry of the reference line list. *)
Record line : Type := Line {
  wll : Q;       (* catalogue wavelength *)
  posm : Q;      (* current pixel position *)
  posc : Q;      (* original pixel position *)
  order : Z;     (* spectral order *)
  width : Q;
  height : Q;
  flag : bool;   (* True: the line is used in the fit *)
  xfirst : Z;    (* extent of the line on the detector *)
  xlast : Z
}.

Definition set_posm (v : Q) (l : line) : line :=
  Line (wll l) v (posc l) (order l) (width l) (height l) (flag l) (xfirst l) (xlast l).
Definition set_order (v : Z) (l : line) : line :=
  Line (wll l) (posm l) (posc l) v (width l) (height l) (flag l) (xfirst l) (xlast l).
Definition set_flag (v : bool) (l : line) : line :=
  Line (wll l) (posm l) (posc l) (order l) (width l) (height l) v (xfirst l) (xlast l).
Definition set_xfirst (v : Z) (l : line) : line :=
  Line (wll l) (posm l) (posc l) (order l) (width l) (height l) (flag l) v (xlast l).
Definition set_xlast (v : Z) (l : line) : line :=
  Line (wll l) (posm l) (posc l) (order l) (width l) (height l) (flag l) (xfirst l) v.

Inductive mode_t : Type := Mode1D | Mode2D.

(** [self.degree]: an integer, or a pair (pixel, order). *)
Inductive degree_t : Type :=
| Deg (d : nat)
| DegXY (dx dy : nat).

(** The settings of a [WavelengthCalibration] object. *)
Record WavelengthCalibration : Type := {
  threshold : Q;
  degree : degree_t;
  iterations : nat;
  mode : mode_t;
  nstep : nat;
  shift_window : Q;
  manual : bool;
  polarim : bool;
  plot : nat;          (* False = 0, True = 1, 2: plot during all steps *)
  lfc_peak_width : Q;
  nord : nat;
  ncol : nat
}.

Definition step_mode (self : WavelengthCalibration) : bool := (0 <? nstep self)%nat.

(** A wavelength solution, by how [build_2d_solution] produces it. *)
Inductive solution : Type :=
| Coef (coef : list (list Q))
    (* an ndarray.  1D mode: one row per order, highest power first;
       2D mode: coef[i][j] multiplies pixel^i * order^j *)
| StepCoef1D (coef : list (Z * (list Q * list (list Q))))
    (* dict: order -> [poly_coef, step_coef] *)
| StepCoef2D (poly_coef : list (list Q)) (step_coef : list (Z * list (list Q))).

(** ** numpy and scipy *)

(** The numerical routines of numpy and scipy the engine calls, and the two
    parts of the class that rest on [scipy.optimize.curve_fit] over IEEE
    infinities (the stepped solution) or on a user interface (manual
    alignment).  Each field is the routine on the inputs on which the
    library returns; where the library is documented to raise, the wrappers
    below say so. *)
Class NumLib : Type := {
  (* least squares of [np.polyfit(x, y, deg)], highest power first *)
  polyfit_lstsq : list Q -> list Q -> nat -> list Q;
  (* [scipy.linalg.lstsq(A, b)[0]] *)
  scipy_lstsq : list (list Q) -> list Q -> list Q;
  (* [scipy.optimize.least_squares] on the Gaussian of [gaussfit2]:
     data x, y, fixed offset, start, lower and upper bounds *)
  least_squares_gauss :
    list Q -> list Q -> Q -> list Q -> list Q -> list Q -> result (list Q);
  (* [util.gaussfit3(x, y)], a [curve_fit] of the same Gaussian *)
  gaussfit3 : list Q -> marray -> result (list Q);
  (* [signal.find_peaks(x, height, distance, width)]; an absent keyword is
     the outer [None], a NaN value the inner one *)
  signal_find_peaks :
    marray -> option Q -> option (option Q) -> option Q -> result (list nat);
  (* [signal.gaussian(M, std)] for [M >= 0] *)
  gaussian_window : nat -> Q -> list Q;
  (* [signal.correlate2d(a, b, mode="same")] and
     [signal.correlate(a, b, mode="same")] *)
  signal_correlate2d : list (list Q) -> list (list Q) -> list (list Q);
  signal_correlate : list Q -> list Q -> list Q;
  (* [np.log] and [np.pi] *)
  np_log : Q -> Q;
  np_pi : Q;
  (* [build_step_solution], [evaluate_step_solution], [align_manual] *)
  build_step_solution : WavelengthCalibration -> list line -> result solution;
  evaluate_step_solution :
    WavelengthCalibration -> list Q -> list Z -> solution -> result (list Q);
  align_manual : list (list Q) -> list line -> Z * Z
}.

(** The plot of one fit in [fit_lines] (matplotlib), the statements under
    [if self.plot >= 2]: with the local variable [coef] bound, and the
    exception they raise while it is not (the [NameError] of the unbound
    name, unless a statement before it raises). *)
Class PlotLib : Type := {
  plot_fit : marray -> marray -> list Q -> result unit;
  plot_fit_unbound : marray -> marray -> exn
}.

Section Engine.
Context {L : NumLib} {plt : PlotLib}.

(** ** Alignment *)

(** [field[select] op= v] on the record array: [select] is [slice(None)]
    ([None]) or a boolean mask, which must have the length of the array. *)
Definition update_where (f : line -> line) (select : option (list bool))
    (lines : list line) : result (list line) :=
  match select with
  | None => Ok (f <$> lines)
  | Some mask =>
      if decide (length mask = length lines)
      then Ok (zip_with (fun (b : bool) l => if b then f l else l) mask lines)
      else Raise IndexError
  end.

Definition apply_alignment_offset (lines : list line) (offset : Z * Z)
    (select : option (list bool)) : result (list line) :=
  lines ← update_where (fun l => set_xfirst (xfirst l + offset.2)%Z l) select lines;
  lines ← update_where (fun l => set_xlast (xlast l + offset.2)%Z l) select lines;
  lines ← update_where (fun l => set_posm (posm l + inject_Z offset.2) l) select lines;
  lines ← update_where (fun l => set_order (order l + offset.1)%Z l) select lines;
  Ok lines.

(** [signal.gaussian(M, std)]: a negative length is a [ValueError]. *)
Definition signal_gaussian (M : Z) (std : Q) : result (list Q) :=
  if (M <? 0)%Z then Raise ValueError else Ok (gaussian_window (Z.to_nat M) std).

(** [row[first:last] = vals] with NumPy's broadcasting of a single value. *)
Definition slice_assign (row : list Q) (first last : Z) (vals : list Q)
  : result (list Q) :=
  let lo := slice_bound (length row) first in
  let hi := slice_bound (length row) last in
  let n := (hi - lo)%nat in
  if decide (length vals = n)
  then Ok (take lo row ++ vals ++ drop (lo + n) row)
  else match vals with
       | [v] => Ok (take lo row ++ replicate n v ++ drop (lo + n) row)
       | _ => Raise ValueError
       end.

Definition create_image_from_lines (self : WavelengthCalibration) (lines : list line)
  : result (list (list Q)) :=
  min_order ← np_min_Z (order <$> lines);
  max_order ← np_max_Z (order <$> lines);
  let ncol_ := Z.of_nat (ncol self) in
  let img := replicate (Z.to_nat (max_order - min_order + 1)) (replicate (ncol self) 0) in
  for_each (fun img (l : line) =>
      if (order l <? 0)%Z then Ok img
      else if ((xlast l <? 0) || (ncol_ <? xfirst l))%Z then Ok img
      else
        let first := Z.max (xfirst l) 0 in
        let last := Z.min (xlast l) ncol_ in
        g ← signal_gaussian (last - first) (width l);
        row ← py_index img (order l - min_order);
        row' ← slice_assign row first last ((fun v => height l * v) <$> g);
        Ok (<[Z.to_nat (order l - min_order) := row']> img))
    lines img.

(** Number of columns of a 2-d array. *)
Definition shape1 {A} (a : list (list A)) : nat :=
  match a with
  | [] => 0
  | r :: _ => length r
  end.

(** The refinement of the alignment order by order (the body of
    [if self.shift_window != 0]). *)
Definition align_orders (self : WavelengthCalibration) (obs : list (list Q))
    (offset : Z * Z) (lines : list line) : result (list line) :=
  img ← create_image_from_lines self lines;
  let ncol_ := Z.of_nat (ncol self) in
  for_each (fun lines i =>
      obs_i ← py_index obs i;
      img_i ← py_index img i;
      let correlation := signal_correlate obs_i img_i in
      let width := (py_int (inject_Z ncol_ * shift_window self) / 2)%Z in
      let low := (ncol_ / 2 - width)%Z in
      let high := (ncol_ / 2 + width)%Z in
      k ← np_argmax (py_slice correlation low high);
      let offset_x := (Z.of_nat k + low)%Z in
      let offset_x := py_int (inject_Z offset_x - inject_Z ncol_ / 2 + 1) in
      let select := (fun l => (order l =? i)%Z) <$> lines in
      apply_alignment_offset lines (0%Z, offset_x) (Some select))
    (py_range (Z.max offset.1 0) (Z.min (Z.of_nat (length obs)) (Z.of_nat (length img))))
    lines.

Definition align (self : WavelengthCalibration) (obs : list marray) (lines : list line)
  : result (list line) :=
  let obs := ma_filled 0 <$> obs in
  lines ←
    (if manual self then Ok lines
     else
       img ← create_image_from_lines self lines;
       let correlation := signal_correlate2d obs img in
       k ← np_argmax (concat correlation);
       (* np.unravel_index *)
       let offset_order := Z.of_nat (k / shape1 correlation) in
       let offset_x := Z.of_nat (k mod shape1 correlation) in
       let offset_order :=
         inject_Z offset_order - inject_Z (Z.of_nat (length img)) / 2 + 1 in
       let offset_x := inject_Z offset_x - inject_Z (Z.of_nat (shape1 img)) / 2 + 1 in
       let offset := (py_int offset_order, py_int offset_x) in
       lines ← apply_alignment_offset lines offset None;
       if Qeq_bool (shift_window self) 0 then Ok lines
       else align_orders self obs offset lines);
  if (0 <? plot self)%nat || manual self
  then apply_alignment_offset lines (align_manual obs lines) None
  else Ok lines.

(** ** Feature localization *)

(** [util.gaussfit2(x, y)] on two masked arrays.  The fit itself is scipy's
    [least_squares]; the seed and the bounds are computed as in the source. *)
Definition gaussfit2 (x y : marray) : result (list Q) :=
  let x := ma_compressed x in
  let y := ma_compressed y in
  if ((length x =? 0) || (length y =? 0))%nat then Raise ValueError
  else if negb (length x =? length y)%nat then Raise ValueError
  else
    let midpoint := (length y / 2)%nat in
    let weights := np_linspace 0 1 midpoint ++ np_linspace 1 0 (length y - midpoint) in
    i ← np_argmax (zip_with Qmult y weights);
    y_i ← py_index y (Z.of_nat i);
    x_i ← py_index x (Z.of_nat i);
    y_min ← np_min y;
    y_max ← np_max y;
    x_min ← np_min x;
    x_max ← np_max x;
    let y_mean := default 0 (np_mean y) in
    let p0 := [y_i; x_i; 1] in
    let lower := [Qmin y_mean y_i; x_min; 0] in
    let upper := [y_max * (3 # 2); x_max; inject_Z (Z.of_nat (length x)) / 2] in
    res ← least_squares_gauss x y y_min p0 lower upper;
    Ok (res ++ [y_min]).

(** [fit_lines] skips a line whose guess is outside the image. *)
Definition outside_image (obs : list marray) (l : line) : bool :=
  (Qltb (posm l) 0 || Qle_bool (inject_Z (Z.of_nat (shape1 obs))) (posm l))
  || ((order l <? 0) || (Z.of_nat (length obs) <=? order l))%Z.

(** [np.ma.masked_array(x, mask=m)]: the mask must have the size of the
    data, or the size 1, when it is repeated; else a [MaskError]. *)
Definition ma_masked_array (x : list Q) (m : list bool) : result marray :=
  if decide (length m = length x)
  then Ok (zip_with (fun v (b : bool) => if b then None else Some v) x m)
  else match m with
       | [b] => Ok ((fun v => if b then None else Some v) <$> x)
       | _ => Raise MaskError
       end.

(** The window around the guess: the pixel indices [x], masked like the
    data, and the data [section].  These statements are not inside the
    [try]: with a negative upper end the slice of the data counts from the
    end of the order while [np.arange] is empty, and the mask does not
    fit. *)
Definition fit_window (obs : list marray) (l : line) : result (marray * marray) :=
  let row := default [] (obs !! Z.to_nat (order l)) in
  let low := Z.max (py_int (posm l - width l * 5)) 0 in
  let high := Z.min (py_int (posm l + width l * 5)) (Z.of_nat (length row)) in
  let section := py_slice row low high in
  x ← ma_masked_array (inject_Z <$> py_range low high)
        ((fun o : option Q => negb (bool_decide (is_Some o))) <$> section);
  Ok (x, section).

(** The body of the loop of [fit_lines] for one line: the line afterwards,
    and the local variable [coef] ([None] while it is not bound), which the
    plot of a later line still sees. *)
Definition fit_line (self : WavelengthCalibration) (obs : list marray)
    (coef : option (list Q)) (l : line) : result (line * option (list Q)) :=
  if Qltb (posm l) 0 || Qle_bool (inject_Z (Z.of_nat (shape1 obs))) (posm l)
  then Ok (l, coef)
  else if ((order l <? 0) || (Z.of_nat (length obs) <=? order l))%Z then Ok (l, coef)
  else
    w ← fit_window obs l;
    let fitted : line * option (list Q) :=
      match gaussfit2 w.1 w.2 with
      | Ok c =>
          match py_index c 1 with
          | Ok mu => (set_posm mu l, Some c)
          | Raise _ => (set_flag false l, Some c)
          end
      | Raise _ => (set_flag false l, coef)
      end in
    if (2 <=? plot self)%nat then
      match fitted.2 with
      | Some c => _ ← plot_fit w.1 w.2 c; Ok fitted
      | None => Raise (plot_fit_unbound w.1 w.2)
      end
    else Ok fitted.

Definition fit_lines (self : WavelengthCalibration) (obs : list marray)
    (lines : list line) : result (list line) :=
  r ← for_each (fun (s : list line * option (list Q)) l =>
                  r ← fit_line self obs s.2 l; Ok (s.1 ++ [r.1], r.2))
         lines ([], None);
  Ok r.1.

(** ** Solution builder *)

(** [np.polyfit(x, y, deg)]: an empty [x], or [x] and [y] of different
    lengths, are a [TypeError]; otherwise the least-squares coefficients are
    returned, with no more than a warning when there are fewer points than
    coefficients. *)
Definition np_polyfit (x y : list Q) (deg : nat) : result (list Q) :=
  if (length x =? 0)%nat then Raise TypeError
  else if negb (length x =? length y)%nat then Raise TypeError
  else Ok (polyfit_lstsq x y deg).

(** [np.polyval(p, x)], highest power first. *)
Definition np_polyval (p : list Q) (x : Q) : Q :=
  foldl (fun acc c => acc * x + c) 0 p.

(** [numpy.polynomial.polynomial.polyval2d(x, y, c)]. *)
Definition polyval_asc (c : list Q) (x : Q) : Q :=
  foldr (fun ci acc => ci + x * acc) 0 c.

Definition polyval2d (x y : Q) (c : list (list Q)) : Q :=
  polyval_asc ((fun row => polyval_asc row y) <$> c) x.

Definition Qpow (x : Q) (n : nat) : Q := Qpower x (Z.of_nat n).

(** [util.polyfit2d(x, y, z, degree)] with [scale=True] and no [max_degree].
    When the largest [x] (or [y]) is zero the scaled inputs are not finite
    and, for a positive degree in that variable, so is the design matrix:
    [scipy.linalg.lstsq] rejects it with a [ValueError]. *)
Definition polyfit2d (x y z : list Q) (degree : degree_t) : result (list (list Q)) :=
  let '(dx, dy) := match degree with
                   | Deg d => (d, d)
                   | DegXY dx dy => (dx, dy)
                   end in
  let idx := i ← seq 0 (S dx); j ← seq 0 (S dy); [(i, j)] in
  norm_x ← np_max x;
  norm_y ← np_max y;
  if (Qeq_bool norm_x 0 && (0 <? dx)%nat) || (Qeq_bool norm_y 0 && (0 <? dy)%nat)
  then Raise ValueError
  else
    let x := (fun v => v / norm_x) <$> x in
    let y := (fun v => v / norm_y) <$> y in
    let A := zip_with (fun xr yr =>
                 (fun '(i, j) => Qpow xr i * Qpow yr j) <$> idx) x y in
    let C := scipy_lstsq A z in
    Ok ((fun i =>
           (fun j => nth (i * S dy + j) C 0 / (Qpow norm_x i * Qpow norm_y j))
             <$> seq 0 (S dy))
          <$> seq 0 (S dx)).

(** The flagged lines ([lines[...][mask]]). *)
Definition flagged (lines : list line) : list line := filter (fun l => flag l = true) lines.

Definition build_2d_solution (self : WavelengthCalibration) (lines : list line)
  : result solution :=
  if step_mode self then build_step_solution self lines
  else
    let m := flagged lines in
    let m_wave := wll <$> m in
    let m_pix := posm <$> m in
    let m_ord := order <$> m in
    match mode self with
    | Mode1D =>
        max_ord ← np_max_Z m_ord;
        let nord_ := (max_ord + 1)%Z in
        match degree self with
        | DegXY _ _ => Raise TypeError
        | Deg deg =>
            if (nord_ <? 0)%Z then Raise ValueError
            else
              coef ← for_each (fun coef i =>
                         let sel := filter (fun l => order l = i) m in
                         c ← np_polyfit (posm <$> sel) (wll <$> sel) deg;
                         Ok (coef ++ [c]))
                       (py_range 0 nord_) [];
              Ok (Coef coef)
        end
    | Mode2D =>
        coef ← polyfit2d m_pix (inject_Z <$> m_ord) m_wave (degree self);
        Ok (Coef coef)
    end.

(** ** Evaluation and residuals *)

Definition evaluate_solution (self : WavelengthCalibration) (pos : list Q)
    (order_ : list Z) (sol : solution) : result (list Q) :=
  if negb (length pos =? length order_)%nat then Raise ValueError
  else if step_mode self then evaluate_step_solution self pos order_ sol
  else
    match sol with
    | Coef coef =>
        match mode self with
        | Mode1D =>
            for_each (fun res i =>
                row ← py_index coef i;
                Ok (zip_with (fun '(p, o) r => if (o =? i)%Z then np_polyval row p else r)
                      (zip pos order_) res))
              (np_unique order_) (replicate (length pos) 0)
        | Mode2D =>
            Ok (zip_with (fun p o => polyval2d p (inject_Z o) coef) pos order_)
        end
    | _ => Raise TypeError
    end.

(** Velocity residual of one line.  The float division by a catalogue
    wavelength of zero gives inf or nan, which the rationals cannot hold:
    the quotient is 0 here.  A property that depends on the value of a
    residual is stated for lines of non-zero wavelength. *)
Definition velocity_residual (sol_wave wave : Q) : Q :=
  (sol_wave - wave) / wave * speed_of_light.

Definition calculate_residual (self : WavelengthCalibration) (wave_solution : solution)
    (lines : list line) : result marray :=
  sol ← evaluate_solution self (posm <$> lines) (order <$> lines) wave_solution;
  if negb (length sol =? length lines)%nat then Raise ValueError
  else Ok (zip_with (fun s l =>
             if flag l then Some (velocity_residual s (wll l)) else None) sol lines).

(** ** Outlier rejection *)

Definition reject_outlier (residual : marray) (lines : list line) : result (list line) :=
  ibad ← ma_argmax (ma_abs residual);
  if (ibad <? length lines)%nat then Ok (alter (set_flag false) ibad lines)
  else Raise IndexError.

(** One pass of the [while] loop of [reject_lines]. *)
Definition reject_pass (self : WavelengthCalibration) (lines : list line)
    (residual : marray) : result (list line * marray) :=
  lines ← reject_outlier residual lines;
  wave_solution ← build_2d_solution self lines;
  residual ← calculate_residual self wave_solution lines;
  Ok (lines, residual).

(** The [while] loop of [reject_lines], run for at most [fuel] passes:
    [None] when the passes are used up with the loop condition still true.
    The result carries the final residuals and the counter [nbad]. *)
Fixpoint reject_loop (self : WavelengthCalibration) (fuel : nat) (lines : list line)
    (residual : marray) (nbad : nat) : option (result (list line * marray * nat)) :=
  if ma_any_gt (ma_abs residual) (threshold self) then
    match fuel with
    | O => None
    | S fuel' =>
        match reject_pass self lines residual with
        | Ok (lines', residual') => reject_loop self fuel' lines' residual' (S nbad)
        | Raise e => Some (Raise e)
        end
    end
  else Some (Ok (lines, residual, nbad)).

Definition reject_lines_fuel (self : WavelengthCalibration) (fuel : nat)
    (lines : list line) : option (result (list line * marray * nat)) :=
  match (wave_solution ← build_2d_solution self lines;
         calculate_residual self wave_solution lines) with
  | Ok residual => reject_loop self fuel lines residual 0
  | Raise e => Some (Raise e)
  end.

(** [reject_lines]: one pass per line is always enough. *)
Definition reject_lines (self : WavelengthCalibration) (lines : list line)
  : option (result (list line * marray * nat)) :=
  reject_lines_fuel self (length lines) lines.

(** ** Automatic identification *)

Definition nondecreasing (l : list Q) : bool :=
  forallb (fun '(a, b) => Qle_bool a b) (zip l (drop 1 l)).
Definition nonincreasing (l : list Q) : bool :=
  forallb (fun '(a, b) => Qle_bool b a) (zip l (drop 1 l)).

(** [np.digitize(x, bins)]: [bins[i-1] <= x < bins[i]] for increasing bins,
    [bins[i-1] > x >= bins[i]] for decreasing ones, a [ValueError] when the
    bins are not monotonic. *)
Definition np_digitize (x : Q) (bins : list Q) : result nat :=
  if nondecreasing bins then Ok (length (filter (fun b => Qle_bool b x = true) bins))
  else if nonincreasing bins then Ok (length (filter (fun b => Qltb x b = true) bins))
  else Raise ValueError.

(** [np.where(cond)[0]]. *)
Definition np_where (cond : list bool) : list nat :=
  (fun p => p.1) <$> filter (fun p => p.2 = true) (zip (seq 0 (length cond)) cond).

(** [a[idx]] with an integer array [idx]. *)
Fixpoint take_indices {A} (a : list A) (idx : list Z) : result (list A) :=
  match idx with
  | [] => Ok []
  | i :: idx' => v ← py_index a i; vs ← take_indices a idx'; Ok (v :: vs)
  end.

(** The candidate peaks of an unflagged line.  [None]: the loop body ends
    in a [continue] (order or wavelength outside the image, window all
    masked), no peak is found, or the catalogue wavelength is zero.  Otherwise: the lower end [low] of the
    window, the peaks found in it and their velocity residuals. *)
Definition auto_id_peaks (self : WavelengthCalibration) (obs : list marray)
    (wave_img : list (list Q)) (l : line) : result (option (Z * list nat * list Q)) :=
  if ((order l <? 0) || (Z.of_nat (nord self) <=? order l))%Z then Ok None
  else
    let iord := order l in
    wave ← py_index wave_img iord;
    w_first ← py_index wave 0;
    w_last ← py_index wave (-1);
    if Qltb (wll l) w_first || Qle_bool w_last (wll l) then Ok None
    else
      let wl := wll l in
      let width_ := width l * 10 in
      order_obs ← py_index obs iord;
      idx ← (match np_digitize wl wave with
             | Ok k => Ok k
             | Raise _ =>
                 py_index (np_where ((fun w => Qle_bool wl w) <$> wave)) 0
             end : result nat);
      let low := Z.max (py_int (inject_Z (Z.of_nat idx) - width_)) 0 in
      let high := Z.min (py_int (inject_Z (Z.of_nat idx) + width_))
                        (Z.of_nat (length order_obs)) in
      let vec := py_slice order_obs low high in
      if ma_all_masked vec then Ok None
      else
        peak_idx ← signal_find_peaks vec (np_median (ma_compressed vec)) None None;
        if (0 <? length peak_idx)%nat then
          pos_wave ← take_indices (py_slice wave low high) (Z.of_nat <$> peak_idx);
          (* every residual of a zero wavelength is inf or nan: none is
             below the threshold and the line is left as it is *)
          if Qeq_bool wl 0 then Ok None
          else
            let residual : list Q :=
              (fun pw => Qabs (wl - pw) / wl * speed_of_light) <$> pos_wave in
            Ok (Some (low, peak_idx, residual))
        else Ok None.

(** The body of the loop of [auto_id] for one line. *)
Definition auto_id_line (self : WavelengthCalibration) (obs : list marray)
    (wave_img : list (list Q)) (l : line) : result line :=
  if flag l then Ok l
  else
    c ← auto_id_peaks self obs wave_img l;
    match c with
    | None => Ok l
    | Some (low, peak_idx, residual) =>
        idx ← np_argmin residual;
        r ← py_index residual (Z.of_nat idx);
        if Qltb r (threshold self) then
          p ← py_index peak_idx (Z.of_nat idx);
          Ok (set_posm (inject_Z (low + Z.of_nat p)) (set_flag true l))
        else Ok l
    end.

Fixpoint auto_id_loop (self : WavelengthCalibration) (obs : list marray)
    (wave_img : list (list Q)) (lines : list line) : result (list line) :=
  match lines with
  | [] => Ok []
  | l :: lines' =>
      l' ← auto_id_line self obs wave_img l;
      ls' ← auto_id_loop self obs wave_img lines';
      Ok (l' :: ls')
  end.

Definition auto_id (self : WavelengthCalibration) (obs : list marray)
    (wave_img : list (list Q)) (lines : list line) : result (list line) :=
  auto_id_loop self obs wave_img lines.

(** ** Frequency comb: peaks and mode indices *)

(** [n[j + 1:] += v]. *)
Definition add_from (v : Z) (j : nat) (n : list Z) : list Z :=
  take (S j) n ++ (Z.add v <$> drop (S j) n).

(** [d > 1.5 * median]: a peak was missed in this gap;
    [d < 0.5 * median]: the peak after this gap is a double. *)
Definition gap_missed (med : option Q) (d : Z) : bool :=
  match med with
  | Some m => Qltb ((3 # 2) * m) (inject_Z d)
  | None => false
  end.

Definition gap_double (med : option Q) (d : Z) : bool :=
  match med with
  | Some m => Qltb (inject_Z d) ((1 # 2) * m)
  | None => false
  end.

(** The provisional mode index of every peak: the counting part of
    [_find_peaks]. *)
Definition mode_index (peaks : list Z) : list Z :=
  let n := Z.of_nat <$> seq 0 (length peaks) in
  let diff := np_diff peaks in
  let med := np_median (inject_Z <$> diff) in
  let n := foldl (fun n j => add_from 1 j n) n (np_where (gap_missed med <$> diff)) in
  foldl (fun n j => add_from (-1) j n) n (np_where (gap_double med <$> diff)).

(** [x // d] on floats. *)
Definition Qfloordiv (x d : Q) : Q := inject_Z (Qfloor (x / d)).

(** [comb - np.ma.min(comb)] on a comb that is not empty: the minimum is
    masked when every entry is masked, which masks every entry. *)
Definition comb_shifted (comb : marray) : marray :=
  match np_min (ma_compressed comb) with
  | Ok m => (fun o : option Q => (fun v => v - m) <$> o) <$> comb
  | Raise _ => (fun _ => None) <$> comb
  end.

(** [np.ma.min(comb)] is a [ValueError] on an empty array. *)
Definition _find_peaks (self : WavelengthCalibration) (comb : marray)
  : result (list Z * list Q) :=
  if (length comb =? 0)%nat then Raise ValueError
  else
    let c := comb_shifted comb in
    let width_ := lfc_peak_width self in
    let height_ := np_median (ma_compressed c) in
    peaks ← signal_find_peaks c height_ None (Some width_);
    let distance :=
      (fun m => Qfloordiv m 4) <$> np_median (inject_Z <$> np_diff (Z.of_nat <$> peaks)) in
    peaks ← signal_find_peaks c height_ (Some distance) (Some width_);
    let peaks := Z.of_nat <$> peaks in
    let n := mode_index peaks in
    (* the mean of no gap is NaN, which np.arange rejects *)
    let width_ := (fun m => Qfloor (m / 2)) <$> np_mean (inject_Z <$> np_diff peaks) in
    new_peaks ← for_each (fun new_peaks p =>
        match width_ with
        | None => Raise ValueError
        | Some w =>
            let idx := (fun k => Z.min (Z.of_nat (length c) - 1) (Z.max (p + k) 0))
                         <$> py_range (- w) (w + 1) in
            c_idx ← take_indices c idx;
            coef ← gaussfit3 (inject_Z <$> py_range 0 (Z.of_nat (length idx))) c_idx;
            mu ← py_index coef 1;
            Ok (new_peaks ++ [mu + inject_Z p - inject_Z w])
        end) peaks [];
    Ok (n, new_peaks).

(** ** Model scoring *)

(** The attributes [calculate_AIC] stores on the object. *)
Record aic_attrs : Type := { logl : Q; aicc : Q; aic : Q }.

(** [np.size] of a 2-d array. *)
Definition np_size (a : list (list Q)) : nat := length (concat a).

(** The number of parameters [k] of [calculate_AIC]. *)
Definition aic_k (self : WavelengthCalibration) (wave_solution : solution) : result nat :=
  if step_mode self then
    match mode self, wave_solution with
    | Mode1D, StepCoef1D d =>
        Ok (foldl (fun k '(_, (v0, v1)) => k + length v0 + np_size v1)%nat 1%nat d)
    | Mode2D, StepCoef2D poly_coef steps_coef =>
        Ok (foldl (fun k '(_, v) => k + np_size v)%nat 1%nat steps_coef
            + np_size poly_coef)%nat
    | _, _ => Raise TypeError
    end
  else
    match wave_solution with
    | Coef c => Ok (np_size c + 1)%nat
    | _ => Raise TypeError
    end.

(** Residual sum of squares of predicted against catalogue wavelengths. *)
Definition aic_rss (p_wave m_wave : list Q) : Q :=
  Qsum (zip_with (fun p w => Qpow (p - w) 2) p_wave m_wave).

(** Returns the value of [aic] and the attributes set on the object. *)
Definition calculate_AIC (self : WavelengthCalibration) (lines : list line)
    (wave_solution : solution) : result (Q * aic_attrs) :=
  let m_pix := posc <$> lines in
  let m_wave := wll <$> lines in
  let m_ord := order <$> lines in
  p_wave ← evaluate_solution self m_pix m_ord wave_solution;
  k ← aic_k self wave_solution;
  let n := length p_wave in
  if negb (n =? length m_wave)%nat then Raise ValueError
  else
    let k_ := inject_Z (Z.of_nat k) in
    let n_ := inject_Z (Z.of_nat n) in
    let rss := aic_rss p_wave m_wave in
    let logl_ := - n_ / 2 * (1 + np_log (2 * np_pi) + np_log (rss / n_)) in
    let aic_ := 2 * k_ - 2 * logl_ in
    if (Z.of_nat n - Z.of_nat k - 1 =? 0)%Z then Raise ZeroDivisionError
    else
      let aicc_ := aic_ + (2 * Qpow k_ 2 + 2 * k_)
                          / inject_Z (Z.of_nat n - Z.of_nat k - 1) in
      Ok (aic_, {| logl := logl_; aicc := aicc_; aic := aic_ |}).

End Engine.

(** ** A reference instance of the libraries

    Exact-arithmetic versions of the library routines, used to run the
    engine on concrete inputs.  Least squares solves the normal equations by
    Gauss-Jordan elimination (a free coefficient of a rank-deficient system
    is set to zero); correlation is the direct sum with zero fill; peaks are
    the strict local maxima at or above the height.  The routines that need
    transcendental functions are replaced by rational stand-ins: a window of
    ones, a fit that returns its seed when the bounds are proper, the first
    order expansion of the logarithm. *)
Module Reference.

Definition dot (u v : list Q) : Q := Qsum (zip_with Qmult u v).

Fixpoint transpose (n : nat) (A : list (list Q)) : list (list Q) :=
  match n with
  | O => []
  | S n' => ((fun r => hd 0 r) <$> A) :: transpose n' ((fun r => tl r) <$> A)
  end.

(** Subtract from [r] the multiple of the pivot row [p] that clears column [c]. *)
Definition clear_col (c : nat) (p r : list Q) : list Q :=
  let f := nth c r 0 in zip_with (fun a b => a - f * b) r p.

(** Gauss-Jordan on the augmented rows: [done] holds the pivot rows with
    their columns, [rest] the rows not yet used. *)
Fixpoint eliminate (cols : list nat) (done : list (nat * list Q)) (rest : list (list Q))
  : list (nat * list Q) :=
  match cols with
  | [] => done
  | c :: cols' =>
      match filter (fun r => Qeq_bool (nth c r 0) 0 = false) rest with
      | [] => eliminate cols' done rest
      | p :: _ =>
          let p' := (fun a => a / nth c p 0) <$> p in
          let others := filter (fun r => Qeq_bool (nth c r 0) 0 = true) rest
                        ++ tl (filter (fun r => Qeq_bool (nth c r 0) 0 = false) rest) in
          eliminate cols'
            ((c, p') :: ((fun '(k, r) => (k, clear_col c p' r)) <$> done))
            (clear_col c p' <$> others)
      end
  end.

Definition solve (n : nat) (A : list (list Q)) (b : list Q) : list Q :=
  let rows := zip_with (fun r v => r ++ [v]) A b in
  let piv := eliminate (seq 0 n) [] rows in
  (fun c => match filter (fun kr => kr.1 = c) piv with
            | (_, r) :: _ => Qred (nth n r 0)
            | [] => 0
            end) <$> seq 0 n.

(** Least squares of [A x = b] with [n] unknowns. *)
Definition lstsq (n : nat) (A : list (list Q)) (b : list Q) : list Q :=
  let At := transpose n A in
  solve n ((fun u => (fun v => dot u v) <$> At) <$> At) ((fun u => dot u b) <$> At).

Definition polyfit (x y : list Q) (deg : nat) : list Q :=
  lstsq (S deg) ((fun v => (fun k => Qpow v (deg - k)) <$> seq 0 (S deg)) <$> x) y.

Definition find_peaks (x : marray) (height : option Q) : list nat :=
  let v := ma_filled 0 x in
  filter (fun i =>
            Qltb (nth (i - 1) v 0) (nth i v 0) && Qltb (nth (i + 1) v 0) (nth i v 0)
            && match height with Some h => Qle_bool h (nth i v 0) | None => true end
            = true)
         (seq 1 (length v - 2)).

(** [out[m] = sum_j a[m - (len b - 1) / 2 + j] * b[j]]. *)
Definition correlate (a b : list Q) : list Q :=
  (fun m =>
     Qsum ((fun j =>
              match (Z.of_nat m - (Z.of_nat (length b) - 1) / 2 + Z.of_nat j)%Z with
              | Zneg _ => 0
              | k => nth (Z.to_nat k) a 0 * nth j b 0
              end) <$> seq 0 (length b)))
    <$> seq 0 (length a).

Definition correlate2d (a b : list (list Q)) : list (list Q) :=
  (fun m =>
     foldr (zip_with Qplus) (replicate (shape1 a) 0)
       ((fun j =>
           match (Z.of_nat m - (Z.of_nat (length b) - 1) / 2 + Z.of_nat j)%Z with
           | Zneg _ => replicate (shape1 a) 0
           | k => correlate (nth (Z.to_nat k) a (replicate (shape1 a) 0)) (nth j b [])
           end) <$> seq 0 (length b)))
    <$> seq 0 (length a).

Definition proper_bounds (lower upper : list Q) : bool :=
  forallb (fun '(lo, hi) => Qltb lo hi) (zip lower upper).

Definition reference : NumLib := {|
  polyfit_lstsq := polyfit;
  scipy_lstsq := fun A b => lstsq (shape1 A) A b;
  least_squares_gauss := fun x y offset p0 lower upper =>
    if proper_bounds lower upper then Ok p0 else Raise ValueError;
  gaussfit3 := fun x y =>
    match np_argmax (ma_filled 0 y) with
    | Ok i => Ok [nth i (ma_filled 0 y) 0; nth i x 0; 1; 0]
    | Raise e => Raise e
    end;
  signal_find_peaks := fun x height distance width_ => Ok (find_peaks x height);
  gaussian_window := fun n std => replicate n 1;
  signal_correlate2d := correlate2d;
  signal_correlate := correlate;
  np_log := fun x => x - 1;
  np_pi := 355 # 113;
  build_step_solution := fun self lines => Raise ValueError;
  evaluate_step_solution := fun self pos order_ sol => Raise ValueError;
  align_manual := fun obs lines => (0%Z, 0%Z)
|}.

End Reference.

(** ** The calibration procedure *)

(** [make_wave] calls [evaluate_solution] on the integer pixel grid of
    [np.indices].  With pixel steps the positions are shifted inside that
    integer array (the 2D variant stores them back into it), which is not
    the evaluation at float positions of [evaluate_step_solution]: the
    stepped image is a routine of its own. *)
Class GridLib : Type := {
  evaluate_step_solution_grid :
    WavelengthCalibration -> solution -> result (list (list Q))
}.

Definition set_height (v : Q) (l : line) : line :=
  Line (wll l) (posm l) (posc l) (order l) (width l) v (flag l) (xfirst l) (xlast l).
Definition set_posc (v : Q) (l : line) : line :=
  Line (wll l) (posm l) v (order l) (width l) (height l) (flag l) (xfirst l) (xlast l).

(** [self.nord, self.ncol = obs.shape]. *)
Definition set_shape (nord_ ncol_ : nat) (self : WavelengthCalibration)
  : WavelengthCalibration :=
  {| threshold := threshold self; degree := degree self; iterations := iterations self;
     mode := mode self; nstep := nstep self; shift_window := shift_window self;
     manual := manual self; polarim := polarim self; plot := plot self;
     lfc_peak_width := lfc_peak_width self; nord := nord_; ncol := ncol_ |}.

(** [np.indices((nord, ncol))], both index arrays flattened row by row, and
    the inverse reshaping of a flat array. *)
Definition np_indices (nrow mcol : nat) : list (nat * nat) :=
  r ← seq 0 nrow; c ← seq 0 mcol; [(r, c)].

Definition np_reshape {A} (nrow mcol : nat) (a : list A) : list (list A) :=
  (fun r => take mcol (drop (r * mcol) a)) <$> seq 0 nrow.

(** The body of the first loop of [normalize] for one order.
    [obs[i][obs[i] > 0]] indexes with the data of the comparison, so it
    selects every pixel that stores a positive value, masked or not, each
    with its mask bit.  The minimum of no pixel is a [ValueError]; the
    minimum of masked pixels only is masked, and subtracting it masks the
    whole order.  A division by a zero maximum masks the whole order too
    (the domain of the masked division), as does a masked maximum. *)
Definition normalize_order (spec : sarray) : result marray :=
  m ← ma_min (ma_view (filter (fun p : Q * bool => Qltb 0 p.1 = true) spec));
  let spec : marray :=
    match m with
    | Some m => (fun o : option Q => (fun v => v - m) <$> o) <$> ma_view spec
    | None => (fun _ => None) <$> ma_view spec
    end in
  top ← ma_max spec;
  match top with
  | Some top =>
      if Qeq_bool top 0 then Ok ((fun _ => None) <$> spec)
      else Ok ((fun o : option Q => (fun v => v / top) <$> o) <$> spec)
  | None => Ok ((fun _ => None) <$> spec)
  end.

(** [obs[obs <= 0] = np.ma.masked] on one order. *)
Definition mask_nonpositive (spec : marray) : marray :=
  (fun o : option Q =>
     match o with
     | Some v => if Qle_bool v 0 then None else Some v
     | None => None
     end) <$> spec.

(** The second loop of [normalize] for one order value: the heights of its
    lines are divided by the largest of them.  (A largest height of zero
    gives non-finite heights in NumPy and zero here.) *)
Definition normalize_heights (lines : list line) (o : Z) : result (list line) :=
  topheight ← np_max (height <$> filter (fun l => order l = o) lines);
  Ok ((fun l => if decide (order l = o) then set_height (height l / topheight) l else l)
        <$> lines).

Definition normalize (obs : list sarray) (lines : list line)
  : result (list marray * list line) :=
  obs ← for_each (fun (done : list marray) spec =>
                    s ← normalize_order spec; Ok (done ++ [s])) obs [];
  let obs : list marray := mask_nonpositive <$> obs in
  lines ← for_each normalize_heights (np_unique (order <$> lines)) lines;
  Ok (obs, lines).

Section Procedure.
Context {L : NumLib} {plt : PlotLib} {G : GridLib}.

Definition make_wave (self : WavelengthCalibration) (wave_solution : solution)
  : result (list (list Q)) :=
  if step_mode self then evaluate_step_solution_grid self wave_solution
  else
    let yx := np_indices (nord self) (ncol self) in
    let x := (fun p : nat * nat => inject_Z (Z.of_nat p.2)) <$> yx in
    let y := (fun p : nat * nat => Z.of_nat p.1) <$> yx in
    wave_img ← evaluate_solution self x y wave_solution;
    Ok (np_reshape (nord self) (ncol self) wave_img).

(** How a call of [execute] ends: [NotImplementedError] is raised by no
    other method of the class. *)
Inductive outcome (A : Type) : Type :=
| Returns (a : A)
| Raises (e : exn)
| RaisesNotImplemented.

(** The loop [for i in range(self.iterations)] of [execute]; [None] only
    if [reject_lines] runs out of passes. *)
Fixpoint execute_loop (self : WavelengthCalibration) (obs : list marray) (n : nat)
    (lines : list line) : option (result (list line)) :=
  match n with
  | O => Some (Ok lines)
  | S n' =>
      match (wave_solution ← build_2d_solution self lines;
             wave_img ← make_wave self wave_solution;
             auto_id self obs wave_img lines) with
      | Raise e => Some (Raise e)
      | Ok lines =>
          match reject_lines self lines with
          | None => None
          | Some (Raise e) => Some (Raise e)
          | Some (Ok (lines, _, _)) => execute_loop self obs n' lines
          end
      end
  end.

(** [execute]: the wavelength image, the solution, and the line list as
    the caller finds it afterwards (every step updates the record array in
    place).  The shape of an image without rows is (0, 0) here. *)
Definition execute (self : WavelengthCalibration) (obs : list sarray) (lines : list line)
  : option (outcome (list (list Q) * solution * list line)) :=
  if polarim self then Some (RaisesNotImplemented _)
  else
    let self := set_shape (length obs) (shape1 obs) self in
    match (ol ← normalize obs lines;
           lines ← align self ol.1 ol.2;
           let lines := (fun l => set_posc (posm l) l) <$> lines in
           let lines := set_flag true <$> lines in
           lines ← fit_lines self ol.1 lines;
           Ok (ol.1, lines)) with
    | Raise e => Some (Raises _ e)
    | Ok (obs, lines) =>
        match execute_loop self obs (iterations self) lines with
        | None => None
        | Some (Raise e) => Some (Raises _ e)
        | Some (Ok lines) =>
            match (wave_solution ← build_2d_solution self lines;
                   wave_img ← make_wave self wave_solution;
                   _ ← calculate_AIC self lines wave_solution;
                   Ok (wave_img, wave_solution, lines)) with
            | Raise e => Some (Raises _ e)
            | Ok r => Some (Returns _ r)
            end
        end
    end.

End Procedure.

Arguments Returns {A} a.
Arguments Raises {A} e.
Arguments RaisesNotImplemented {A}.

(** ** Manual alignment: the click handler of [AlignmentPlot] *)

Inductive spectrum : Type := RefSpectrum | ObsSpectrum.

(** [self.offset]: the default [(0, 0)] is a tuple, a caller can pass a list. *)
Inductive py_pair : Type :=
| PyTuple (a b : Z)
| PyList (a b : Z).

(** The attributes of an [AlignmentPlot] that [on_click] reads and writes;
    [spec_first] is the empty string ([None]) before the first click. *)
Record AlignmentPlot : Type := {
  ap_first : bool;
  ap_order_first : Z;
  ap_spec_first : option spectrum;
  ap_x_first : Q;
  ap_offset : py_pair
}.

(** [spec == self.spec_first]. *)
Definition same_spectrum (spec : spectrum) (spec_first : option spectrum) : bool :=
  match spec, spec_first with
  | RefSpectrum, Some RefSpectrum | ObsSpectrum, Some ObsSpectrum => true
  | _, _ => false
  end.

(** A mouse event: both coordinates are [None] outside the axes. *)
Record MouseEvent : Type := { xdata : option Q; ydata : option Q }.

(** [on_click]: the object after the call and the exception raised, if
    any.  Formatting [x = None] with [%g] and the item assignment on a
    tuple are [TypeError]s; redrawing the image is left out. *)
Definition on_click (ap : AlignmentPlot) (event : MouseEvent)
  : AlignmentPlot * option exn :=
  match ydata event with
  | None => (ap, None)
  | Some y =>
      let order_ := Qfloor y in
      let spec := if Qltb (1 # 2) (y - inject_Z order_) then RefSpectrum
                  else ObsSpectrum in
      match xdata event with
      | None => (ap, Some TypeError)
      | Some x =>
          if ap_first ap then
            ({| ap_first := false; ap_order_first := order_;
                ap_spec_first := Some spec; ap_x_first := x;
                ap_offset := ap_offset ap |}, None)
          else if same_spectrum spec (ap_spec_first ap) then (ap, None)
          else
            let direction := match spec with RefSpectrum => (-1)%Z | ObsSpectrum => 1%Z end in
            let offset_orders := ((order_ - ap_order_first ap) * direction)%Z in
            let offset_x := (py_int (x - ap_x_first ap) * direction)%Z in
            match ap_offset ap with
            | PyTuple a b =>
                ({| ap_first := true; ap_order_first := ap_order_first ap;
                    ap_spec_first := ap_spec_first ap; ap_x_first := ap_x_first ap;
                    ap_offset := PyTuple a b |}, Some TypeError)
            | PyList a b =>
                ({| ap_first := true; ap_order_first := ap_order_first ap;
                    ap_spec_first := ap_spec_first ap; ap_x_first := ap_x_first ap;
                    ap_offset := PyList (a + offset_orders) (b + offset_x) |}, None)
            end
      end
  end.

(** The object after a sequence of clicks, each handled by [on_click]. *)
Definition on_clicks (ap : AlignmentPlot) (events : list MouseEvent) : AlignmentPlot :=
  foldl (fun ap event => (on_click ap event).1) ap events.

(** The object [align_manual] creates: [AlignmentPlot(ax, obs, lines)]. *)
Definition new_AlignmentPlot (offset : py_pair) : AlignmentPlot :=
  {| ap_first := true; ap_order_first := 0; ap_spec_first := None; ap_x_first := 0;
     ap_offset := offset |}.

(** ** Helpers of [util.py] *)

(** [find_first_index(arr, value)]: [None] is the exception of the source
    ([Exception("Value ... not found")]). *)
Fixpoint find_first_index {A} `{EqDecision A} (arr : list A) (value : A) : option nat :=
  match arr with
  | [] => None
  | v :: arr' =>
      if decide (v = value) then Some 0%nat
      else S <$> find_first_index arr' value
  end.

(** [np.interp(x, xp, fp)] for increasing sample points [xp]: constant
    outside of them and linear between two neighbours.  [interp_from] is the
    search to the right of the sample [(xa, fa)], which is not after [x]. *)
Fixpoint interp_from (x xa fa : Q) (xp fp : list Q) : Q :=
  match xp, fp with
  | xb :: xp', fb :: fp' =>
      if Qltb x xb then (fb - fa) / (xb - xa) * (x - xa) + fa
      else interp_from x xb fb xp' fp'
  | _, _ => fa
  end.

Definition np_interp (x xp fp : list Q) : result (list Q) :=
  match xp, fp with
  | xa :: xp', fa :: fp' =>
      if negb (length xp' =? length fp')%nat then Raise ValueError
      else Ok ((fun v => if Qltb v xa then fa else interp_from v xa fa xp' fp') <$> x)
  | _, _ => Raise ValueError
  end.

(** [util.interpolate_masked(masked)]. *)
Definition interpolate_masked (masked : marray) : result (list Q) :=
  let idx := np_where ((fun o : option Q => bool_decide (is_Some o)) <$> masked) in
  np_interp ((fun k => inject_Z (Z.of_nat k)) <$> seq 0 (length masked))
            ((fun k => inject_Z (Z.of_nat k)) <$> idx)
            (ma_compressed masked).

(** Reference instances of [PlotLib] (nothing is drawn) and of [GridLib]
    (as for the stepped solution). *)
Definition reference_plot : PlotLib :=
  {| plot_fit := fun x section coef => Ok tt;
     plot_fit_unbound := fun x section => NameError |}.

Definition reference_grid : GridLib :=
  {| evaluate_step_solution_grid := fun self sol => Raise ValueError |}.

(** ** Notions used in the statements *)

Definition count_flagged (lines : list line) : nat := length (flagged lines).

(** Whether index [i] is selected by [select]. *)
Definition selected (select : option (list bool)) (i : nat) : bool :=
  match select with
  | None => true
  | Some mask => default false (mask !! i)
  end.

(** A line moved by an (order, pixel) offset. *)
Definition shift_line (offset : Z * Z) (l : line) : line :=
  Line (wll l) (posm l + inject_Z offset.2) (posc l) (order l + offset.1)
       (width l) (height l) (flag l) (xfirst l + offset.2) (xlast l + offset.2).


(** The mask of the residuals is the complement of the flags. *)
Definition mask_of_flags (residual : marray) (lines : list line) : Prop :=
  length residual = length lines /\
  forall (i : nat) l, lines !! i = Some l ->
    exists o, residual !! i = Some o /\ (is_Some o <-> flag l = true).

(** Number of gaps of [ds] that satisfy [p]. *)
Definition count_gaps (p : Z -> bool) (ds : list Z) : nat :=
  length (filter (fun d => p d = true) ds).

Definition count_true (cond : list bool) : nat :=
  length (filter (fun b => b = true) cond).

(** [lines'] is [lines] with some flags cleared and nothing else changed. *)
Definition flags_cleared (lines lines' : list line) : Prop :=
  length lines' = length lines /\
  forall (i : nat) l l', lines !! i = Some l -> lines' !! i = Some l' ->
    l' = l \/ (flag l = true /\ l' = set_flag false l).

(** Every line of [lines'] is the line of [lines] moved by [d_order] orders
    and by [d_x] pixels, [d_x] depending on the order of the line only. *)
Definition moved_rigidly (d_order : Z) (d_x : Z -> Z) (lines lines' : list line) : Prop :=
  lines' = (fun l => shift_line (d_order, d_x (order l)) l) <$> lines.

(** The offset [align] takes from a correlation whose maximum is at index
    0: (int(0 - rows / 2 + 1), int(0 - columns / 2 + 1)) for the shape of
    the reference image. *)
Definition flat_offset (img : list (list Q)) : Z * Z :=
  (py_int (0 - inject_Z (Z.of_nat (length img)) / 2 + 1),
   py_int (0 - inject_Z (Z.of_nat (shape1 img)) / 2 + 1)).

(** Half the width of the window of the refinement of one order, its
    bounds, and the part of the correlation of one order inside it. *)
Definition window_width (self : WavelengthCalibration) : Z :=
  (py_int (inject_Z (Z.of_nat (ncol self)) * shift_window self) / 2)%Z.

Definition window_low (self : WavelengthCalibration) : Z :=
  (Z.of_nat (ncol self) / 2 - window_width self)%Z.

Definition window_high (self : WavelengthCalibration) : Z :=
  (Z.of_nat (ncol self) / 2 + window_width self)%Z.

Definition order_window {L : NumLib} (self : WavelengthCalibration)
    (obs_i img_i : list Q) : list Q :=
  py_slice (signal_correlate obs_i img_i) (window_low self) (window_high self).

(** The pixel shift of an order whose window has its maximum at index 0. *)
Definition flat_shift (self : WavelengthCalibration) : Z :=
  py_int (inject_Z (0 + window_low self)
          - inject_Z (Z.of_nat (ncol self)) / 2 + 1).

(** A line of an order in [lo, hi) moved by [dx] pixels. *)
Definition refine_flat (lo hi dx : Z) (l : line) : line :=
  if ((lo <=? order l) && (order l <? hi))%Z then shift_line (0%Z, dx) l else l.

(** The last step of [align] in automatic mode: with [plot] the offset of
    the alignment window is applied on top. *)
Definition align_shown {L : NumLib} (self : WavelengthCalibration)
    (obs : list (list Q)) (lines : list line) : list line :=
  if (0 <? plot self)%nat then shift_line (align_manual obs lines) <$> lines
  else lines.

(** The largest height among the lines of order [o] (0 without such a line). *)
Definition top_height (lines : list line) (o : Z) : Q :=
  match np_max (height <$> filter (fun l => order l = o) lines) with
  | Ok t => t
  | Raise _ => 0
  end.

(** A line of [lines] once the heights of the orders in [done] are
    normalized. *)
Definition heights_normalized (lines : list line) (done : list Z) (l : line) : line :=
  if decide (order l ∈ done)
  then set_height (height l / top_height lines (order l)) l
  else l.

(** [l'] is the catalogue entry [l]: the same wavelength and width. *)
Definition same_entry (l l' : line) : Prop := wll l' = wll l /\ width l' = width l.

(** [np.where(cond)[0]] with the positions counted from [s]. *)
Definition np_where_from (s : nat) (cond : list bool) : list nat :=
  (fun p => p.1) <$> filter (fun p => p.2 = true) (zip (seq s (length cond)) cond).

(** The sample points of [interpolate_masked] for an array that starts at
    position [s]. *)
Definition sample_points (s : nat) (a : marray) : list Q :=
  (fun k => inject_Z (Z.of_nat k))
    <$> np_where_from s ((fun o : option Q => bool_decide (is_Some o)) <$> a).

(** A line with its flag and [posc] overwritten: two lines with the same
    [unmarked] differ in their flag and [posc] at most. *)
Definition unmarked (l : line) : line := set_flag true (set_posc 0 l).

(** ** Concrete inputs *)

(** A masked array stored with the data 0 under its masked pixels. *)
Definition ma_store (a : marray) : sarray :=
  (fun o : option Q => match o with Some v => (v, false) | None => (0, true) end) <$> a.

Definition settings (m : mode_t) (d : degree_t) (t : Q) (ncol_ : nat)
  : WavelengthCalibration :=
  {| threshold := t; degree := d; iterations := 3; mode := m; nstep := 0;
     shift_window := 0; manual := false; polarim := false; plot := 0;
     lfc_peak_width := 3; nord := 1; ncol := ncol_ |}.

(** A line of order 0 with the given wavelength, position and flag. *)
Definition mk_line (w p : Q) (f : bool) : line :=
  Line w p p 0 1 1 f (Qfloor p - 2) (Qfloor p + 2).

Definition arc_1d : WavelengthCalibration := settings Mode1D (Deg 1) 100 10.
Definition arc_const : WavelengthCalibration := settings Mode2D (DegXY 0 0) 100 10.

(** [arc_1d] with the default window of the alignment order by order. *)
Definition arc_1d_window : WavelengthCalibration :=
  {| threshold := 100; degree := Deg 1; iterations := 3; mode := Mode1D; nstep := 0;
     shift_window := 1 # 100; manual := false; polarim := false; plot := 0;
     lfc_peak_width := 3; nord := 1; ncol := 10 |}.

(** Six lines of one order on the dispersion 5000 + pixel, the fifth one
    displaced by one unit of wavelength. *)
Definition arc_lines : list line :=
  [mk_line 5000 0 true; mk_line 5001 1 true; mk_line 5002 2 true;
   mk_line 5003 3 true; mk_line 5005 4 true; mk_line 5005 5 true].

Definition arc_lines_kept : list line :=
  [mk_line 5000 0 true; mk_line 5001 1 true; mk_line 5002 2 true;
   mk_line 5003 3 true; mk_line 5005 4 false; mk_line 5005 5 true].

Definition arc_residual_kept : marray :=
  [Some (0 # 5000); Some (0 # 5001); Some (0 # 5002); Some (0 # 5003); None;
   Some (0 # 5005)].

(** The first solution of [arc_lines] and its residuals. *)
Definition arc_solution : solution :=
  Eval vm_compute in
    match build_2d_solution (L := Reference.reference) arc_1d arc_lines with
    | Ok sol => sol
    | Raise _ => Coef []
    end.

Definition arc_residual : marray :=
  Eval vm_compute in
    match calculate_residual (L := Reference.reference) arc_1d arc_solution arc_lines with
    | Ok r => r
    | Raise _ => []
    end.

Definition arc_solution_kept : solution :=
  Eval vm_compute in
    match build_2d_solution (L := Reference.reference) arc_1d arc_lines_kept with
    | Ok sol => sol
    | Raise _ => Coef []
    end.

(** One order of ten masked pixels, and one of fourteen pixels with a
    single peak. *)
Definition masked_obs : list marray := [replicate 10 None].

Definition peak_obs : list marray := [Some 1 :: Some 5 :: replicate 12 (Some 1)].

(** An observed order with one peak at pixel 2 and its wavelengths. *)
Definition id_obs : list marray := [[Some 1; Some 1; Some 5; Some 1; Some 1; Some 1]].
Definition id_wave : list (list Q) := [[5000; 5001; 5002; 5003; 5004; 5005]].

(** [arc_1d] for an observation of two orders. *)
Definition arc_1d_two : WavelengthCalibration := set_shape 2 10 arc_1d.

(** Settings of a run of [execute]: one iteration, no refinement of the
    alignment, the shape still unset. *)
Definition run_settings (m : mode_t) (d : degree_t) (p : bool) : WavelengthCalibration :=
  {| threshold := 100; degree := d; iterations := 1; mode := m; nstep := 0;
     shift_window := 0; manual := false; polarim := p; plot := 0;
     lfc_peak_width := 3; nord := 0; ncol := 0 |}.

Definition run_1d : WavelengthCalibration := run_settings Mode1D (Deg 1) false.
Definition run_const : WavelengthCalibration := run_settings Mode2D (DegXY 0 0) false.
Definition run_polarim : WavelengthCalibration := run_settings Mode1D (Deg 1) true.

(** One order of twelve pixels with two peaks, and two lines near them. *)
Definition run_obs : list sarray :=
  [ma_store [Some 1; Some 1; Some 5; Some 1; Some 1; Some 1; Some 1; Some 5; Some 1;
             Some 1; Some 1; Some 1]].

Definition run_lines : list line :=
  [Line 5002 2 0 0 1 1 false 1 4; Line 5007 7 0 0 1 1 false 6 9].

(** [arc_1d] with the plot of every fit of [fit_lines]. *)
Definition arc_1d_plots : WavelengthCalibration :=
  {| threshold := 100; degree := Deg 1; iterations := 3; mode := Mode1D; nstep := 0;
     shift_window := 0; manual := false; polarim := false; plot := 2;
     lfc_peak_width := 3; nord := 1; ncol := 10 |}.

(** A line at pixel 2 with a negative width. *)
Definition narrow_line : line := Line 5000 2 2 0 (-1) 1 true 0 4.

(** A flagged line at pixel 3 with the catalogue wavelength 0, and settings
    with a constant solution per order and the threshold 1. *)
Definition zero_line : line := Line 0 3 3 0 1 1 true 1 5.
Definition zero_settings : WavelengthCalibration := settings Mode1D (Deg 0) 1 10.

(** A comb of 100 pixels with peaks 10 px apart, one of them missing
    before pixel 56 and one double at pixel 80. *)
Definition comb_peaks : list nat := [5; 15; 25; 35; 56; 66; 76; 80; 86; 96]%nat.
Definition comb_obs : marray :=
  (fun k => Some (if existsb (Nat.eqb k) comb_peaks then 1 else 0)) <$> seq 0 100.

(** The default settings of the alignment, a window of 1% and the plot, on
    one masked order of 400 pixels, with the reference image of one line
    at pixel 200 before and after the first offset. *)
Definition wide_settings : WavelengthCalibration :=
  {| threshold := 100; degree := Deg 1; iterations := 3; mode := Mode1D; nstep := 0;
     shift_window := 1 # 100; manual := false; polarim := false; plot := 1;
     lfc_peak_width := 3; nord := 1; ncol := 400 |}.

Definition wide_obs : list marray := [replicate 400 None].

Definition wide_img : list (list Q) :=
  Eval vm_compute in
    match create_image_from_lines (L := Reference.reference) wide_settings
            [mk_line 5000 200 true] with
    | Ok img => img
    | Raise _ => []
    end.

Definition wide_img1 : list (list Q) :=
  Eval vm_compute in
    match create_image_from_lines (L := Reference.reference) wide_settings
            (shift_line (flat_offset wide_img) <$> [mk_line 5000 200 true]) with
    | Ok img => img
    | Raise _ => []
    end.

(** One order of sixteen pixels with three peaks, and three lines near
    them that do not lie on one straight dispersion. *)
Definition peaks_obs : list sarray :=
  [ma_store [Some 1; Some 1; Some 5; Some 1; Some 1; Some 1; Some 1; Some 5; Some 1;
             Some 1; Some 1; Some 1; Some 5; Some 1; Some 1; Some 1]].

Definition peaks_lines : list line :=
  [Line 5002 2 0 0 1 1 false 1 4; Line 5007 7 0 0 1 1 false 6 9;
   Line (5012 + (1 # 1000)) 12 0 0 1 1 false 11 14].

Definition peaks_result : list (list Q) * solution * list line :=
  Eval vm_compute in
    match execute (L := Reference.reference) (plt := reference_plot)
            (G := reference_grid) run_1d peaks_obs peaks_lines with
    | Some (Returns r) => r
    | _ => ([], Coef [], [])
    end.

(** [arc_1d] with a threshold below zero. *)
Definition arc_1d_strict : WavelengthCalibration := settings Mode1D (Deg 1) (-1) 10.

(** Three stored orders: one with a positive value under its mask and
    three in the open, one whose only positive value is under the mask,
    and one that stores no positive value. *)
Definition stored_order : sarray :=
  [(7, true); (1, false); (0, true); (4, false); (2, false); (0, true)].
Definition hidden_order : sarray := [(2, true); (0, false)].
Definition dark_order : sarray := [(0, false); (-1, true)].

(** An order with masked pixels and one without signal above zero. *)
Definition partly_masked : marray := [None; Some 1; None; Some 4; Some 2; None].

(** Two lines of order 0 and one of order 1, of different heights. *)
Definition tall_lines : list line :=
  [Line 5000 2 2 0 1 4 true 1 3; Line 5001 5 5 0 1 2 true 4 6;
   Line 6000 3 3 1 1 3 false 2 4].

Abbreviation ref := Reference.reference.

(** ** Properties *)

Section Properties.
Context {L : NumLib} {plt : PlotLib}.
Implicit Types (self : WavelengthCalibration) (lines : list line) (l : line).
Implicit Types (residual : marray) (i j ibad : nat) (sol : solution).

(** *** Alignment offset *)

Lemma update_where_eq (f : line -> line) sel lines :
  update_where f sel lines =
  match sel with
  | None => Ok (f <$> lines)
  | Some mask =>
      if decide (length mask = length lines)
      then Ok (zip_with (fun (b : bool) l => if b then f l else l) mask lines)
      else Raise IndexError
  end.
Proof. reflexivity. Qed.

Lemma zip_with_cond_compose (f g : line -> line) (mask : list bool) (lines : list line) :
  zip_with (fun (b : bool) l => if b then g l else l) mask
    (zip_with (fun (b : bool) l => if b then f l else l) mask lines)
  = zip_with (fun (b : bool) l => if b then g (f l) else l) mask lines.
Proof.
  revert lines. induction mask as [|b mask IH]; intros [|l lines]; simpl; try done.
  rewrite IH. by destruct b.
Qed.

Lemma apply_alignment_offset_eq lines offset sel :
  apply_alignment_offset lines offset sel =
  match sel with
  | None => Ok (shift_line offset <$> lines)
  | Some mask =>
      if decide (length mask = length lines)
      then Ok (zip_with (fun (b : bool) l => if b then shift_line offset l else l)
                 mask lines)
      else Raise IndexError
  end.
Proof.
  unfold apply_alignment_offset. destruct sel as [mask|]; simpl.
  - destruct (decide (length mask = length lines)) as [Hlen|Hlen]; simpl; [|done].
    repeat (rewrite decide_True by (by rewrite length_zip_with, Hlen, Nat.min_id);
            simpl; rewrite ?zip_with_cond_compose).
    done.
  - by rewrite <- !list_fmap_compose.
Qed.

(** C10 (as amended).  Applying an alignment offset adds the order shift to
    the [order] of each selected line and the pixel shift to its [posm],
    [xfirst] and [xlast]; [posc], [wll], [width], [height] and [flag] of a
    selected line and every field of a line that is not selected stay as
    they are. *)
Theorem C10_apply_alignment_offset_frame lines offset sel lines' :
  apply_alignment_offset lines offset sel = Ok lines' ->
  length lines' = length lines /\
  forall i l, lines !! i = Some l ->
    exists l', lines' !! i = Some l' /\
      if selected sel i
      then order l' = (order l + offset.1)%Z /\
           posm l' = posm l + inject_Z offset.2 /\
           xfirst l' = (xfirst l + offset.2)%Z /\
           xlast l' = (xlast l + offset.2)%Z /\
           posc l' = posc l /\ wll l' = wll l /\ width l' = width l /\
           height l' = height l /\ flag l' = flag l
      else l' = l.
Proof.
  rewrite apply_alignment_offset_eq. destruct sel as [mask|]; simpl.
  - destruct (decide (length mask = length lines)) as [Hlen|Hlen]; [|done].
    intros [= <-]. split; [by rewrite length_zip_with, Hlen, Nat.min_id|].
    intros i l Hl.
    destruct (mask !! i) as [b|] eqn:Hb.
    + exists (if b then shift_line offset l else l). split.
      * rewrite lookup_zip_with, Hb, Hl. done.
      * simpl. destruct b; simpl; auto 10.
    + apply lookup_lt_Some in Hl. apply lookup_ge_None in Hb. lia.
  - intros [= <-]. split; [by rewrite length_fmap|].
    intros i l Hl. exists (shift_line offset l). split.
    + by rewrite list_lookup_fmap, Hl.
    + simpl. auto 10.
Qed.

(** *** Comparisons on rationals *)

Lemma Qltb_lt a b : Qltb a b = true <-> a < b.
Proof.
  unfold Qltb. rewrite negb_true_iff. split.
  - intros H. apply Qnot_le_lt. intros Hle. apply Qle_bool_iff in Hle. congruence.
  - intros H. destruct (Qle_bool b a) eqn:E; [|done].
    apply Qle_bool_iff in E. exfalso. by apply (Qlt_not_le a b).
Qed.

Lemma Qltb_ge a b : Qltb a b = false <-> b <= a.
Proof.
  unfold Qltb. rewrite negb_false_iff. apply Qle_bool_iff.
Qed.

(** *** Masked arrays *)

Lemma ma_abs_lookup (a : marray) i :
  ma_abs a !! i = (fun o : option Q => Qabs <$> o) <$> (a !! i).
Proof. unfold ma_abs. apply list_lookup_fmap. Qed.

Lemma ma_any_gt_true (a : marray) t :
  ma_any_gt a t = true <-> exists j v, a !! j = Some (Some v) /\ t < v.
Proof.
  unfold ma_any_gt. rewrite existsb_exists. split.
  - intros ([v|] & Hin & Hv); [|done].
    apply list_elem_of_In, list_elem_of_lookup in Hin as [j Hj].
    exists j, v. split; [done|]. by apply Qltb_lt.
  - intros (j & v & Hj & Hv). exists (Some v). split.
    + apply list_elem_of_In, list_elem_of_lookup. eauto.
    + by apply Qltb_lt.
Qed.

Lemma ma_any_gt_false (a : marray) t :
  ma_any_gt a t = false <-> forall j v, a !! j = Some (Some v) -> v <= t.
Proof.
  split.
  - intros H j v Hj. destruct (Qlt_le_dec t v) as [Hlt|]; [|done].
    assert (ma_any_gt a t = true) by (apply ma_any_gt_true; eauto). congruence.
  - intros H. destruct (ma_any_gt a t) eqn:E; [|done].
    apply ma_any_gt_true in E as (j & v & Hj & Hv).
    exfalso. apply (Qlt_not_le t v); eauto.
Qed.

Lemma ma_argmax_from_spec (l pre : marray) besti best :
  pre !! besti = Some best ->
  (forall j v, pre !! j = Some (Some v) -> exists w, best = Some w /\ v <= w) ->
  exists b, (pre ++ l) !! ma_argmax_from l (length pre) besti best = Some b /\
    forall j v, (pre ++ l) !! j = Some (Some v) -> exists w, b = Some w /\ v <= w.
Proof.
  revert pre besti best.
  induction l as [|x l IH]; intros pre besti best Hbest Hmax; simpl.
  - rewrite app_nil_r. eauto.
  - assert (Hlen : length (pre ++ [x]) = S (length pre))
      by (rewrite length_app; simpl; lia).
    assert (Happ : pre ++ x :: l = (pre ++ [x]) ++ l) by (by rewrite <- app_assoc).
    destruct (match x, best with
              | Some v, Some b => Qltb b v
              | Some _, None => true
              | None, _ => false
              end) eqn:Hbetter.
    + rewrite Happ, <- Hlen. apply IH.
      * rewrite lookup_app_r by lia. by rewrite Nat.sub_diag.
      * intros j v Hj. destruct x as [xv|]; [|done].
        exists xv. split; [done|].
        destruct (decide (j < length pre)%nat) as [Hlt|Hge].
        -- rewrite lookup_app_l in Hj by done.
           destruct (Hmax j v Hj) as (w & -> & Hvw).
           apply Qltb_lt in Hbetter. apply Qlt_le_weak.
           by apply Qle_lt_trans with w.
        -- rewrite lookup_app_r in Hj by lia.
           destruct (j - length pre)%nat; simpl in Hj; [|done].
           injection Hj as ->. apply Qle_refl.
    + rewrite Happ, <- Hlen. apply IH.
      * apply lookup_lt_Some in Hbest as Hlt. by rewrite lookup_app_l.
      * intros j v Hj.
        destruct (decide (j < length pre)%nat) as [Hlt|Hge].
        -- rewrite lookup_app_l in Hj by done. eauto.
        -- rewrite lookup_app_r in Hj by lia.
           destruct (j - length pre)%nat; simpl in Hj; [|done].
           injection Hj as ->. destruct best as [b|]; [|done].
           exists b. split; [done|]. by apply Qltb_ge.
Qed.

Lemma ma_argmax_spec (a : marray) r :
  ma_argmax a = Ok r ->
  exists b, a !! r = Some b /\
    forall j v, a !! j = Some (Some v) -> exists w, b = Some w /\ v <= w.
Proof.
  destruct a as [|x l]; [done|]. simpl. intros [= <-].
  apply (ma_argmax_from_spec l [x] 0%nat x); [done|].
  intros [|j] v Hj; simpl in Hj; [|done].
  injection Hj as ->. exists v. split; [done|apply Qle_refl].
Qed.

Lemma ma_argmax_nonempty (a : marray) :
  a <> [] -> exists r, ma_argmax a = Ok r.
Proof. destruct a; [done|]. simpl. eauto. Qed.

(** *** Residuals and the rejection loop *)

Lemma bind_Ok {A B} (c : result A) (f : A -> result B) b :
  c ≫= f = Ok b -> exists a, c = Ok a /\ f a = Ok b.
Proof. destruct c as [a|e]; simpl; [eauto|done]. Qed.

Lemma calculate_residual_Ok self sol lines residual :
  calculate_residual self sol lines = Ok residual ->
  exists wave,
    evaluate_solution self (posm <$> lines) (order <$> lines) sol = Ok wave /\
    length wave = length lines /\
    residual = zip_with (fun s l =>
                 if flag l then Some (velocity_residual s (wll l)) else None) wave lines.
Proof.
  unfold calculate_residual. intros H.
  apply bind_Ok in H as (wave & Hwave & H).
  destruct (length wave =? length lines)%nat eqn:Hlen; simpl in H; [|done].
  apply Nat.eqb_eq in Hlen. injection H as <-. eauto.
Qed.

Lemma calculate_residual_mask self sol lines residual :
  calculate_residual self sol lines = Ok residual -> mask_of_flags residual lines.
Proof.
  intros H. apply calculate_residual_Ok in H as (wave & _ & Hlen & ->). split.
  - rewrite length_zip_with. lia.
  - intros i l Hl.
    destruct (wave !! i) as [s|] eqn:Hs.
    + rewrite lookup_zip_with, Hs, Hl. simpl.
      destruct (flag l); eexists; (split; [done|]).
      * split; [done|]. intros _. by eexists.
      * split; [by intros [? ?]|done].
    + apply lookup_lt_Some in Hl. apply lookup_ge_None in Hs. lia.
Qed.

Lemma count_flagged_le lines : (count_flagged lines <= length lines)%nat.
Proof. unfold count_flagged, flagged. apply length_filter. Qed.

Lemma count_flagged_unflag lines i l :
  lines !! i = Some l -> flag l = true ->
  (count_flagged (<[i := set_flag false l]> lines) + 1 = count_flagged lines)%nat.
Proof.
  unfold count_flagged, flagged. revert i.
  induction lines as [|x lines IH]; intros [|i] Hl Hf; simpl in *; try done.
  - injection Hl as ->. rewrite filter_cons_False by (simpl; congruence).
    rewrite filter_cons_True by done. simpl. lia.
  - destruct (decide (flag x = true)) as [Hx|Hx].
    + rewrite !filter_cons_True by done. simpl. rewrite <- (IH i Hl Hf). lia.
    + rewrite !filter_cons_False by done. by apply IH.
Qed.

Lemma alter_set_flag lines i (l : line) :
  lines !! i = Some l -> alter (set_flag false) i lines = <[i := set_flag false l]> lines.
Proof.
  revert i. induction lines as [|x lines IH]; intros [|i] Hl; simpl in *; try done.
  - by injection Hl as ->.
  - f_equal. by apply IH.
Qed.

(** One pass of the loop removes the flag of exactly one flagged line, the
    one whose residual is largest in absolute value. *)
Lemma reject_outlier_step lines residual t :
  mask_of_flags residual lines ->
  ma_any_gt (ma_abs residual) t = true ->
  exists ibad l r,
    lines !! ibad = Some l /\ flag l = true /\
    residual !! ibad = Some (Some r) /\
    (forall j rj, residual !! j = Some (Some rj) -> Qabs rj <= Qabs r) /\
    reject_outlier residual lines = Ok (<[ibad := set_flag false l]> lines) /\
    (count_flagged (<[ibad := set_flag false l]> lines) + 1 = count_flagged lines)%nat.
Proof.
  intros [Hlen Hmask] Hany.
  apply ma_any_gt_true in Hany as (j0 & v0 & Hj0 & _).
  rewrite ma_abs_lookup in Hj0.
  destruct (residual !! j0) as [[r0|]|] eqn:Hr0; simpl in Hj0; try done.
  assert (Hne : ma_abs residual <> []).
  { intros He. apply (f_equal length) in He. unfold ma_abs in He.
    rewrite length_fmap in He. apply lookup_lt_Some in Hr0. simpl in He. lia. }
  destruct (ma_argmax_nonempty _ Hne) as [ibad Hibad].
  destruct (ma_argmax_spec _ _ Hibad) as (b & Hb & Hmax).
  destruct (Hmax j0 (Qabs r0)) as (w & -> & _).
  { by rewrite ma_abs_lookup, Hr0. }
  rewrite ma_abs_lookup in Hb.
  destruct (residual !! ibad) as [[r|]|] eqn:Hr; simpl in Hb; try done.
  injection Hb as <-.
  assert (Hlt : (ibad < length lines)%nat).
  { rewrite <- Hlen. by apply lookup_lt_Some in Hr. }
  destruct (lookup_lt_is_Some_2 lines ibad Hlt) as [l Hl].
  destruct (Hmask ibad l Hl) as (o & Ho & Hflag).
  rewrite Hr in Ho. injection Ho as <-.
  assert (Hf : flag l = true) by (apply Hflag; by eexists).
  exists ibad, l, r. repeat split; try done.
  - intros j rj Hj. destruct (Hmax j (Qabs rj)) as (w & Hw & Hle).
    { by rewrite ma_abs_lookup, Hj. }
    by injection Hw as <-.
  - unfold reject_outlier. rewrite Hibad. simpl.
    apply Nat.ltb_lt in Hlt. rewrite Hlt. by rewrite (alter_set_flag _ _ l).
  - by apply count_flagged_unflag.
Qed.

Lemma reject_pass_Ok self lines residual lines' residual' :
  mask_of_flags residual lines ->
  ma_any_gt (ma_abs residual) (threshold self) = true ->
  reject_pass self lines residual = Ok (lines', residual') ->
  (count_flagged lines' + 1 = count_flagged lines)%nat /\
  length lines' = length lines /\
  exists sol, build_2d_solution self lines' = Ok sol /\
              calculate_residual self sol lines' = Ok residual'.
Proof.
  intros Hmask Hany Hpass.
  destruct (reject_outlier_step _ _ _ Hmask Hany)
    as (ibad & l & r & Hl & Hf & Hr & Hmax & Hrej & Hcount).
  unfold reject_pass in Hpass. rewrite Hrej in Hpass. simpl in Hpass.
  apply bind_Ok in Hpass as (sol & Hsol & Hpass).
  apply bind_Ok in Hpass as (res & Hres & Hpass).
  injection Hpass as <- <-. split; [done|]. split; [by rewrite length_insert|].
  eauto.
Qed.

(** With as many passes as there are flagged lines the loop never stops for
    lack of passes, and more passes change nothing. *)
Lemma reject_loop_terminates self fuel lines residual nbad :
  mask_of_flags residual lines ->
  (count_flagged lines <= fuel)%nat ->
  exists out,
    reject_loop self fuel lines residual nbad = Some out /\
    reject_loop self (count_flagged lines) lines residual nbad = Some out /\
    forall lines' res n, out = Ok (lines', res, n) ->
      (count_flagged lines' + n = count_flagged lines + nbad)%nat /\
      length lines' = length lines.
Proof.
  revert lines residual nbad.
  induction fuel as [|fuel IH]; intros lines residual nbad Hmask Hfuel.
  - assert (Hany : ma_any_gt (ma_abs residual) (threshold self) = false).
    { destruct (ma_any_gt _ _) eqn:Hany; [|done].
      destruct (reject_outlier_step _ _ _ Hmask Hany) as (?&?&?&?&?&?&?&?&?). lia. }
    exists (Ok (lines, residual, nbad)).
    assert (Hc : (count_flagged lines = 0)%nat) by lia.
    rewrite Hc. simpl. rewrite Hany. split; [done|]. split; [done|].
    intros ? ? ? [= <- <- <-]. split; [lia|done].
  - destruct (ma_any_gt (ma_abs residual) (threshold self)) eqn:Hany.
    + destruct (reject_outlier_step _ _ _ Hmask Hany)
        as (ibad & l & r & Hl & Hf & Hr & Hmax & Hrej & Hcount).
      destruct (count_flagged lines) as [|c] eqn:Hc; [lia|].
      simpl. rewrite Hany.
      destruct (reject_pass self lines residual) as [[lines1 res1]|e] eqn:Hpass.
      * destruct (reject_pass_Ok _ _ _ _ _ Hmask Hany Hpass)
          as (Hc1 & Hlen1 & sol1 & Hsol1 & Hres1).
        apply calculate_residual_mask in Hres1.
        destruct (IH lines1 res1 (S nbad) Hres1) as (out & Hout & Hout' & Hprop); [lia|].
        exists out. split; [done|]. split.
        -- by replace c with (count_flagged lines1) by lia.
        -- intros lines' res n ->. destruct (Hprop _ _ _ eq_refl). split; lia.
      * exists (Raise e). split; [done|]. split; [done|]. intros; discriminate.
    + exists (Ok (lines, residual, nbad)).
      destruct (count_flagged lines) eqn:Hc; simpl; rewrite Hany;
        (split; [done|]); (split; [done|]); intros ? ? ? [= <- <- <-];
        (split; [lia|done]).
Qed.

Lemma reject_lines_fuel_terminates self fuel lines :
  (count_flagged lines <= fuel)%nat ->
  exists out,
    reject_lines_fuel self fuel lines = Some out /\
    reject_lines_fuel self (count_flagged lines) lines = Some out /\
    forall lines' res n, out = Ok (lines', res, n) ->
      (count_flagged lines' + n = count_flagged lines)%nat /\
      length lines' = length lines.
Proof.
  intros Hfuel. unfold reject_lines_fuel.
  destruct (build_2d_solution self lines ≫= _) as [residual|e] eqn:Hres.
  - apply bind_Ok in Hres as (sol & _ & Hres).
    apply calculate_residual_mask in Hres.
    destruct (reject_loop_terminates self fuel lines residual 0 Hres Hfuel)
      as (out & H1 & H2 & H3).
    exists out. split; [done|]. split; [done|].
    intros lines' res n ->. destruct (H3 _ _ _ eq_refl). split; [lia|done].
  - exists (Raise e). split; [done|]. split; [done|]. intros; discriminate.
Qed.

(** On exit of the loop the residuals are those of the solution rebuilt
    from the lines as they are returned, and none exceeds the threshold. *)
Lemma reject_loop_invariant self fuel lines residual nbad lines' res n :
  (exists sol, build_2d_solution self lines = Ok sol /\
               calculate_residual self sol lines = Ok residual) ->
  reject_loop self fuel lines residual nbad = Some (Ok (lines', res, n)) ->
  (exists sol, build_2d_solution self lines' = Ok sol /\
               calculate_residual self sol lines' = Ok res) /\
  ma_any_gt (ma_abs res) (threshold self) = false.
Proof.
  revert lines residual nbad.
  induction fuel as [|fuel IH]; intros lines residual nbad Hinv; simpl;
    destruct (ma_any_gt (ma_abs residual) (threshold self)) eqn:Hany; try done.
  - by intros [= <- <- <-].
  - destruct (reject_pass self lines residual) as [[lines1 res1]|e] eqn:Hpass; [|done].
    destruct Hinv as (sol & _ & Hres).
    apply calculate_residual_mask in Hres.
    destruct (reject_pass_Ok _ _ _ _ _ Hres Hany Hpass) as (_ & _ & Hinv1).
    by apply IH.
  - by intros [= <- <- <-].
Qed.

Lemma reject_lines_fuel_invariant self fuel lines lines' res n :
  reject_lines_fuel self fuel lines = Some (Ok (lines', res, n)) ->
  (exists sol, build_2d_solution self lines' = Ok sol /\
               calculate_residual self sol lines' = Ok res) /\
  ma_any_gt (ma_abs res) (threshold self) = false.
Proof.
  unfold reject_lines_fuel.
  destruct (build_2d_solution self lines ≫= _) as [residual|e] eqn:Hres; [|done].
  apply bind_Ok in Hres as (sol & Hsol & Hres).
  apply reject_loop_invariant. eauto.
Qed.

Lemma reject_lines_fuel_converged self fuel lines sol residual :
  build_2d_solution self lines = Ok sol ->
  calculate_residual self sol lines = Ok residual ->
  ma_any_gt (ma_abs residual) (threshold self) = false ->
  reject_lines_fuel self fuel lines = Some (Ok (lines, residual, 0%nat)).
Proof.
  intros Hsol Hres Hany. unfold reject_lines_fuel. rewrite Hsol. simpl.
  rewrite Hres. destruct fuel; simpl; by rewrite Hany.
Qed.

(** C4.  [reject_lines] terminates: on a list of [n] lines the loop stops
    (by returning or by raising) within [n] passes, whatever larger bound
    is allowed, and the counter [nbad] of passes is the number of flags
    removed.  Each pass, taken in a state where some residual exceeds the
    threshold, removes the flag of exactly one flagged line, the one with
    the largest absolute residual, so the count of flagged lines drops
    by one. *)
Theorem C4_reject_lines_terminates self lines :
  (exists out,
     reject_lines self lines = Some out /\
     (forall fuel, (length lines <= fuel)%nat ->
        reject_lines_fuel self fuel lines = Some out) /\
     forall lines' res nbad, out = Ok (lines', res, nbad) ->
       (nbad <= length lines)%nat /\
       (count_flagged lines' + nbad = count_flagged lines)%nat) /\
  (forall sol residual,
     calculate_residual self sol lines = Ok residual ->
     ma_any_gt (ma_abs residual) (threshold self) = true ->
     exists ibad l r,
       lines !! ibad = Some l /\ flag l = true /\
       residual !! ibad = Some (Some r) /\
       (forall j rj, residual !! j = Some (Some rj) -> Qabs rj <= Qabs r) /\
       reject_outlier residual lines = Ok (<[ibad := set_flag false l]> lines) /\
       (count_flagged (<[ibad := set_flag false l]> lines) + 1
        = count_flagged lines)%nat).
Proof.
  split.
  - pose proof (count_flagged_le lines) as Hle.
    destruct (reject_lines_fuel_terminates self (length lines) lines Hle)
      as (out & H1 & H2 & H3).
    exists out. split; [done|]. split.
    + intros fuel Hfuel.
      destruct (reject_lines_fuel_terminates self fuel lines) as (out' & H1' & H2' & _);
        [lia|].
      congruence.
    + intros lines' res nbad ->. destruct (H3 _ _ _ eq_refl). split; lia.
  - intros sol residual Hres Hany.
    apply calculate_residual_mask in Hres.
    by apply (reject_outlier_step _ _ (threshold self)).
Qed.

Lemma flags_cleared_refl lines : flags_cleared lines lines.
Proof. split; [done|]. intros i l l' H1 H2. left. congruence. Qed.

Lemma flags_cleared_trans lines1 lines2 lines3 :
  flags_cleared lines1 lines2 -> flags_cleared lines2 lines3 ->
  flags_cleared lines1 lines3.
Proof.
  intros [Hl12 H12] [Hl23 H23]. split; [congruence|].
  intros i l1 l3 H1 H3.
  assert (Hi : exists l2, lines2 !! i = Some l2).
  { apply lookup_lt_is_Some. rewrite Hl12. by eapply lookup_lt_Some. }
  destruct Hi as [l2 H2].
  destruct (H12 i l1 l2 H1 H2) as [->|[Hf ->]];
    destruct (H23 i _ l3 H2 H3) as [->|[Hf' ->]]; auto.
Qed.

Lemma flags_cleared_insert lines (k : nat) l :
  lines !! k = Some l -> flag l = true ->
  flags_cleared lines (<[k := set_flag false l]> lines).
Proof.
  intros Hl Hf. split; [by rewrite length_insert|].
  intros i l0 l' H0 H'. destruct (decide (i = k)) as [->|Hne].
  - rewrite list_lookup_insert_eq in H' by (by eapply lookup_lt_Some).
    right. split; congruence.
  - rewrite list_lookup_insert_ne in H' by done. left. congruence.
Qed.

Lemma reject_pass_cleared self lines residual lines' residual' :
  mask_of_flags residual lines ->
  ma_any_gt (ma_abs residual) (threshold self) = true ->
  reject_pass self lines residual = Ok (lines', residual') ->
  flags_cleared lines lines'.
Proof.
  intros Hmask Hany Hpass.
  destruct (reject_outlier_step _ _ _ Hmask Hany)
    as (ibad & l & r & Hl & Hf & Hr & Hmax & Hrej & Hcount).
  unfold reject_pass in Hpass. rewrite Hrej in Hpass. simpl in Hpass.
  apply bind_Ok in Hpass as (sol & Hsol & Hpass).
  apply bind_Ok in Hpass as (res & Hres & Hpass).
  injection Hpass as <- <-. by apply flags_cleared_insert.
Qed.

Lemma reject_loop_cleared self fuel lines residual nbad lines' res n :
  (exists sol, build_2d_solution self lines = Ok sol /\
               calculate_residual self sol lines = Ok residual) ->
  reject_loop self fuel lines residual nbad = Some (Ok (lines', res, n)) ->
  flags_cleared lines lines'.
Proof.
  revert lines residual nbad.
  induction fuel as [|fuel IH]; intros lines residual nbad Hinv; simpl;
    destruct (ma_any_gt (ma_abs residual) (threshold self)) eqn:Hany; try done.
  - intros [= <- <- <-]. apply flags_cleared_refl.
  - destruct (reject_pass self lines residual) as [[lines1 res1]|e] eqn:Hpass; [|done].
    destruct Hinv as (sol & _ & Hres).
    apply calculate_residual_mask in Hres.
    destruct (reject_pass_Ok _ _ _ _ _ Hres Hany Hpass) as (_ & _ & Hinv1).
    intros Hrun. eapply flags_cleared_trans.
    + by eapply reject_pass_cleared.
    + by eapply IH.
  - intros [= <- <- <-]. apply flags_cleared_refl.
Qed.

Lemma reject_lines_cleared self lines lines' res n :
  reject_lines self lines = Some (Ok (lines', res, n)) -> flags_cleared lines lines'.
Proof.
  unfold reject_lines, reject_lines_fuel.
  destruct (build_2d_solution self lines ≫= _) as [residual|e] eqn:Hres; [|done].
  apply bind_Ok in Hres as (sol & Hsol & Hres).
  apply reject_loop_cleared. eauto.
Qed.

(** C1 (as amended).  For a line list whose flagged lines have a catalogue
    wavelength that is not zero: when [reject_lines] returns, the solution
    rebuilt from the lines that are still flagged exists, and under it
    every flagged line, whose wavelength is not zero either, has an
    absolute velocity residual at most the threshold. *)
Theorem C1_residual_bound self lines lines' res nbad :
  (forall l, l ∈ lines -> flag l = true -> ~ wll l == 0) ->
  reject_lines self lines = Some (Ok (lines', res, nbad)) ->
  exists sol wave,
    build_2d_solution self lines' = Ok sol /\
    evaluate_solution self (posm <$> lines') (order <$> lines') sol = Ok wave /\
    forall i l, lines' !! i = Some l -> flag l = true ->
      ~ wll l == 0 /\
      exists w, wave !! i = Some w /\
        Qabs ((w - wll l) / wll l * speed_of_light) <= threshold self.
Proof.
  intros Hwll Hrun.
  pose proof (reject_lines_cleared _ _ _ _ _ Hrun) as [Hsame Hcleared].
  apply reject_lines_fuel_invariant in Hrun as [(sol & Hsol & Hres) Hany].
  apply calculate_residual_Ok in Hres as (wave & Hwave & Hlen & ->).
  exists sol, wave. split; [done|]. split; [done|].
  intros i l Hl Hf. split.
  - destruct (lookup_lt_is_Some_2 lines i) as [l0 Hl0];
      [rewrite <- Hsame; by apply lookup_lt_Some in Hl|].
    destruct (Hcleared i l0 l Hl0 Hl) as [->|[_ ->]]; [|done].
    apply Hwll; [by eapply list_elem_of_lookup_2|done].
  - assert (Hi : (i < length wave)%nat) by (rewrite Hlen; by apply lookup_lt_Some in Hl).
    destruct (lookup_lt_is_Some_2 wave i Hi) as [w Hw].
    exists w. split; [done|].
    rewrite ma_any_gt_false in Hany. apply (Hany i).
    rewrite ma_abs_lookup, lookup_zip_with, Hw, Hl. simpl. by rewrite Hf.
Qed.

(** C9.  If no flagged line has a residual above the threshold under the
    solution built from the flagged lines, [reject_lines] returns the line
    list as it received it, after no pass of the loop. *)
Theorem C9_reject_lines_idempotent self lines sol residual :
  build_2d_solution self lines = Ok sol ->
  calculate_residual self sol lines = Ok residual ->
  (forall i r, residual !! i = Some (Some r) -> Qabs r <= threshold self) ->
  reject_lines self lines = Some (Ok (lines, residual, 0%nat)).
Proof.
  intros Hsol Hres Hconv.
  apply (reject_lines_fuel_converged _ _ _ sol); [done|done|].
  apply ma_any_gt_false. intros j v Hj.
  rewrite ma_abs_lookup in Hj.
  destruct (residual !! j) as [[r|]|] eqn:Hr; simpl in Hj; try done.
  injection Hj as <-. by apply (Hconv j).
Qed.

(** Running [reject_lines] on its own result changes nothing. *)
Corollary reject_lines_twice self lines lines' res nbad :
  reject_lines self lines = Some (Ok (lines', res, nbad)) ->
  reject_lines self lines' = Some (Ok (lines', res, 0%nat)).
Proof.
  intros Hrun. apply reject_lines_fuel_invariant in Hrun as [(sol & Hsol & Hres) Hany].
  by apply (reject_lines_fuel_converged _ _ _ sol).
Qed.

(** *** Mode counting *)

Lemma add_from_lookup v j (n : list Z) k :
  add_from v j n !! k =
  if decide (k <= j)%nat then n !! k else Z.add v <$> n !! k.
Proof.
  unfold add_from. destruct (decide (k <= j)%nat) as [Hle|Hgt].
  - destruct (decide (k < length n)%nat) as [Hlt|Hge].
    + rewrite lookup_app_l by (rewrite length_take; lia).
      apply lookup_take_lt. lia.
    + rewrite (lookup_ge_None_2 n k) by lia.
      apply lookup_ge_None_2. rewrite length_app, length_take, length_fmap, length_drop.
      lia.
  - destruct (decide (S j <= length n)%nat) as [Hlt|Hge].
    + rewrite lookup_app_r by (rewrite length_take; lia).
      rewrite length_take, Nat.min_l by lia.
      rewrite list_lookup_fmap, lookup_drop. f_equal. f_equal. lia.
    + rewrite (lookup_ge_None_2 n k) by lia.
      apply lookup_ge_None_2. rewrite length_app, length_take, length_fmap, length_drop.
      lia.
Qed.

Lemma np_where_snoc (cond : list bool) b :
  np_where (cond ++ [b]) = np_where cond ++ (if b then [length cond] else []).
Proof.
  unfold np_where. rewrite length_app, seq_app. simpl.
  rewrite zip_with_app by (by rewrite length_seq).
  rewrite filter_app, fmap_app. f_equal.
  simpl. destruct b; by rewrite ?filter_cons_True, ?filter_cons_False by (simpl; congruence).
Qed.

Lemma count_true_fmap (p : Z -> bool) ds : count_true (p <$> ds) = count_gaps p ds.
Proof.
  unfold count_true, count_gaps. induction ds as [|d ds IH]; [done|].
  rewrite fmap_cons. destruct (p d) eqn:Hp.
  - rewrite !filter_cons_True by done. simpl. by rewrite IH.
  - rewrite !filter_cons_False by congruence. done.
Qed.

Lemma count_true_snoc cond b :
  count_true (cond ++ [b]) = (count_true cond + if b then 1 else 0)%nat.
Proof.
  unfold count_true. rewrite filter_app, length_app. f_equal.
  destruct b; by rewrite ?filter_cons_True, ?filter_cons_False by congruence.
Qed.

(** Adding [v] after every marked gap adds, at index [k], [v] times the
    number of marked gaps before [k]. *)
Lemma foldl_add_from_lookup v (cond : list bool) (n : list Z) k :
  foldl (fun n j => add_from v j n) n (np_where cond) !! k =
  (fun x => (x + v * Z.of_nat (count_true (take k cond)))%Z) <$> n !! k.
Proof.
  induction cond as [|b cond IH] using rev_ind.
  - rewrite take_nil. change (count_true []) with 0%nat. simpl.
    destruct (n !! k); simpl; f_equal; lia.
  - rewrite np_where_snoc, foldl_app.
    destruct (decide (k <= length cond)%nat) as [Hle|Hgt].
    + rewrite take_app_le by done.
      destruct b; simpl; [|done].
      rewrite add_from_lookup, decide_True by done. done.
    + rewrite take_ge by (rewrite length_app; simpl; lia).
      rewrite take_ge in IH by lia.
      rewrite count_true_snoc.
      destruct b; simpl.
      * rewrite add_from_lookup, decide_False by done. rewrite IH.
        destruct (n !! k); simpl; f_equal; lia.
      * rewrite IH. destruct (n !! k); simpl; f_equal; lia.
Qed.

Lemma length_foldl_add_from v (js : list nat) (n : list Z) :
  length (foldl (fun n j => add_from v j n) n js) = length n.
Proof.
  revert n. induction js as [|j js IH]; intros n; simpl; [done|].
  rewrite IH. unfold add_from.
  rewrite length_app, length_take, length_fmap, length_drop. lia.
Qed.

Lemma mode_index_closed (peaks : list Z) :
  mode_index peaks =
  (fun k => (Z.of_nat k
             + Z.of_nat (count_gaps (gap_missed (np_median (inject_Z <$> np_diff peaks)))
                           (take k (np_diff peaks)))
             - Z.of_nat (count_gaps (gap_double (np_median (inject_Z <$> np_diff peaks)))
                           (take k (np_diff peaks))))%Z)
    <$> seq 0 (length peaks).
Proof.
  apply list_eq. intros k. unfold mode_index.
  rewrite foldl_add_from_lookup, foldl_add_from_lookup.
  rewrite !list_lookup_fmap.
  rewrite <- !fmap_take, !count_true_fmap.
  destruct (seq 0 (length peaks) !! k) as [k'|] eqn:Hk; [|done].
  apply lookup_seq in Hk as [-> _]. simpl. f_equal. lia.
Qed.

(** The mode indices [_find_peaks] returns are [mode_index] of the peaks of
    its second search. *)
Lemma find_peaks_mode_index self (comb : marray) (n : list Z) (new_peaks : list Q) :
  _find_peaks self comb = Ok (n, new_peaks) ->
  exists first peaks : list nat,
    signal_find_peaks (comb_shifted comb) (np_median (ma_compressed (comb_shifted comb)))
      None (Some (lfc_peak_width self)) = Ok first /\
    signal_find_peaks (comb_shifted comb) (np_median (ma_compressed (comb_shifted comb)))
      (Some ((fun m => Qfloordiv m 4)
               <$> np_median (inject_Z <$> np_diff (Z.of_nat <$> first))))
      (Some (lfc_peak_width self)) = Ok peaks /\
    n = mode_index (Z.of_nat <$> peaks).
Proof.
  unfold _find_peaks. intros H.
  destruct (length comb =? 0)%nat; [done|].
  apply bind_Ok in H as (first & Hfirst & H).
  apply bind_Ok in H as (peaks & Hpeaks & H).
  apply bind_Ok in H as (np & _ & H).
  injection H as <- _. by exists first, peaks.
Qed.

(** C5.  When [_find_peaks] returns, the mode indices [n] it returns count
    the peaks of its second search from 0, the index of peak [k] raised by
    one for every gap before it that exceeds 1.5 times the median gap and
    lowered by one for every gap before it that is below 0.5 times the
    median gap.  For peaks 10 px apart with one gap of 21 px and one double
    4 px after its neighbour the index jumps by two across the long gap and
    repeats at the double. *)
Theorem C5_mode_index_counting self (comb : marray) (n : list Z) (new_peaks : list Q) :
  _find_peaks self comb = Ok (n, new_peaks) ->
  exists first peaks : list nat,
    signal_find_peaks (comb_shifted comb) (np_median (ma_compressed (comb_shifted comb)))
      None (Some (lfc_peak_width self)) = Ok first /\
    signal_find_peaks (comb_shifted comb) (np_median (ma_compressed (comb_shifted comb)))
      (Some ((fun m => Qfloordiv m 4)
               <$> np_median (inject_Z <$> np_diff (Z.of_nat <$> first))))
      (Some (lfc_peak_width self)) = Ok peaks /\
    (let diff := np_diff (Z.of_nat <$> peaks) in
     let med := np_median (inject_Z <$> diff) in
     n = (fun k => (Z.of_nat k
                    + Z.of_nat (count_gaps (gap_missed med) (take k diff))
                    - Z.of_nat (count_gaps (gap_double med) (take k diff)))%Z)
           <$> seq 0 (length peaks)) /\
    (Z.of_nat <$> peaks = [5; 15; 25; 35; 56; 66; 76; 80; 86; 96]%Z ->
     n = [0; 1; 2; 3; 5; 6; 7; 7; 8; 9]%Z).
Proof.
  intros (first & peaks & Hfirst & Hpeaks & ->)%find_peaks_mode_index.
  exists first, peaks. split; [done|]. split; [done|]. split.
  - cbv zeta. by rewrite mode_index_closed, length_fmap.
  - intros ->. by vm_compute.
Qed.

(** *** Automatic identification *)

Lemma py_index_nat {A} (a : list A) (k : nat) v :
  py_index a (Z.of_nat k) = Ok v <-> a !! k = Some v.
Proof.
  unfold py_index.
  replace (Z.of_nat k <? 0)%Z with false by (symmetry; apply Z.ltb_ge; lia).
  rewrite Nat2Z.id.
  destruct (a !! k) as [x|] eqn:Hk.
  - apply lookup_lt_Some in Hk as Hlt.
    replace ((0 <=? Z.of_nat k) && (Z.of_nat k <? Z.of_nat (length a)))%Z with true.
    + split; congruence.
    + symmetry. apply andb_true_iff. split; [apply Z.leb_le|apply Z.ltb_lt]; lia.
  - destruct (_ && _); split; congruence.
Qed.

Lemma py_slice_lookup {A} (a : list A) (lo hi : Z) (k : nat) v :
  (0 <= lo)%Z -> py_slice a lo hi !! k = Some v -> a !! (Z.to_nat lo + k)%nat = Some v.
Proof.
  intros Hlo. unfold py_slice, slice_bound.
  replace (lo <? 0)%Z with false by (symmetry; apply Z.ltb_ge; lia).
  intros H. apply lookup_take_Some in H as [H _].
  rewrite lookup_drop in H.
  destruct (decide (Z.to_nat lo <= length a)%nat) as [Hle|Hgt].
  - by rewrite Nat.min_l in H by done.
  - apply lookup_lt_Some in H. lia.
Qed.

Lemma take_indices_lookup {A} (a : list A) (idx : list Z) vs (k : nat) (z : Z) v :
  take_indices a idx = Ok vs -> idx !! k = Some z -> vs !! k = Some v ->
  py_index a z = Ok v.
Proof.
  revert vs k. induction idx as [|j idx IH]; intros vs k H Hi Hv; [done|].
  simpl in H. apply bind_Ok in H as (x & Hx & H).
  apply bind_Ok in H as (xs & Hxs & H). injection H as <-.
  destruct k as [|k]; simpl in *.
  - congruence.
  - by apply (IH xs k).
Qed.

Lemma take_indices_length {A} (a : list A) (idx : list Z) vs :
  take_indices a idx = Ok vs -> length vs = length idx.
Proof.
  revert vs. induction idx as [|j idx IH]; intros vs H; simpl in H.
  - by injection H as <-.
  - apply bind_Ok in H as (x & Hx & H).
    apply bind_Ok in H as (xs & Hxs & H). injection H as <-.
    simpl. f_equal. by apply IH.
Qed.

Lemma argbest_from_spec (R : Q -> Q -> Prop) (better : Q -> Q -> bool)
    (l pre : list Q) besti best :
  (forall a, R a a) -> (forall a b c, R a b -> R b c -> R a c) ->
  (forall x b, better x b = true -> R x b) ->
  (forall x b, better x b = false -> R b x) ->
  pre !! besti = Some best ->
  (forall j v, pre !! j = Some v -> R best v) ->
  exists b, (pre ++ l) !! argbest_from better l (length pre) besti best = Some b /\
    forall j v, (pre ++ l) !! j = Some v -> R b v.
Proof.
  intros Hrefl Htrans Htrue Hfalse. revert pre besti best.
  induction l as [|x l IH]; intros pre besti best Hbest Hall; simpl.
  - rewrite app_nil_r. eauto.
  - assert (Hlen : length (pre ++ [x]) = S (length pre))
      by (rewrite length_app; simpl; lia).
    assert (Happ : pre ++ x :: l = (pre ++ [x]) ++ l) by (by rewrite <- app_assoc).
    rewrite Happ, <- Hlen.
    destruct (better x best) eqn:Hb; apply IH.
    + rewrite lookup_app_r by lia. by rewrite Nat.sub_diag.
    + intros j v Hj. destruct (decide (j < length pre)%nat) as [Hlt|Hge].
      * rewrite lookup_app_l in Hj by done. eauto.
      * rewrite lookup_app_r in Hj by lia.
        destruct (j - length pre)%nat; simpl in Hj; [|done].
        injection Hj as ->. apply Hrefl.
    + apply lookup_lt_Some in Hbest as Hlt. by rewrite lookup_app_l.
    + intros j v Hj. destruct (decide (j < length pre)%nat) as [Hlt|Hge].
      * rewrite lookup_app_l in Hj by done. eauto.
      * rewrite lookup_app_r in Hj by lia.
        destruct (j - length pre)%nat; simpl in Hj; [|done].
        injection Hj as ->. eauto.
Qed.

(** [np.argmin] returns the index of a smallest element. *)
Lemma np_argmin_spec (a : list Q) k :
  np_argmin a = Ok k ->
  exists r, a !! k = Some r /\ forall j rj, a !! j = Some rj -> r <= rj.
Proof.
  destruct a as [|x l]; [done|]. simpl. intros [= <-].
  apply (argbest_from_spec Qle (fun a b => Qltb a b) l [x] 0%nat x).
  - apply Qle_refl.
  - apply Qle_trans.
  - intros a b H. apply Qltb_lt in H. by apply Qlt_le_weak.
  - intros a b H. by apply Qltb_ge in H.
  - done.
  - intros [|j] v Hj; simpl in Hj; [|done]. injection Hj as ->. apply Qle_refl.
Qed.

(** The residual of every candidate is the velocity residual of the line at
    the pixel [low + peak]. *)
Lemma auto_id_peaks_Some self obs wave_img l low (peaks : list nat) (residual : list Q) :
  auto_id_peaks self obs wave_img l = Ok (Some (low, peaks, residual)) ->
  (0 <= low)%Z /\
  exists wave,
    py_index wave_img (order l) = Ok wave /\
    forall (k p : nat) r, peaks !! k = Some p -> residual !! k = Some r ->
      exists w, py_index wave (low + Z.of_nat p) = Ok w /\
                r = Qabs (wll l - w) / wll l * speed_of_light.
Proof.
  unfold auto_id_peaks. intros H.
  destruct (_ || _)%Z; [done|].
  apply bind_Ok in H as (wave & Hwave & H).
  apply bind_Ok in H as (w_first & _ & H).
  apply bind_Ok in H as (w_last & _ & H).
  destruct (_ || _); [done|].
  apply bind_Ok in H as (order_obs & _ & H).
  apply bind_Ok in H as (idx & _ & H).
  set (lo := Z.max _ 0) in H. set (hi := Z.min _ _) in H.
  destruct (ma_all_masked _); [done|].
  apply bind_Ok in H as (peak_idx & _ & H).
  destruct (0 <? length peak_idx)%nat; [|done].
  apply bind_Ok in H as (pos_wave & Hpos & H).
  destruct (Qeq_bool (wll l) 0); [done|].
  injection H as <- <- <-. split; [lia|]. exists wave. split; [done|].
  intros k p r Hp Hr. rewrite list_lookup_fmap in Hr.
  destruct (pos_wave !! k) as [w|] eqn:Hw; [|done].
  simpl in Hr. injection Hr as <-. exists w. split; [|done].
  assert (Hslice : py_index (py_slice wave lo hi) (Z.of_nat p) = Ok w).
  { apply (take_indices_lookup _ _ _ k _ _ Hpos); [|done].
    by rewrite list_lookup_fmap, Hp. }
  apply py_index_nat, py_slice_lookup in Hslice; [|lia].
  replace (lo + Z.of_nat p)%Z with (Z.of_nat (Z.to_nat lo + p)) by lia.
  by apply py_index_nat.
Qed.

(** A line comes out of the loop body as it went in, or newly flagged at
    the candidate peak of smallest residual, which is below the threshold. *)
Lemma auto_id_line_cases self obs wave_img l l' :
  auto_id_line self obs wave_img l = Ok l' ->
  l' = l \/
  (flag l = false /\
   exists low (peaks : list nat) (residual : list Q) (k p : nat) r,
     auto_id_peaks self obs wave_img l = Ok (Some (low, peaks, residual)) /\
     peaks !! k = Some p /\ residual !! k = Some r /\
     (forall j rj, residual !! j = Some rj -> r <= rj) /\
     r < threshold self /\
     l' = set_posm (inject_Z (low + Z.of_nat p)) (set_flag true l)).
Proof.
  unfold auto_id_line. intros H.
  destruct (flag l) eqn:Hf; [left; congruence|].
  apply bind_Ok in H as ([[[low peaks] residual]|] & Hc & H); [|left; congruence].
  apply bind_Ok in H as (k & Hk & H).
  apply bind_Ok in H as (r & Hr & H).
  destruct (Qltb r (threshold self)) eqn:Hlt; [|left; congruence].
  apply bind_Ok in H as (p & Hp & H). injection H as <-.
  right. split; [done|].
  apply py_index_nat in Hr, Hp.
  destruct (np_argmin_spec _ _ Hk) as (r' & Hr' & Hmin).
  assert (r' = r) as -> by congruence.
  exists low, peaks, residual, k, p, r.
  repeat (split; [done|]). split; [by apply Qltb_lt|done].
Qed.

Lemma auto_id_loop_lookup self obs wave_img lines lines' :
  auto_id_loop self obs wave_img lines = Ok lines' ->
  length lines' = length lines /\
  forall i l l', lines !! i = Some l -> lines' !! i = Some l' ->
    auto_id_line self obs wave_img l = Ok l'.
Proof.
  revert lines'. induction lines as [|x lines IH]; intros lines' H; simpl in H.
  - injection H as <-. done.
  - apply bind_Ok in H as (x' & Hx & H).
    apply bind_Ok in H as (ls' & Hls & H). injection H as <-.
    destruct (IH ls' Hls) as [Hlen Hall]. split; [simpl; by rewrite Hlen|].
    intros [|i] l l' Hl Hl'; simpl in *.
    + congruence.
    + by apply (Hall i).
Qed.

(** C3.  [auto_id] leaves a line that was flagged as it is.  A line whose
    flag goes from False to True has, at the peak it is given, an absolute
    velocity residual strictly below the threshold; that peak is the
    candidate of smallest residual and [posm] is its pixel index.  A line
    that comes out unflagged is unchanged, and so is every unflagged line
    none of whose candidate peaks is below the threshold. *)
Theorem C3_auto_id_sound self obs wave_img lines lines' :
  auto_id self obs wave_img lines = Ok lines' ->
  length lines' = length lines /\
  forall i l l', lines !! i = Some l -> lines' !! i = Some l' ->
    (flag l = true -> l' = l) /\
    (flag l' = false -> l' = l) /\
    (flag l = false -> flag l' = true ->
       exists (p : Z) wave w,
         py_index wave_img (order l) = Ok wave /\
         (0 <= p)%Z /\ py_index wave p = Ok w /\
         Qabs (wll l - w) / wll l * speed_of_light < threshold self /\
         l' = set_posm (inject_Z p) (set_flag true l) /\
         exists low (peaks : list nat) (residual : list Q) (k p0 : nat),
           auto_id_peaks self obs wave_img l = Ok (Some (low, peaks, residual)) /\
           peaks !! k = Some p0 /\ p = (low + Z.of_nat p0)%Z /\
           residual !! k = Some (Qabs (wll l - w) / wll l * speed_of_light) /\
           forall j rj, residual !! j = Some rj ->
             Qabs (wll l - w) / wll l * speed_of_light <= rj) /\
    (flag l = false ->
       forall low (peaks : list nat) (residual : list Q),
         auto_id_peaks self obs wave_img l = Ok (Some (low, peaks, residual)) ->
         (forall j rj, residual !! j = Some rj -> threshold self <= rj) ->
         l' = l).
Proof.
  intros H. apply auto_id_loop_lookup in H as [Hlen Hall]. split; [done|].
  intros i l l' Hl Hl'.
  destruct (auto_id_line_cases _ _ _ _ _ (Hall i l l' Hl Hl'))
    as [->|(Hf & low & peaks & residual & k & p & r & Hc & Hp & Hr & Hmin & Hlt & ->)].
  - repeat split; try done. intros Hf Hf'. congruence.
  - split; [congruence|]. split; [done|]. split.
    + intros _ _.
      destruct (auto_id_peaks_Some _ _ _ _ _ _ _ Hc) as (Hlow & wave & Hwave & Hres).
      destruct (Hres k p r Hp Hr) as (w & Hw & ->).
      exists (low + Z.of_nat p)%Z, wave, w.
      repeat (split; [done || lia|]).
      exists low, peaks, residual, k, p. done.
    + intros _ low' peaks' residual' Hc' Hge. exfalso.
      rewrite Hc in Hc'. injection Hc' as <- <- <-.
      apply (Qlt_not_le r (threshold self)); [done|]. by apply (Hge k).
Qed.

(** *** Solution builder *)

Lemma for_each_raise {A S} (body : S -> A -> result S) (xs : list A) (s : S) e x :
  (forall s y, (exists s', body s y = Ok s') \/ body s y = Raise e) ->
  x ∈ xs -> (forall s, body s x = Raise e) ->
  for_each body xs s = Raise e.
Proof.
  intros Hbody Hin Hx. revert s.
  induction xs as [|y xs IH]; intros s; [by apply elem_of_nil in Hin|].
  simpl. apply elem_of_cons in Hin as [->|Hin].
  - by rewrite Hx.
  - destruct (Hbody s y) as [[s' ->]| ->]; simpl; [by apply IH|done].
Qed.




Lemma for_each_all_Ok {A S} (body : S -> A -> result S) (xs : list A) (s : S) :
  (forall s x, x ∈ xs -> exists s', body s x = Ok s') ->
  exists s', for_each body xs s = Ok s'.
Proof.
  revert s. induction xs as [|x xs IH]; intros s Hbody; simpl; [eauto|].
  destruct (Hbody s x) as [s1 ->]; [left|]. simpl.
  apply IH. intros s2 y Hy. apply Hbody. by right.
Qed.


(** *** Feature localization *)

Lemma ma_compressed_all_masked (a : marray) :
  ma_all_masked a = true -> ma_compressed a = [].
Proof.
  unfold ma_all_masked, ma_compressed.
  induction a as [|[v|] a IH]; simpl; done.
Qed.

Lemma gaussfit2_all_masked (x section : marray) :
  ma_all_masked section = true -> gaussfit2 x section = Raise ValueError.
Proof.
  intros H. unfold gaussfit2. rewrite (ma_compressed_all_masked section H).
  simpl. by rewrite orb_true_r.
Qed.

Lemma ma_masked_array_cases (x : list Q) (m : list bool) :
  (exists a, ma_masked_array x m = Ok a) \/ ma_masked_array x m = Raise MaskError.
Proof.
  unfold ma_masked_array. destruct (decide _); [left; eauto|].
  destruct m as [|b [|b' m]]; [by right|left; eauto|by right].
Qed.

Lemma fit_window_cases (obs : list marray) l :
  (exists w, fit_window obs l = Ok w) \/ fit_window obs l = Raise MaskError.
Proof.
  unfold fit_window.
  match goal with
  | |- context [ma_masked_array ?x ?m] =>
      destruct (ma_masked_array_cases x m) as [[a ->]| ->]
  end; [left; simpl; eauto|by right].
Qed.

Lemma py_int_nonneg (q : Q) : 0 <= q -> (0 <= py_int q)%Z.
Proof.
  intros Hq. unfold py_int. apply Qle_bool_iff in Hq. rewrite Hq.
  apply Qle_bool_iff in Hq. change 0%Z with (Qfloor 0). by apply Qfloor_resp_le.
Qed.

Lemma length_py_slice {A} (a : list A) (lo hi : Z) :
  (0 <= lo)%Z -> (0 <= hi <= Z.of_nat (length a))%Z ->
  length (py_slice a lo hi) = Z.to_nat (hi - lo).
Proof.
  intros Hlo Hhi. unfold py_slice, slice_bound.
  replace (lo <? 0)%Z with false by (symmetry; apply Z.ltb_ge; lia).
  replace (hi <? 0)%Z with false by (symmetry; apply Z.ltb_ge; lia).
  rewrite length_take, length_drop. lia.
Qed.

(** With a width that is not negative the window is well formed. *)
Lemma fit_window_width (obs : list marray) l :
  outside_image obs l = false -> 0 <= width l -> exists w, fit_window obs l = Ok w.
Proof.
  unfold outside_image. intros Hout Hw.
  apply orb_false_iff in Hout as [Hpix _]. apply orb_false_iff in Hpix as [Hpix _].
  apply Qltb_ge in Hpix.
  assert (Hhi : (0 <= py_int (posm l + width l * 5))%Z) by (apply py_int_nonneg; lra).
  unfold fit_window, ma_masked_array.
  rewrite decide_True; [simpl; eauto|].
  rewrite !length_fmap, length_py_slice by lia.
  unfold py_range. by rewrite length_fmap, length_seq.
Qed.

Lemma fit_line_Ok self (obs : list marray) (coef : option (list Q)) l
    (r : line * option (list Q)) :
  fit_line self obs coef l = Ok r ->
  (outside_image obs l = true -> r = (l, coef)) /\
  (outside_image obs l = false ->
     exists x section,
       fit_window obs l = Ok (x, section) /\
       (forall mu, (gaussfit2 x section ≫= fun c => py_index c 1) = Ok mu ->
          r.1 = set_posm mu l) /\
       (forall e, (gaussfit2 x section ≫= fun c => py_index c 1) = Raise e ->
          r.1 = set_flag false l) /\
       (ma_all_masked section = true -> r.1 = set_flag false l)).
Proof.
  unfold fit_line, outside_image.
  destruct (Qltb (posm l) 0 || _) eqn:Hpix.
  { intros [= <-]. split; [done|]. intros; discriminate. }
  destruct ((order l <? 0)%Z || _) eqn:Hord.
  { intros [= <-]. split; [done|]. intros; discriminate. }
  intros ([x section] & Hw & Hrun)%bind_Ok. cbn [fst snd] in Hrun.
  split; [intros; discriminate|]. intros _. exists x, section. split; [done|].
  assert (Hr : r = match gaussfit2 x section with
                   | Ok c => match py_index c 1 with
                             | Ok mu => (set_posm mu l, Some c)
                             | Raise _ => (set_flag false l, Some c)
                             end
                   | Raise _ => (set_flag false l, coef)
                   end).
  { destruct (2 <=? plot self)%nat; [|congruence].
    destruct (match gaussfit2 x section with Ok _ => _ | Raise _ => _ end).2;
      [|done].
    apply bind_Ok in Hrun as (u & _ & Hrun). congruence. }
  rewrite Hr. split; [|split].
  - intros mu Hmu. destruct (gaussfit2 x section) as [c|e]; simpl in *; [|done].
    by rewrite Hmu.
  - intros e He. destruct (gaussfit2 x section) as [c|e']; simpl in *; [|done].
    by rewrite He.
  - intros Hmasked. by rewrite (gaussfit2_all_masked _ _ Hmasked).
Qed.

Lemma fit_lines_loop self (obs : list marray) lines (s s' : list line * option (list Q)) :
  for_each (fun (s : list line * option (list Q)) l =>
              r ← fit_line self obs s.2 l; Ok (s.1 ++ [r.1], r.2)) lines s = Ok s' ->
  exists ls, s'.1 = s.1 ++ ls /\ length ls = length lines /\
    forall i l, lines !! i = Some l ->
      exists coef r, fit_line self obs coef l = Ok r /\ ls !! i = Some r.1.
Proof.
  revert s. induction lines as [|l0 lines IH]; intros s; simpl.
  - intros [= <-]. exists []. by rewrite app_nil_r.
  - intros (s1 & (r & Hr & [= <-])%bind_Ok & Hrun)%bind_Ok.
    destruct (IH _ Hrun) as (ls & Hs' & Hlen & Hall). simpl in Hs'.
    exists (r.1 :: ls). split; [by rewrite Hs', <- app_assoc|].
    split; [simpl; by rewrite Hlen|].
    intros [|i] l Hl; simpl in *.
    + injection Hl as <-. by exists s.2, r.
    + by apply Hall.
Qed.

Lemma for_each_app {A S} (body : S -> A -> result S) (xs ys : list A) (s : S) :
  for_each body (xs ++ ys) s = (s' ← for_each body xs s; for_each body ys s').
Proof.
  revert s. induction xs as [|x xs IH]; intros s; simpl; [done|].
  destruct (body s x); simpl; [apply IH|done].
Qed.

Lemma fit_line_outside self (obs : list marray) (coef : option (list Q)) l :
  outside_image obs l = true -> fit_line self obs coef l = Ok (l, coef).
Proof.
  unfold fit_line, outside_image. intros [-> | Hord]%orb_true_iff; [done|].
  rewrite Hord. by destruct (Qltb _ _ || _).
Qed.

Lemma fit_line_inside self (obs : list marray) (coef : option (list Q)) l :
  outside_image obs l = false ->
  fit_line self obs coef l =
  (w ← fit_window obs l;
   let fitted : line * option (list Q) :=
     match gaussfit2 w.1 w.2 with
     | Ok c =>
         match py_index c 1 with
         | Ok mu => (set_posm mu l, Some c)
         | Raise _ => (set_flag false l, Some c)
         end
     | Raise _ => (set_flag false l, coef)
     end in
   if (2 <=? plot self)%nat then
     match fitted.2 with
     | Some c => _ ← plot_fit w.1 w.2 c; Ok fitted
     | None => Raise (plot_fit_unbound w.1 w.2)
     end
   else Ok fitted).
Proof.
  unfold fit_line, outside_image. intros [-> ->]%orb_false_iff. done.
Qed.

(** C6 (as amended).  When [fit_lines] returns, a line whose guess ([posm]
    or [order]) lies outside the image is left as it is, its flag
    included; for a line inside the image, [posm] becomes the fitted
    centre when the Gaussian fit of its window succeeds, and only the flag
    changes, to False, when the fit raises, as it does on a fully masked
    window.  [fit_lines] can raise.  Without the plots of the fits
    ([plot] < 2) it raises exactly when the window of a line inside the
    image cannot be masked, a [MaskError] from outside the [try], which
    takes a negative width; with the plots it raises as soon as the first
    line inside the image has a fit that fails, [coef] being unbound. *)
Theorem C6_fit_lines_policy self (obs : list marray) lines :
  (forall lines', fit_lines self obs lines = Ok lines' ->
     length lines' = length lines /\
     forall i l, lines !! i = Some l ->
       exists l', lines' !! i = Some l' /\
         (outside_image obs l = true -> l' = l) /\
         (outside_image obs l = false ->
            exists x section,
              fit_window obs l = Ok (x, section) /\
              (forall mu,
                 (gaussfit2 x section ≫= fun coef => py_index coef 1) = Ok mu ->
                 l' = set_posm mu l) /\
              (forall e,
                 (gaussfit2 x section ≫= fun coef => py_index coef 1) = Raise e ->
                 l' = set_flag false l) /\
              (ma_all_masked section = true -> l' = set_flag false l))) /\
  ((plot self < 2)%nat ->
     ((forall l, l ∈ lines -> outside_image obs l = false ->
         exists w, fit_window obs l = Ok w) ->
      exists lines', fit_lines self obs lines = Ok lines') /\
     (forall l, l ∈ lines -> outside_image obs l = false ->
        fit_window obs l = Raise MaskError ->
        fit_lines self obs lines = Raise MaskError) /\
     ((forall l, l ∈ lines -> 0 <= width l) ->
      exists lines', fit_lines self obs lines = Ok lines')) /\
  ((2 <= plot self)%nat ->
   forall (pre post : list line) l (x section : marray) e,
     lines = pre ++ l :: post ->
     (forall l0, l0 ∈ pre -> outside_image obs l0 = true) ->
     outside_image obs l = false ->
     fit_window obs l = Ok (x, section) ->
     gaussfit2 x section = Raise e ->
     exists e', fit_lines self obs lines = Raise e').
Proof.
  split; [|split].
  - unfold fit_lines. intros lines' (s' & Hrun & [= <-])%bind_Ok.
    destruct (fit_lines_loop _ _ _ _ _ Hrun) as (ls & Hs' & Hlen & Hall).
    simpl in Hs'. rewrite Hs'. split; [done|].
    intros i l Hl. destruct (Hall i l Hl) as (coef & r & Hr & Hi).
    exists r.1. split; [done|].
    destruct (fit_line_Ok _ _ _ _ _ Hr) as [Hout Hin]. split.
    + intros H. by rewrite (Hout H).
    + done.
  - intros Hplot.
    assert (Hno : (2 <=? plot self)%nat = false) by (apply Nat.leb_gt; lia).
    assert (Hreturns :
      (forall l, l ∈ lines -> outside_image obs l = false ->
         exists w, fit_window obs l = Ok w) ->
      exists lines', fit_lines self obs lines = Ok lines').
    { intros Hwin. unfold fit_lines.
      match goal with
      | |- context [for_each ?body ?xs ?s] =>
          destruct (for_each_all_Ok body xs s) as [s' Hs']
      end.
      - intros s l Hl. destruct (outside_image obs l) eqn:Hout.
        + rewrite fit_line_outside by done. simpl. eauto.
        + rewrite fit_line_inside, Hno by done.
          destruct (Hwin l Hl Hout) as [w ->]. simpl. eauto.
      - rewrite Hs'. simpl. eauto. }
    split; [done|]. split.
    + intros l Hl Hout Hw. unfold fit_lines.
      rewrite (for_each_raise _ _ _ MaskError l); [done| |done|].
      * intros s y. destruct (outside_image obs y) eqn:Hy.
        -- rewrite fit_line_outside by done. simpl. eauto.
        -- rewrite fit_line_inside, Hno by done.
           destruct (fit_window_cases obs y) as [[w ->]| ->]; simpl; eauto.
      * intros s. by rewrite fit_line_inside, Hw by done.
    + intros Hwidth. apply Hreturns. intros l Hl Hout.
      apply fit_window_width; [done|by apply Hwidth].
  - intros Hplot pre post l x section e -> Hpre Hout Hw Hfit.
    assert (Hyes : (2 <=? plot self)%nat = true) by (apply Nat.leb_le; lia).
    unfold fit_lines. rewrite for_each_app.
    assert (Hskip : forall (done : list line),
              for_each (fun (s : list line * option (list Q)) l =>
                          r ← fit_line self obs s.2 l; Ok (s.1 ++ [r.1], r.2))
                pre (done, None) = Ok (done ++ pre, None)).
    { clear Hout Hw Hfit. induction pre as [|l0 pre IH]; intros done; simpl.
      - by rewrite app_nil_r.
      - rewrite fit_line_outside by (apply Hpre, elem_of_cons; by left). simpl.
        rewrite IH, <- app_assoc; [done|].
        intros l1 Hl1. apply Hpre, elem_of_cons. by right. }
    rewrite Hskip. simpl.
    rewrite fit_line_inside, Hw, Hyes by done. simpl. rewrite Hfit. simpl. eauto.
Qed.

(** *** Alignment on a flat correlation *)

Lemma argmax_from_all_zero (l : list Q) (i besti : nat) (best : Q) :
  best == 0 -> (forall v, v ∈ l -> v == 0) ->
  argbest_from (fun a b => Qltb b a) l i besti best = besti.
Proof.
  revert i. induction l as [|x l IH]; intros i Hbest Hzero; simpl; [done|].
  assert (Hx : Qltb best x = false).
  { apply Qltb_ge. rewrite Hbest, (Hzero x) by left. apply Qle_refl. }
  rewrite Hx. apply IH; [done|]. intros v Hv. apply Hzero. by right.
Qed.

Lemma all_zero_forallb (l : list Q) :
  forallb (fun v => Qeq_bool v 0) l = true -> forall v, v ∈ l -> v == 0.
Proof.
  intros H v Hv. apply Qeq_bool_iff.
  rewrite forallb_forall in H. apply H. by apply list_elem_of_In.
Qed.

Lemma np_argmax_all_zero (l : list Q) :
  l <> [] -> (forall v, v ∈ l -> v == 0) -> np_argmax l = Ok 0%nat.
Proof.
  destruct l as [|x l]; [done|]. intros _ Hzero. simpl. f_equal.
  apply argmax_from_all_zero; [apply Hzero; left|].
  intros v Hv. apply Hzero. by right.
Qed.

Lemma bind_Ok_l {A B} (a : A) (f : A -> result B) : (Ok a ≫= f) = f a.
Proof. reflexivity. Qed.

Lemma py_index_in_range {A} (a : list A) (z : Z) :
  (0 <= z < Z.of_nat (length a))%Z ->
  exists v, a !! Z.to_nat z = Some v /\ py_index a z = Ok v.
Proof.
  intros Hz. unfold py_index.
  replace (z <? 0)%Z with false by (symmetry; apply Z.ltb_ge; lia).
  replace ((0 <=? z) && (z <? Z.of_nat (length a)))%Z with true
    by (symmetry; apply andb_true_iff; split; [apply Z.leb_le|apply Z.ltb_lt]; lia).
  destruct (lookup_lt_is_Some_2 a (Z.to_nat z)) as [v Hv]; [lia|].
  exists v. by rewrite Hv.
Qed.

Lemma elem_of_py_range_iff (lo hi z : Z) : z ∈ py_range lo hi <-> (lo <= z < hi)%Z.
Proof.
  unfold py_range. rewrite list_elem_of_fmap. split.
  - intros (k & -> & Hk). apply elem_of_seq in Hk. lia.
  - intros Hz. exists (Z.to_nat (z - lo)). split; [lia|]. apply elem_of_seq. lia.
Qed.

Lemma NoDup_py_range (lo hi : Z) : NoDup (py_range lo hi).
Proof.
  unfold py_range. apply NoDup_fmap_2; [|apply NoDup_seq].
  intros a b H. lia.
Qed.

(** One order of the refinement: its body in terms of the window. *)
Lemma align_order_step self (obs img : list (list Q)) (cur : list line) (z : Z)
    (obs_i img_i : list Q) :
  py_index obs z = Ok obs_i -> py_index img z = Ok img_i ->
  (obs_i ← py_index obs z;
   img_i ← py_index img z;
   let correlation := signal_correlate obs_i img_i in
   let width := (py_int (inject_Z (Z.of_nat (ncol self)) * shift_window self) / 2)%Z in
   let low := (Z.of_nat (ncol self) / 2 - width)%Z in
   let high := (Z.of_nat (ncol self) / 2 + width)%Z in
   k ← np_argmax (py_slice correlation low high);
   let offset_x := (Z.of_nat k + low)%Z in
   let offset_x := py_int (inject_Z offset_x - inject_Z (Z.of_nat (ncol self)) / 2 + 1) in
   let select := (fun l => (order l =? z)%Z) <$> cur in
   apply_alignment_offset cur (0%Z, offset_x) (Some select))
  = (k ← np_argmax (order_window self obs_i img_i);
     Ok ((fun l => if (order l =? z)%Z
                   then shift_line
                          (0%Z, py_int (inject_Z (Z.of_nat k + window_low self)
                                        - inject_Z (Z.of_nat (ncol self)) / 2 + 1)) l
                   else l) <$> cur)).
Proof.
  intros -> ->. simpl. unfold order_window, window_low, window_high, window_width.
  destruct (np_argmax _) as [k|e]; simpl; [|done].
  rewrite apply_alignment_offset_eq, decide_True by (by rewrite length_fmap).
  f_equal. apply list_eq. intros i.
  rewrite lookup_zip_with, !list_lookup_fmap.
  by destruct (cur !! i).
Qed.

Lemma align_orders_loop_flat self (obs img : list (list Q))
    (done rng : list Z) (lines : list line) :
  NoDup (done ++ rng) ->
  (forall z, z ∈ rng ->
     exists obs_i img_i, py_index obs z = Ok obs_i /\ py_index img z = Ok img_i /\
       order_window self obs_i img_i <> [] /\
       forall v, v ∈ order_window self obs_i img_i -> v == 0) ->
  for_each (fun lines (z : Z) =>
      obs_i ← py_index obs z;
      img_i ← py_index img z;
      let correlation := signal_correlate obs_i img_i in
      let width := (py_int (inject_Z (Z.of_nat (ncol self)) * shift_window self) / 2)%Z in
      let low := (Z.of_nat (ncol self) / 2 - width)%Z in
      let high := (Z.of_nat (ncol self) / 2 + width)%Z in
      k ← np_argmax (py_slice correlation low high);
      let offset_x := (Z.of_nat k + low)%Z in
      let offset_x := py_int (inject_Z offset_x - inject_Z (Z.of_nat (ncol self)) / 2 + 1) in
      let select := (fun l => (order l =? z)%Z) <$> lines in
      apply_alignment_offset lines (0%Z, offset_x) (Some select))
    rng
    ((fun l => if bool_decide (order l ∈ done)
               then shift_line (0%Z, flat_shift self) l else l) <$> lines)
  = Ok ((fun l => if bool_decide (order l ∈ done ++ rng)
                  then shift_line (0%Z, flat_shift self) l else l) <$> lines).
Proof.
  revert done. induction rng as [|z rng IH]; intros done Hnd Hflat.
  - by rewrite app_nil_r.
  - cbn [for_each].
    destruct (Hflat z) as (obs_i & img_i & Hobs & Himg & Hne & Hzero); [by left|].
    rewrite (align_order_step _ _ _ _ _ _ _ Hobs Himg).
    rewrite (np_argmax_all_zero _ Hne Hzero). simpl.
    rewrite <- list_fmap_compose.
    replace (done ++ z :: rng) with ((done ++ [z]) ++ rng) in *
      by (by rewrite <- app_assoc).
    rewrite <- IH.
    + f_equal. apply list_fmap_ext. intros i l _. simpl.
      assert (Hz : z ∉ done).
      { intros Hin. apply NoDup_app in Hnd as [Hnd _].
        apply NoDup_app in Hnd as (_ & Hdis & _). apply (Hdis z Hin). by left. }
      destruct (bool_decide_reflect (order l ∈ done)) as [Hd|Hd].
      * rewrite bool_decide_eq_true_2 by (apply elem_of_app; by left).
        simpl. replace (order l + 0 =? z)%Z with false; [done|].
        symmetry. apply Z.eqb_neq. intros Heq. apply Hz.
        replace z with (order l) by lia. done.
      * destruct (order l =? z)%Z eqn:Heq.
        -- apply Z.eqb_eq in Heq.
           rewrite bool_decide_eq_true_2; [done|].
           apply elem_of_app. right. rewrite Heq. by left.
        -- apply Z.eqb_neq in Heq. rewrite bool_decide_eq_false_2; [done|].
           intros [?|Hin%list_elem_of_singleton]%elem_of_app; [done|].
           by apply Heq.
    + done.
    + intros z' Hz'. apply Hflat. by right.
Qed.

Lemma align_orders_loop_raise self (obs img : list (list Q)) (rng : list Z)
    (lines : list line) :
  (forall z, z ∈ rng -> exists obs_i img_i,
     py_index obs z = Ok obs_i /\ py_index img z = Ok img_i) ->
  (exists z obs_i img_i, z ∈ rng /\ py_index obs z = Ok obs_i /\
     py_index img z = Ok img_i /\ order_window self obs_i img_i = []) ->
  for_each (fun lines (z : Z) =>
      obs_i ← py_index obs z;
      img_i ← py_index img z;
      let correlation := signal_correlate obs_i img_i in
      let width := (py_int (inject_Z (Z.of_nat (ncol self)) * shift_window self) / 2)%Z in
      let low := (Z.of_nat (ncol self) / 2 - width)%Z in
      let high := (Z.of_nat (ncol self) / 2 + width)%Z in
      k ← np_argmax (py_slice correlation low high);
      let offset_x := (Z.of_nat k + low)%Z in
      let offset_x := py_int (inject_Z offset_x - inject_Z (Z.of_nat (ncol self)) / 2 + 1) in
      let select := (fun l => (order l =? z)%Z) <$> lines in
      apply_alignment_offset lines (0%Z, offset_x) (Some select))
    rng lines
  = Raise ValueError.
Proof.
  revert lines. induction rng as [|z rng IH]; intros lines Hidx Hempty.
  - destruct Hempty as (z & ? & ? & Hz & _). by apply elem_of_nil in Hz.
  - cbn [for_each].
    destruct (Hidx z) as (obs_i & img_i & Hobs & Himg); [by left|].
    rewrite (align_order_step _ _ _ _ _ _ _ Hobs Himg).
    destruct (order_window self obs_i img_i) as [|c w] eqn:Hw; [done|].
    simpl. apply IH.
    + intros z' Hz'. apply Hidx. by right.
    + destruct Hempty as (z' & o' & i' & Hz' & Ho' & Hi' & Hw').
      apply elem_of_cons in Hz' as [->|Hz']; [|by eauto 10].
      congruence.
Qed.

(** C7 (as amended).  [align] has no fallback to a zero offset.  In
    automatic mode, when the reference image can be built and the
    cross-correlation with it is not empty and zero everywhere, its
    maximum is found at index 0 and every line is moved by the offset
    (int(1 - rows / 2), int(1 - columns / 2)) of the reference image, which
    is not the zero offset in general.  With a window of 0 that is all.
    With another window, the default, the image is built again from the
    moved lines and each order of the image is correlated on its own:
    [align] raises a [ValueError] when the window of some order is empty,
    and when the window of every order is not empty and zero, the lines of
    these orders are moved once more, by int(low - columns / 2 + 1) pixels.
    With [plot], the default, the offset of the alignment window is
    applied on top.  An empty line list raises a [ValueError], and so does
    a reference image that cannot be built. *)
Theorem C7_align_flat_correlation self (obs : list marray) lines :
  manual self = false ->
  (lines = [] -> align self obs lines = Raise ValueError) /\
  (forall e, create_image_from_lines self lines = Raise e ->
     align self obs lines = Raise e) /\
  (forall img,
     create_image_from_lines self lines = Ok img ->
     concat (signal_correlate2d (ma_filled 0 <$> obs) img) <> [] ->
     (forall v, v ∈ concat (signal_correlate2d (ma_filled 0 <$> obs) img) -> v == 0) ->
     (Qeq_bool (shift_window self) 0 = true ->
      align self obs lines
      = Ok (align_shown self (ma_filled 0 <$> obs) (shift_line (flat_offset img) <$> lines))) /\
     (Qeq_bool (shift_window self) 0 = false ->
      (forall e,
         create_image_from_lines self (shift_line (flat_offset img) <$> lines) = Raise e ->
         align self obs lines = Raise e) /\
      forall img1,
        create_image_from_lines self (shift_line (flat_offset img) <$> lines) = Ok img1 ->
        ((exists z obs_i img_i,
            (Z.max (flat_offset img).1 0 <= z
             < Z.min (Z.of_nat (length obs)) (Z.of_nat (length img1)))%Z /\
            (ma_filled 0 <$> obs) !! Z.to_nat z = Some obs_i /\
            img1 !! Z.to_nat z = Some img_i /\
            order_window self obs_i img_i = []) ->
         align self obs lines = Raise ValueError) /\
        ((forall z obs_i img_i,
            (Z.max (flat_offset img).1 0 <= z
             < Z.min (Z.of_nat (length obs)) (Z.of_nat (length img1)))%Z ->
            (ma_filled 0 <$> obs) !! Z.to_nat z = Some obs_i ->
            img1 !! Z.to_nat z = Some img_i ->
            order_window self obs_i img_i <> [] /\
            forall v, v ∈ order_window self obs_i img_i -> v == 0) ->
         align self obs lines
         = Ok (align_shown self (ma_filled 0 <$> obs)
                 (refine_flat (Z.max (flat_offset img).1 0)
                    (Z.min (Z.of_nat (length obs)) (Z.of_nat (length img1)))
                    (flat_shift self)
                  <$> (shift_line (flat_offset img) <$> lines)))))).
Proof.
  intros Hman. unfold align. rewrite Hman. cbv zeta.
  assert (Hshown : forall ls,
            (if (0 <? plot self)%nat || false
             then apply_alignment_offset ls (align_manual (ma_filled 0 <$> obs) ls) None
             else Ok ls)
            = Ok (align_shown self (ma_filled 0 <$> obs) ls)).
  { intros ls. rewrite orb_false_r. unfold align_shown.
    destruct (0 <? plot self)%nat; [|done]. by rewrite apply_alignment_offset_eq. }
  split; [by intros ->|].
  split; [by intros e ->|].
  intros img Himg Hne Hzero. rewrite Himg, bind_Ok_l.
  rewrite (np_argmax_all_zero _ Hne Hzero), bind_Ok_l.
  rewrite Nat.Div0.div_0_l, Nat.Div0.mod_0_l.
  rewrite apply_alignment_offset_eq, bind_Ok_l.
  change (py_int (inject_Z (Z.of_nat 0) - inject_Z (Z.of_nat (length img)) / 2 + 1),
          py_int (inject_Z (Z.of_nat 0) - inject_Z (Z.of_nat (shape1 img)) / 2 + 1))
    with (flat_offset img).
  split.
  - intros ->. rewrite bind_Ok_l. apply Hshown.
  - intros ->. unfold align_orders. split; [by intros e ->|].
    intros img1 ->. rewrite bind_Ok_l.
    assert (Hidx : forall z,
              z ∈ py_range (Z.max (flat_offset img).1 0)
                    (Z.min (Z.of_nat (length (ma_filled 0 <$> obs)))
                       (Z.of_nat (length img1))) ->
              exists obs_i img_i,
                ((ma_filled 0 <$> obs) !! Z.to_nat z = Some obs_i /\
                 py_index (ma_filled 0 <$> obs) z = Ok obs_i) /\
                (img1 !! Z.to_nat z = Some img_i /\ py_index img1 z = Ok img_i)).
    { intros z Hz%elem_of_py_range_iff.
      destruct (py_index_in_range (ma_filled 0 <$> obs) z) as [obs_i Ho]; [lia|].
      destruct (py_index_in_range img1 z) as [img_i Hi]; [lia|].
      by exists obs_i, img_i. }
    split.
    + intros (z & obs_i & img_i & Hz & Ho & Hi & Hw).
      rewrite length_fmap in Hidx.
      rewrite length_fmap, align_orders_loop_raise; [done| |].
      * intros z' Hz'. destruct (Hidx z' Hz') as (o & i & [_ ?] & [_ ?]). eauto.
      * assert (Hz' : z ∈ py_range (Z.max (flat_offset img).1 0)
                        (Z.min (Z.of_nat (length obs)) (Z.of_nat (length img1))))
          by (by apply elem_of_py_range_iff).
        destruct (Hidx z Hz') as (o & i & [Ho1 Ho2] & [Hi1 Hi2]).
        exists z, obs_i, img_i. repeat split; [done|congruence|congruence|done].
    + intros Hflat. rewrite length_fmap in *.
      assert (Hstart : forall ls : list line,
                ls = (fun l => if bool_decide (order l ∈ @nil Z)
                               then shift_line (0%Z, flat_shift self) l else l) <$> ls).
      { intros ls. rewrite <- (list_fmap_id ls) at 1. apply list_fmap_ext.
        intros i l _. rewrite bool_decide_eq_false_2; [done|]. apply not_elem_of_nil. }
      rewrite (Hstart (shift_line (flat_offset img) <$> lines)) at 1.
      rewrite (align_orders_loop_flat self _ img1).
      * rewrite bind_Ok_l, Hshown. f_equal. f_equal.
        apply list_fmap_ext. intros i l _. unfold refine_flat. rewrite app_nil_l.
        destruct (bool_decide_reflect
                    (order l ∈ py_range (Z.max (flat_offset img).1 0)
                       (Z.min (Z.of_nat (length obs)) (Z.of_nat (length img1)))))
          as [Hin|Hin]; rewrite elem_of_py_range_iff in Hin.
        -- replace (_ && _)%Z with true; [done|].
           symmetry. apply andb_true_iff. split; [apply Z.leb_le|apply Z.ltb_lt]; lia.
        -- replace (_ && _)%Z with false; [done|].
           symmetry. apply andb_false_iff.
           destruct (Z.leb_spec (Z.max (flat_offset img).1 0) (order l)); [|by left].
           right. apply Z.ltb_ge. lia.
      * apply NoDup_py_range.
      * intros z Hz. destruct (Hidx z Hz) as (o & i & [Ho1 Ho2] & [Hi1 Hi2]).
        exists o, i. split; [done|]. split; [done|].
        apply elem_of_py_range_iff in Hz. by apply (Hflat z o i).
Qed.

(** *** Model scoring *)

Lemma for_each_invariant {A S} (P : S -> Prop) (body : S -> A -> result S)
    (xs : list A) (s s' : S) :
  P s -> (forall s x s', P s -> body s x = Ok s' -> P s') ->
  for_each body xs s = Ok s' -> P s'.
Proof.
  intros Hs Hbody. revert s Hs.
  induction xs as [|x xs IH]; intros s Hs H; simpl in H.
  - by injection H as <-.
  - apply bind_Ok in H as (s1 & H1 & H). apply (IH s1); eauto.
Qed.

Lemma evaluate_solution_length self (pos : list Q) (ord : list Z) sol wave :
  step_mode self = false ->
  evaluate_solution self pos ord sol = Ok wave -> length wave = length pos.
Proof.
  intros Hstep. unfold evaluate_solution. rewrite Hstep.
  destruct (length pos =? length ord)%nat eqn:Hlen; simpl; [|done].
  apply Nat.eqb_eq in Hlen.
  destruct sol as [coef| |]; try done.
  destruct (mode self).
  - apply (for_each_invariant (fun res : list Q => length res = length pos)).
    + by rewrite length_replicate.
    + intros res z res' Hres H. apply bind_Ok in H as (row & _ & H).
      injection H as <-. rewrite !length_zip_with. lia.
  - intros [= <-]. rewrite length_zip_with. lia.
Qed.

(** C8 (as amended).  Without step mode, [calculate_AIC] evaluates the
    solution at the original position [posc] and the order of every line
    of the list, flagged or not: the sample count [n] is the number of
    lines and the residual sum of squares runs over all of them.  With [k]
    the number of coefficients plus one and [n - k - 1] not zero it returns
    [2 k - 2 logl], where [logl = -n/2 (1 + log(2 pi) + log(rss / n))]. *)
Theorem C8_calculate_AIC_all_lines self lines coef p_wave :
  step_mode self = false ->
  evaluate_solution self (posc <$> lines) (order <$> lines) (Coef coef) = Ok p_wave ->
  (length lines <> np_size coef + 2)%nat ->
  let k := inject_Z (Z.of_nat (np_size coef + 1)) in
  let n := inject_Z (Z.of_nat (length lines)) in
  let rss := Qsum (zip_with (fun p w => Qpow (p - w) 2) p_wave (wll <$> lines)) in
  let logl_ := - n / 2 * (1 + np_log (2 * np_pi) + np_log (rss / n)) in
  exists attrs,
    calculate_AIC self lines (Coef coef) = Ok (2 * k - 2 * logl_, attrs) /\
    logl attrs = logl_ /\ aic attrs = 2 * k - 2 * logl_.
Proof.
  intros Hstep Hwave Hn k n rss logl_.
  pose proof (evaluate_solution_length _ _ _ _ _ Hstep Hwave) as Hlen.
  rewrite length_fmap in Hlen.
  unfold calculate_AIC. rewrite Hwave. simpl.
  unfold aic_k. rewrite Hstep. simpl.
  rewrite length_fmap, Hlen, Nat.eqb_refl. simpl.
  replace (Z.of_nat (length lines) - Z.of_nat (np_size coef + 1) - 1 =? 0)%Z with false
    by (symmetry; apply Z.eqb_neq; lia).
  eexists. split; [reflexivity|]. done.
Qed.

End Properties.

(** ** The properties on concrete inputs *)

(** A run of [reject_lines] that removes the displaced line of [arc_lines],
    and the bound of C1 on its result. *)
Lemma C1_residual_bound_witness :
  (forall l, l ∈ arc_lines -> flag l = true -> ~ wll l == 0) /\
  reject_lines (L := ref) arc_1d arc_lines
  = Some (Ok (arc_lines_kept, arc_residual_kept, 1%nat)) /\
  exists sol wave,
    build_2d_solution (L := ref) arc_1d arc_lines_kept = Ok sol /\
    evaluate_solution (L := ref) arc_1d (posm <$> arc_lines_kept)
      (order <$> arc_lines_kept) sol = Ok wave /\
    forall i l, arc_lines_kept !! i = Some l -> flag l = true ->
      ~ wll l == 0 /\
      exists w, wave !! i = Some w /\
        Qabs ((w - wll l) / wll l * speed_of_light) <= threshold arc_1d.
Proof.
  assert (Hwll : forall l, l ∈ arc_lines -> flag l = true -> ~ wll l == 0).
  { intros l Hl _ H.
    repeat (apply elem_of_cons in Hl as [->|Hl]; [vm_compute in H; discriminate|]).
    by apply elem_of_nil in Hl. }
  split; [exact Hwll|]. split; [vm_compute; reflexivity|].
  apply (C1_residual_bound (L := ref) arc_1d arc_lines arc_lines_kept
           arc_residual_kept 1); [exact Hwll|].
  vm_compute; reflexivity.
Defined.

(** C1 as stated fails for a flagged line with the catalogue wavelength 0.
    The constant solution fitted to [zero_line] alone evaluates to its
    wavelength, 0, so the residual of the claim divides 0 by 0: it is no
    number, no comparison with it holds, the loop of [reject_lines] is not
    entered and the line is returned flagged. *)
Lemma C1_zero_wavelength_counterexample :
  exists res,
    reject_lines (L := ref) zero_settings [zero_line] = Some (Ok ([zero_line], res, 0%nat)) /\
    flag zero_line = true /\ wll zero_line == 0 /\
    exists sol,
      build_2d_solution (L := ref) zero_settings [zero_line] = Ok sol /\
      evaluate_solution (L := ref) zero_settings [posm zero_line] [order zero_line] sol
      = Ok [0].
Proof.
  eexists. split; [vm_compute; reflexivity|]. split; [reflexivity|].
  split; [reflexivity|]. eexists. split; vm_compute; reflexivity.
Qed.

(** The first pass on [arc_lines]: some residual exceeds the threshold and
    one flagged line, the worst, loses its flag. *)
Lemma C4_reject_lines_terminates_witness :
  calculate_residual (L := ref) arc_1d arc_solution arc_lines = Ok arc_residual /\
  ma_any_gt (ma_abs arc_residual) (threshold arc_1d) = true /\
  exists ibad l r,
    arc_lines !! ibad = Some l /\ flag l = true /\
    arc_residual !! ibad = Some (Some r) /\
    (forall j rj, arc_residual !! j = Some (Some rj) -> Qabs rj <= Qabs r) /\
    reject_outlier arc_residual arc_lines = Ok (<[ibad := set_flag false l]> arc_lines) /\
    (count_flagged (<[ibad := set_flag false l]> arc_lines) + 1
     = count_flagged arc_lines)%nat.
Proof.
  split; [vm_compute; reflexivity|]. split; [vm_compute; reflexivity|].
  apply (proj2 (C4_reject_lines_terminates (L := ref) arc_1d arc_lines)
           arc_solution arc_residual); vm_compute; reflexivity.
Defined.

(** [arc_lines_kept] is converged: [reject_lines] returns it unchanged. *)
Lemma C9_reject_lines_idempotent_witness :
  build_2d_solution (L := ref) arc_1d arc_lines_kept = Ok arc_solution_kept /\
  calculate_residual (L := ref) arc_1d arc_solution_kept arc_lines_kept
  = Ok arc_residual_kept /\
  (forall i r, arc_residual_kept !! i = Some (Some r) -> Qabs r <= threshold arc_1d) /\
  reject_lines (L := ref) arc_1d arc_lines_kept
  = Some (Ok (arc_lines_kept, arc_residual_kept, 0%nat)).
Proof.
  assert (Hconv : forall (i : nat) r,
            arc_residual_kept !! i = Some (Some r) -> Qabs r <= threshold arc_1d).
  { intros i r H.
    do 6 (destruct i as [|i];
          [simpl in H; try discriminate; injection H as <-;
           apply Qle_bool_iff; vm_compute; reflexivity|]).
    discriminate. }
  split; [vm_compute; reflexivity|]. split; [vm_compute; reflexivity|].
  split; [exact Hconv|].
  apply (C9_reject_lines_idempotent (L := ref) arc_1d arc_lines_kept
           arc_solution_kept arc_residual_kept);
    [vm_compute; reflexivity|vm_compute; reflexivity|exact Hconv].
Defined.

(** [auto_id] on one order with a peak at pixel 2: the line at 5002 is
    identified there, the line at 5003 is too far from the peak and stays
    as it is. *)
Lemma C3_auto_id_sound_witness :
  auto_id (L := ref) arc_1d id_obs id_wave [mk_line 5002 1 false; mk_line 5003 2 false]
  = Ok [set_posm (inject_Z 2) (set_flag true (mk_line 5002 1 false));
        mk_line 5003 2 false] /\
  auto_id_peaks (L := ref) arc_1d id_obs id_wave (mk_line 5003 2 false)
  = Ok (Some (0%Z, [2%nat], [Qabs (5003 - 5002) / 5003 * speed_of_light])) /\
  length [set_posm (inject_Z 2) (set_flag true (mk_line 5002 1 false));
          mk_line 5003 2 false]
  = length [mk_line 5002 1 false; mk_line 5003 2 false].
Proof.
  split; [vm_compute; reflexivity|]. split; [vm_compute; reflexivity|].
  apply (proj1 (C3_auto_id_sound (L := ref) arc_1d id_obs id_wave
                  [mk_line 5002 1 false; mk_line 5003 2 false] _ eq_refl)).
Defined.

(** An offset of one order and three pixels applied to the first of two
    lines. *)
Lemma C10_apply_alignment_offset_frame_witness :
  apply_alignment_offset [mk_line 5000 5 true; mk_line 5001 6 true] (1, 3)%Z
    (Some [true; false])
  = Ok [shift_line (1, 3)%Z (mk_line 5000 5 true); mk_line 5001 6 true] /\
  length [shift_line (1, 3)%Z (mk_line 5000 5 true); mk_line 5001 6 true]
  = length [mk_line 5000 5 true; mk_line 5001 6 true].
Proof.
  split; [reflexivity|].
  apply (C10_apply_alignment_offset_frame
           [mk_line 5000 5 true; mk_line 5001 6 true] (1, 3)%Z (Some [true; false])).
  reflexivity.
Defined.

(** C10 as stated fails: the shift of three pixels moves [posm] from 5 to 8
    and leaves [posc] at 5. *)
Lemma C10_posc_counterexample :
  exists l',
    apply_alignment_offset [mk_line 5000 5 true] (1, 3)%Z None = Ok [l'] /\
    posm l' == 8 /\ posc l' == 5 /\ ~ posc l' == posc (mk_line 5000 5 true) + 3.
Proof.
  exists (shift_line (1, 3)%Z (mk_line 5000 5 true)).
  split; [reflexivity|]. split; [reflexivity|]. split; [reflexivity|].
  intros H. vm_compute in H. discriminate.
Qed.



(** The mode indices of [comb_obs]: the peaks are found at [comb_peaks]
    and counted 0, 1, 2, 3, 5, 6, 7, 7, 8, 9. *)
Lemma C5_mode_index_counting_witness :
  exists new_peaks,
    _find_peaks (L := ref) arc_1d comb_obs
    = Ok ([0; 1; 2; 3; 5; 6; 7; 7; 8; 9]%Z, new_peaks) /\
    exists first peaks : list nat,
      signal_find_peaks (NumLib := ref) (comb_shifted comb_obs)
        (np_median (ma_compressed (comb_shifted comb_obs)))
        None (Some (lfc_peak_width arc_1d)) = Ok first /\
      signal_find_peaks (NumLib := ref) (comb_shifted comb_obs)
        (np_median (ma_compressed (comb_shifted comb_obs)))
        (Some ((fun m => Qfloordiv m 4)
                 <$> np_median (inject_Z <$> np_diff (Z.of_nat <$> first))))
        (Some (lfc_peak_width arc_1d)) = Ok peaks /\
      (let diff := np_diff (Z.of_nat <$> peaks) in
       let med := np_median (inject_Z <$> diff) in
       [0; 1; 2; 3; 5; 6; 7; 7; 8; 9]%Z
       = (fun k => (Z.of_nat k
                    + Z.of_nat (count_gaps (gap_missed med) (take k diff))
                    - Z.of_nat (count_gaps (gap_double med) (take k diff)))%Z)
           <$> seq 0 (length peaks)) /\
      (Z.of_nat <$> peaks = [5; 15; 25; 35; 56; 66; 76; 80; 86; 96]%Z ->
       [0; 1; 2; 3; 5; 6; 7; 7; 8; 9]%Z = [0; 1; 2; 3; 5; 6; 7; 7; 8; 9]%Z).
Proof.
  eexists. split; [vm_compute; reflexivity|].
  eapply (C5_mode_index_counting (L := ref) arc_1d comb_obs).
  vm_compute; reflexivity.
Defined.

(** Lines on [peak_obs]: one outside the pixel range and one fitted at the
    peak; on [masked_obs], one whose window is masked.  A line with a
    negative width makes [fit_lines] raise, and so does, with the plots of
    the fits, a first fit that fails. *)
Lemma C6_fit_lines_policy_witness :
  fit_lines (L := ref) (plt := reference_plot) arc_1d peak_obs
    [mk_line 5000 20 true; mk_line 5000 2 true]
  = Ok [mk_line 5000 20 true; set_posm 1 (mk_line 5000 2 true)] /\
  fit_lines (L := ref) (plt := reference_plot) arc_1d masked_obs [mk_line 5000 2 true]
  = Ok [set_flag false (mk_line 5000 2 true)] /\
  fit_lines (L := ref) (plt := reference_plot) arc_1d peak_obs
    [mk_line 5000 20 true; narrow_line]
  = Raise MaskError /\
  (exists e', fit_lines (L := ref) (plt := reference_plot) arc_1d_plots masked_obs
                [mk_line 5000 20 true; mk_line 5000 2 true] = Raise e') /\
  length [mk_line 5000 20 true; set_posm 1 (mk_line 5000 2 true)]
  = length [mk_line 5000 20 true; mk_line 5000 2 true].
Proof.
  split; [vm_compute; reflexivity|]. split; [vm_compute; reflexivity|].
  split; [|split].
  - apply (proj1 (proj2 (proj1 (proj2 (C6_fit_lines_policy (L := ref)
                    (plt := reference_plot) arc_1d peak_obs
                    [mk_line 5000 20 true; narrow_line]))
               ltac:(vm_compute; lia))) narrow_line).
    + apply elem_of_cons. right. apply elem_of_cons. by left.
    + vm_compute; reflexivity.
    + vm_compute; reflexivity.
  - apply (proj2 (proj2 (C6_fit_lines_policy (L := ref) (plt := reference_plot)
                    arc_1d_plots masked_obs
                    [mk_line 5000 20 true; mk_line 5000 2 true]))
             ltac:(vm_compute; lia) [mk_line 5000 20 true] [] (mk_line 5000 2 true)
             (replicate 7 None) (replicate 7 None) ValueError).
    + reflexivity.
    + intros l0 Hl0. apply elem_of_cons in Hl0 as [->|Hl0]; [vm_compute; reflexivity|].
      by apply elem_of_nil in Hl0.
    + vm_compute; reflexivity.
    + vm_compute; reflexivity.
    + vm_compute; reflexivity.
  - apply (proj1 (C6_fit_lines_policy (L := ref) (plt := reference_plot) arc_1d peak_obs
                    [mk_line 5000 20 true; mk_line 5000 2 true])
             [mk_line 5000 20 true; set_posm 1 (mk_line 5000 2 true)]).
    vm_compute; reflexivity.
Defined.

(** C6 as stated fails.  A line guessed at pixel 20 of a 14 pixel image, or
    in order 3 of a one-order image, keeps its flag.  And [fit_lines] can
    raise: for [narrow_line], of width -1 at pixel 2, the window runs from
    pixel 7 to pixel -3, its slice holds four pixels, the range of its
    positions none, and the masked array of the two is a [MaskError]
    raised outside the [try]. *)
Lemma C6_out_of_range_counterexample :
  outside_image peak_obs (mk_line 5000 20 true) = true /\
  outside_image peak_obs (set_order 3 (mk_line 5000 2 true)) = true /\
  fit_lines (L := ref) (plt := reference_plot) arc_1d peak_obs
    [mk_line 5000 20 true; set_order 3 (mk_line 5000 2 true)]
  = Ok [mk_line 5000 20 true; set_order 3 (mk_line 5000 2 true)] /\
  flag (mk_line 5000 20 true) = true /\
  flag (set_order 3 (mk_line 5000 2 true)) = true /\
  outside_image peak_obs narrow_line = false /\
  fit_window peak_obs narrow_line = Raise MaskError /\
  fit_lines (L := ref) (plt := reference_plot) arc_1d peak_obs [narrow_line]
  = Raise MaskError.
Proof. repeat split; vm_compute; reflexivity. Qed.

(** A fully masked observation with the default settings: the correlation
    with the image of one line is zero everywhere, the line is moved by
    the offset of index 0, (0, -199), and then, its order lying in the
    range of the refinement and the window of the order being zero, by -1
    pixel more. *)
Lemma C7_align_flat_correlation_witness :
  manual wide_settings = false /\
  create_image_from_lines (L := ref) wide_settings [mk_line 5000 200 true] = Ok wide_img /\
  flat_offset wide_img = (0, -199)%Z /\ flat_shift wide_settings = (-1)%Z /\
  align (L := ref) wide_settings wide_obs [mk_line 5000 200 true]
  = Ok (align_shown (L := ref) wide_settings (ma_filled 0 <$> wide_obs)
          (refine_flat (Z.max (flat_offset wide_img).1 0)
             (Z.min (Z.of_nat (length wide_obs)) (Z.of_nat (length wide_img1)))
             (flat_shift wide_settings)
           <$> (shift_line (flat_offset wide_img) <$> [mk_line 5000 200 true]))) /\
  align (L := ref) wide_settings wide_obs [mk_line 5000 200 true]
  = Ok [shift_line (0, -200)%Z (mk_line 5000 200 true)].
Proof.
  split; [reflexivity|]. split; [vm_compute; reflexivity|].
  split; [vm_compute; reflexivity|]. split; [vm_compute; reflexivity|].
  split; [|vm_compute; reflexivity].
  destruct (proj2 (proj2 (C7_align_flat_correlation (L := ref) wide_settings wide_obs
                            [mk_line 5000 200 true] eq_refl)) wide_img)
    as [_ Hrefine].
  - vm_compute; reflexivity.
  - vm_compute. discriminate.
  - apply all_zero_forallb. vm_compute; reflexivity.
  - destruct (Hrefine eq_refl) as [_ Himg1].
    destruct (Himg1 wide_img1) as [_ Hflat]; [vm_compute; reflexivity|].
    apply Hflat. intros z obs_i img_i Hz Hobs Himg.
    assert (Hlo : Z.max (flat_offset wide_img).1 0 = 0%Z) by (vm_compute; reflexivity).
    assert (Hhi : Z.min (Z.of_nat (length wide_obs)) (Z.of_nat (length wide_img1)) = 1%Z)
      by (vm_compute; reflexivity).
    rewrite Hlo, Hhi in Hz. assert (z = 0%Z) as -> by lia.
    injection Hobs as <-. injection Himg as <-. split.
    + vm_compute. discriminate.
    + apply all_zero_forallb. vm_compute; reflexivity.
Defined.

(** C7 as stated fails: on the fully masked observation of ten pixels the
    line at pixel 5 is returned at pixel 1, not unshifted; with the default
    window of 1% the slice of the correlation of an order is empty for ten
    pixels and its argmax raises; and an empty line list raises. *)
Lemma C7_nonzero_offset_counterexample :
  align (L := ref) arc_1d masked_obs [mk_line 5000 5 true]
  = Ok [shift_line (0, -4)%Z (mk_line 5000 5 true)] /\
  posm (shift_line (0, -4)%Z (mk_line 5000 5 true)) == 1 /\
  ~ posm (shift_line (0, -4)%Z (mk_line 5000 5 true)) == posm (mk_line 5000 5 true) /\
  align (L := ref) arc_1d_window masked_obs [mk_line 5000 5 true] = Raise ValueError /\
  align (L := ref) arc_1d masked_obs [] = Raise ValueError.
Proof.
  split; [vm_compute; reflexivity|]. split; [reflexivity|].
  split; [|split; vm_compute; reflexivity].
  intros H. vm_compute in H. discriminate.
Qed.

(** The score of a constant solution on one flagged and one unflagged
    line: both are counted. *)
Lemma C8_calculate_AIC_all_lines_witness :
  step_mode arc_const = false /\
  evaluate_solution (L := ref) arc_const
    (posc <$> [mk_line 5001 1 true; mk_line 5003 2 false])
    (order <$> [mk_line 5001 1 true; mk_line 5003 2 false]) (Coef [[5000]])
  = Ok [5000; 5000] /\
  length [mk_line 5001 1 true; mk_line 5003 2 false] <> (np_size [[5000%Q]] + 2)%nat /\
  exists attrs,
    calculate_AIC (L := ref) arc_const [mk_line 5001 1 true; mk_line 5003 2 false]
      (Coef [[5000]])
    = Ok (2 * inject_Z 2
          - 2 * (- inject_Z 2 / 2
                 * (1 + @np_log ref (2 * @np_pi ref)
                    + @np_log ref
                        (Qsum [Qpow (5000 - 5001) 2; Qpow (5000 - 5003) 2] / inject_Z 2))),
          attrs).
Proof.
  split; [reflexivity|]. split; [vm_compute; reflexivity|]. split; [vm_compute; lia|].
  destruct (C8_calculate_AIC_all_lines (L := ref) arc_const
              [mk_line 5001 1 true; mk_line 5003 2 false] [[5000]] [5000; 5000])
    as (attrs & Hval & _).
  - reflexivity.
  - vm_compute; reflexivity.
  - vm_compute; lia.
  - exists attrs. exact Hval.
Defined.

(** C8 as stated fails.  Changing the catalogue wavelength of an unflagged
    line changes the score; and with two flagged lines, one unflagged line
    and [k = 2] the denominator [n - k - 1] of the corrected score is
    [3 - 2 - 1 = 0], where the flagged lines alone would give [-1]. *)
Lemma C8_unflagged_counterexample :
  exists a1 a2 t1 t2,
    calculate_AIC (L := ref) arc_const [mk_line 5001 1 true; mk_line 5003 2 false]
      (Coef [[5000]]) = Ok (a1, t1) /\
    calculate_AIC (L := ref) arc_const [mk_line 5001 1 true; mk_line 5010 2 false]
      (Coef [[5000]]) = Ok (a2, t2) /\
    ~ a1 == a2 /\
    calculate_AIC (L := ref) arc_const
      [mk_line 5001 1 true; mk_line 5002 2 true; mk_line 5003 3 false] (Coef [[5000]])
    = Raise ZeroDivisionError.
Proof.
  eexists _, _, _, _. split; [vm_compute; reflexivity|].
  split; [vm_compute; reflexivity|].
  split; [|vm_compute; reflexivity].
  intros H. vm_compute in H. discriminate.
Qed.

(** ** Further properties of the engine and of its helpers *)

Section Coverage.
Context {L : NumLib} {plt : PlotLib} {G : GridLib}.
Implicit Types (self : WavelengthCalibration) (lines : list line) (l : line).
Implicit Types (residual : marray) (i j ibad : nat) (sol : solution).

(** *** Evaluation of a solution *)

Lemma elem_of_Zinsert_new (x y : Z) (zs : list Z) :
  y ∈ Zinsert_new x zs <-> y = x \/ y ∈ zs.
Proof.
  induction zs as [|z zs IH]; simpl.
  - by rewrite elem_of_cons.
  - destruct (x <? z)%Z eqn:E1; [by rewrite elem_of_cons|].
    destruct (x =? z)%Z eqn:E2.
    + apply Z.eqb_eq in E2. subst. rewrite elem_of_cons. tauto.
    + rewrite !elem_of_cons, IH. tauto.
Qed.

Lemma elem_of_np_unique (y : Z) (zs : list Z) : y ∈ np_unique zs <-> y ∈ zs.
Proof.
  unfold np_unique. induction zs as [|z zs IH]; simpl; [done|].
  rewrite elem_of_Zinsert_new, IH, elem_of_cons. tauto.
Qed.

Lemma py_index_cases {A} (a : list A) (z : Z) :
  (exists v, py_index a z = Ok v) \/ py_index a z = Raise IndexError.
Proof.
  unfold py_index.
  destruct (_ && _)%bool; [|by right].
  destruct (a !! _); [left; eauto | by right].
Qed.

(** The loop of the 1D evaluation over a list [us] of order values. *)
Lemma evaluate_1d_loop (coef : list (list Q)) (pos : list Q) (ord : list Z)
    (us : list Z) (res wave : list Q) :
  length pos = length ord -> length res = length pos ->
  for_each (fun (res : list Q) (u : Z) =>
      row ← py_index coef u;
      Ok (zip_with (fun '(p, o) r => if (o =? u)%Z then np_polyval row p else r)
            (zip pos ord) res)) us res = Ok wave ->
  length wave = length pos /\
  forall (k : nat) p o, pos !! k = Some p -> ord !! k = Some o ->
    (o ∈ us -> exists row, py_index coef o = Ok row /\ wave !! k = Some (np_polyval row p)) /\
    (o ∉ us -> wave !! k = res !! k).
Proof.
  intros Hlen. revert res. induction us as [|u us IH]; intros res Hres Hrun.
  - simpl in Hrun. injection Hrun as <-. split; [done|].
    intros k p o _ _. split; [by intros ?%elem_of_nil | done].
  - simpl in Hrun. apply bind_Ok in Hrun as (res1 & Hbody & Hrun).
    apply bind_Ok in Hbody as (row & Hrow & Hbody). injection Hbody as Hres1.
    assert (Hl1 : length res1 = length pos).
    { rewrite <- Hres1, length_zip_with, length_zip. lia. }
    destruct (IH res1 Hl1 Hrun) as [Hlw Hpt]. split; [done|].
    intros k p o Hp Ho. destruct (Hpt k p o Hp Ho) as [Hin Hnot].
    assert (Hk : exists r, res !! k = Some r).
    { apply lookup_lt_is_Some. rewrite Hres. by eapply lookup_lt_Some. }
    destruct Hk as [r Hr].
    assert (H1 : res1 !! k = Some (if (o =? u)%Z then np_polyval row p else r)).
    { rewrite <- Hres1. apply lookup_zip_with_Some. exists (p, o), r.
      split; [done|]. split; [|done].
      apply lookup_zip_with_Some. by exists p, o. }
    split.
    + intros Hin'. destruct (decide (o ∈ us)) as [Hu|Hu]; [by apply Hin|].
      apply elem_of_cons in Hin' as [->|?]; [|done].
      exists row. split; [done|]. rewrite (Hnot Hu), H1. by rewrite Z.eqb_refl.
    + intros Hn. apply not_elem_of_cons in Hn as [Hne Hn].
      rewrite (Hnot Hn), H1, Hr.
      destruct (o =? u)%Z eqn:E; [apply Z.eqb_eq in E; done | done].
Qed.

Lemma evaluate_solution_1d_lookup self (pos : list Q) (ord : list Z)
    (coef : list (list Q)) (wave : list Q) :
  step_mode self = false -> mode self = Mode1D ->
  evaluate_solution self pos ord (Coef coef) = Ok wave ->
  length wave = length pos /\ length pos = length ord /\
  forall (k : nat) p o, pos !! k = Some p -> ord !! k = Some o ->
    exists row, py_index coef o = Ok row /\ wave !! k = Some (np_polyval row p).
Proof.
  intros Hs Hm. unfold evaluate_solution. rewrite Hs, Hm.
  destruct (length pos =? length ord)%nat eqn:E; [|done]. simpl.
  apply Nat.eqb_eq in E. intros Hrun.
  apply evaluate_1d_loop in Hrun as [Hl Hpt]; [|done|by rewrite length_replicate].
  split; [done|]. split; [done|].
  intros k p o Hp Ho. destruct (Hpt k p o Hp Ho) as [Hin _].
  apply Hin, elem_of_np_unique. by eapply list_elem_of_lookup_2.
Qed.

Lemma evaluate_solution_1d_raise self (pos : list Q) (ord : list Z)
    (coef : list (list Q)) (o : Z) :
  step_mode self = false -> mode self = Mode1D -> length pos = length ord ->
  o ∈ ord -> py_index coef o = Raise IndexError ->
  evaluate_solution self pos ord (Coef coef) = Raise IndexError.
Proof.
  intros Hs Hm Hlen Ho Hraise. unfold evaluate_solution. rewrite Hs, Hm.
  apply Nat.eqb_eq in Hlen. rewrite Hlen. simpl.
  apply for_each_raise with (x := o).
  - intros s y. destruct (py_index_cases coef y) as [[v ->]| ->]; simpl; eauto.
  - by apply elem_of_np_unique.
  - intros s. by rewrite Hraise.
Qed.

Lemma evaluate_solution_1d_returns self (pos : list Q) (ord : list Z)
    (coef : list (list Q)) :
  step_mode self = false -> mode self = Mode1D -> length pos = length ord ->
  (forall o, o ∈ ord -> exists row, py_index coef o = Ok row) ->
  exists wave, evaluate_solution self pos ord (Coef coef) = Ok wave.
Proof.
  intros Hs Hm Hlen Hall. unfold evaluate_solution. rewrite Hs, Hm.
  apply Nat.eqb_eq in Hlen. rewrite Hlen. simpl.
  apply for_each_all_Ok. intros s x Hx.
  apply (proj1 (elem_of_np_unique x ord)) in Hx. destruct (Hall x Hx) as [row ->]. simpl. eauto.
Qed.

(** X1.  [evaluate_solution] raises a [ValueError] when the positions and
    the orders differ in length; without pixel steps every returned array
    has one wavelength per position. *)
Theorem evaluate_solution_shape self (pos : list Q) (ord : list Z) sol :
  (length pos <> length ord ->
   evaluate_solution self pos ord sol = Raise ValueError) /\
  (step_mode self = false ->
   forall wave, evaluate_solution self pos ord sol = Ok wave ->
     length wave = length pos /\ length pos = length ord).
Proof.
  split.
  - intros Hne. unfold evaluate_solution.
    apply Nat.eqb_neq in Hne. by rewrite Hne.
  - intros Hs wave Hrun. split; [by eapply evaluate_solution_length|].
    unfold evaluate_solution in Hrun.
    destruct (length pos =? length ord)%nat eqn:E; [|done].
    by apply Nat.eqb_eq in E.
Qed.

(** X2.  In 1D mode without pixel steps the wavelength at position [k] is
    the polynomial of row [order[k]] of the coefficients at [pos[k]], the
    row being selected with Python's indexing (a negative order counts from
    the last row).  The call returns exactly when every order value selects
    a row, and raises an [IndexError] otherwise. *)
Theorem evaluate_solution_1d self (pos : list Q) (ord : list Z) (coef : list (list Q)) :
  step_mode self = false -> mode self = Mode1D -> length pos = length ord ->
  (forall wave, evaluate_solution self pos ord (Coef coef) = Ok wave ->
     forall (k : nat) p o, pos !! k = Some p -> ord !! k = Some o ->
       exists row, py_index coef o = Ok row /\ wave !! k = Some (np_polyval row p)) /\
  ((forall o, o ∈ ord -> exists row, py_index coef o = Ok row) ->
   exists wave, evaluate_solution self pos ord (Coef coef) = Ok wave) /\
  (forall o, o ∈ ord -> py_index coef o = Raise IndexError ->
   evaluate_solution self pos ord (Coef coef) = Raise IndexError).
Proof.
  intros Hs Hm Hlen. split; [|split].
  - intros wave Hrun.
    by apply (evaluate_solution_1d_lookup self pos ord coef wave Hs Hm Hrun).
  - by apply evaluate_solution_1d_returns.
  - intros o Ho Hr. by eapply evaluate_solution_1d_raise.
Qed.

(** *** The wavelength image *)

Lemma bind_singleton_fmap {A B} (f : A -> B) (xs : list A) :
  (x ← xs; [f x]) = f <$> xs.
Proof. induction xs as [|x xs IH]; simpl; [done|]. by f_equal. Qed.

Lemma np_indices_S (n m : nat) :
  np_indices (S n) m = np_indices n m ++ ((fun c => (n, c)) <$> seq 0 m).
Proof.
  unfold np_indices. rewrite seq_S, bind_app. simpl.
  by rewrite app_nil_r, bind_singleton_fmap.
Qed.

Lemma length_np_indices (n m : nat) : length (np_indices n m) = (n * m)%nat.
Proof.
  induction n as [|n IH]; [done|].
  rewrite np_indices_S, length_app, IH, length_fmap, length_seq. lia.
Qed.

Lemma np_indices_lookup (n m r c : nat) :
  (r < n)%nat -> (c < m)%nat -> np_indices n m !! (r * m + c)%nat = Some (r, c).
Proof.
  intros Hr Hc. induction n as [|n IH]; [lia|].
  rewrite np_indices_S. destruct (decide (r < n)%nat) as [Hlt|Hge].
  - rewrite lookup_app_l; [by apply IH|]. rewrite length_np_indices. nia.
  - assert (r = n) as -> by lia.
    rewrite lookup_app_r; rewrite length_np_indices; [|lia].
    replace (n * m + c - n * m)%nat with c by lia.
    by rewrite list_lookup_fmap, lookup_seq_lt.
Qed.

Lemma elem_of_np_indices (n m r c : nat) :
  (r, c) ∈ np_indices n m -> (r < n)%nat /\ (c < m)%nat.
Proof.
  unfold np_indices. intros (r' & Hin & Hr)%list_elem_of_bind.
  apply list_elem_of_bind in Hin as (c' & Hin & Hc).
  apply list_elem_of_singleton in Hin. injection Hin as -> ->.
  apply elem_of_seq in Hr, Hc. lia.
Qed.

Lemma np_reshape_lookup {A} (n m : nat) (a : list A) (r : nat) row :
  length a = (n * m)%nat -> np_reshape n m a !! r = Some row ->
  (r < n)%nat /\ length row = m /\
  forall c v, row !! c = Some v -> (c < m)%nat /\ a !! (r * m + c)%nat = Some v.
Proof.
  intros Hlen. unfold np_reshape. rewrite list_lookup_fmap.
  destruct (seq 0 n !! r) as [r'|] eqn:E; [|done]. simpl. intros [= <-].
  apply lookup_seq in E as [-> Hr]. simpl. split; [done|]. split.
  - rewrite length_take, length_drop, Hlen. nia.
  - intros c v Hv. apply lookup_take_Some in Hv as [Hv Hc].
    by rewrite lookup_drop in Hv.
Qed.

Lemma length_np_reshape {A} (n m : nat) (a : list A) : length (np_reshape n m a) = n.
Proof. unfold np_reshape. by rewrite length_fmap, length_seq. Qed.

(** The value of a polynomial solution at one position. *)
Lemma evaluate_solution_lookup self (pos : list Q) (ord : list Z) sol (wave : list Q) :
  step_mode self = false ->
  evaluate_solution self pos ord sol = Ok wave ->
  exists coef, sol = Coef coef /\
    forall (k : nat) p o, pos !! k = Some p -> ord !! k = Some o ->
      match mode self with
      | Mode1D => exists row, py_index coef o = Ok row /\
                              wave !! k = Some (np_polyval row p)
      | Mode2D => wave !! k = Some (polyval2d p (inject_Z o) coef)
      end.
Proof.
  intros Hs Hrun. destruct (mode self) eqn:Hm.
  - destruct sol as [coef| |];
      try (unfold evaluate_solution in Hrun; rewrite Hs in Hrun;
           by destruct (negb _)).
    exists coef. split; [done|].
    by apply (evaluate_solution_1d_lookup self pos ord coef wave Hs Hm Hrun).
  - unfold evaluate_solution in Hrun. rewrite Hs, Hm in Hrun.
    destruct (negb _); [done|]. destruct sol as [coef| |]; try done.
    injection Hrun as <-. exists coef. split; [done|].
    intros k p o Hp Ho. apply lookup_zip_with_Some. by exists p, o.
Qed.

Lemma make_wave_Ok self sol (img : list (list Q)) :
  step_mode self = false -> make_wave self sol = Ok img ->
  length img = nord self /\
  forall (r : nat) row, img !! r = Some row ->
    length row = ncol self /\
    forall (c : nat) w, row !! c = Some w ->
      exists coef, sol = Coef coef /\
        match mode self with
        | Mode1D => exists p, py_index coef (Z.of_nat r) = Ok p /\
                              w = np_polyval p (inject_Z (Z.of_nat c))
        | Mode2D => w = polyval2d (inject_Z (Z.of_nat c)) (inject_Z (Z.of_nat r)) coef
        end.
Proof.
  intros Hs. unfold make_wave. rewrite Hs.
  intros (wave & Hrun & [= <-])%bind_Ok.
  split; [apply length_np_reshape|].
  assert (Hlen : length wave = (nord self * ncol self)%nat).
  { apply evaluate_solution_length in Hrun; [|done].
    by rewrite Hrun, length_fmap, length_np_indices. }
  intros r row Hrow.
  destruct (np_reshape_lookup _ _ _ _ _ Hlen Hrow) as (Hr & Hl & Hpt).
  split; [done|]. intros c w Hw. destruct (Hpt c w Hw) as [Hc Hk].
  destruct (evaluate_solution_lookup _ _ _ _ _ Hs Hrun) as (coef & -> & Hval).
  exists coef. split; [done|].
  specialize (Hval (r * ncol self + c)%nat (inject_Z (Z.of_nat c)) (Z.of_nat r)).
  rewrite !list_lookup_fmap, np_indices_lookup in Hval by done.
  specialize (Hval eq_refl eq_refl).
  destruct (mode self).
  - destruct Hval as (p & Hp & Hwk). exists p. split; [done|]. congruence.
  - congruence.
Qed.

Lemma make_wave_2d_returns self (coef : list (list Q)) :
  step_mode self = false -> mode self = Mode2D ->
  exists img, make_wave self (Coef coef) = Ok img.
Proof.
  intros Hs Hm. unfold make_wave, evaluate_solution. rewrite Hs, Hm.
  rewrite !length_fmap, Nat.eqb_refl. simpl. eauto.
Qed.

Lemma make_wave_1d_returns self (coef : list (list Q)) :
  step_mode self = false -> mode self = Mode1D ->
  (nord self <= length coef)%nat ->
  exists img, make_wave self (Coef coef) = Ok img.
Proof.
  intros Hs Hm Hn. unfold make_wave. rewrite Hs.
  match goal with
  | |- context [evaluate_solution self ?x ?y _] =>
      destruct (evaluate_solution_1d_returns self x y coef Hs Hm) as [wave Hw]
  end.
  - by rewrite !length_fmap.
  - intros o (rc & -> & Hin)%list_elem_of_fmap. destruct rc as [r c].
    apply elem_of_np_indices in Hin as [Hr _]. simpl.
    assert (Hlt : (r < length coef)%nat) by lia.
    apply lookup_lt_is_Some in Hlt as [row Hrow].
    exists row. by apply py_index_nat.
  - rewrite Hw. simpl. eauto.
Qed.

Lemma make_wave_1d_raise self (coef : list (list Q)) :
  step_mode self = false -> mode self = Mode1D ->
  (length coef < nord self)%nat -> (0 < ncol self)%nat ->
  make_wave self (Coef coef) = Raise IndexError.
Proof.
  intros Hs Hm Hn Hc. unfold make_wave. rewrite Hs.
  rewrite (evaluate_solution_1d_raise self _ _ coef (Z.of_nat (length coef)) Hs Hm);
    [done|by rewrite !length_fmap| |].
  - apply list_elem_of_fmap. exists (length coef, 0%nat). split; [done|].
    apply list_elem_of_lookup. exists (length coef * ncol self + 0)%nat.
    by apply np_indices_lookup.
  - destruct (py_index_cases coef (Z.of_nat (length coef))) as [[v Hv]|]; [|done].
    apply py_index_nat in Hv. apply lookup_lt_Some in Hv. lia.
Qed.

Lemma for_each_snoc_length {A B} (f : list B -> A -> result B) (xs : list A)
    (acc out : list B) :
  for_each (fun acc x => c ← f acc x; Ok (acc ++ [c])) xs acc = Ok out ->
  length out = (length acc + length xs)%nat.
Proof.
  revert acc. induction xs as [|x xs IH]; intros acc; simpl.
  - intros [= <-]. lia.
  - intros (acc' & (c & _ & [= <-])%bind_Ok & Hrun)%bind_Ok.
    rewrite (IH _ Hrun), length_app. simpl. lia.
Qed.

Lemma length_py_range (lo hi : Z) : length (py_range lo hi) = Z.to_nat (hi - lo).
Proof. unfold py_range. by rewrite length_fmap, length_seq. Qed.

(** The 1D solution has one row for every order up to the largest flagged
    one. *)
Lemma build_1d_rows self lines sol :
  step_mode self = false -> mode self = Mode1D ->
  build_2d_solution self lines = Ok sol ->
  exists coef mx, sol = Coef coef /\
    np_max_Z (order <$> flagged lines) = Ok mx /\
    (0 <= mx + 1)%Z /\ length coef = Z.to_nat (mx + 1).
Proof.
  intros Hs Hm. unfold build_2d_solution. rewrite Hs, Hm.
  intros (mx & Hmx & Hrun)%bind_Ok.
  destruct (degree self) as [d|]; [|done].
  destruct (mx + 1 <? 0)%Z eqn:E; [done|]. apply Z.ltb_ge in E.
  apply bind_Ok in Hrun as (coef & Hcoef & [= <-]).
  exists coef, mx. split; [done|]. split; [done|]. split; [done|].
  apply (for_each_snoc_length
           (fun _ z => np_polyfit (posm <$> filter (fun l => order l = z) (flagged lines))
                         (wll <$> filter (fun l => order l = z) (flagged lines)) d))
    in Hcoef.
  rewrite Hcoef, length_py_range. simpl. f_equal. lia.
Qed.

(** X3.  Without pixel steps the image of [make_wave] has the shape
    (nord, ncol) of the object, and its entry in row [r] and column [c] is
    the solution at pixel [c] of order [r]: the polynomial of row [r] of
    the coefficients in 1D mode, the surface at (pixel, order) = (c, r) in
    2D mode. *)
Theorem make_wave_image self sol (img : list (list Q)) :
  step_mode self = false -> make_wave self sol = Ok img ->
  length img = nord self /\
  forall (r : nat) row, img !! r = Some row ->
    length row = ncol self /\
    forall (c : nat) w, row !! c = Some w ->
      exists coef, sol = Coef coef /\
        match mode self with
        | Mode1D => exists p, py_index coef (Z.of_nat r) = Ok p /\
                              w = np_polyval p (inject_Z (Z.of_nat c))
        | Mode2D => w = polyval2d (inject_Z (Z.of_nat c)) (inject_Z (Z.of_nat r)) coef
        end.
Proof. apply make_wave_Ok. Qed.

(** X4.  In 1D mode the solution built from a line list has rows only up
    to the largest flagged order [mx]: the image of an object with more
    than [mx + 1] orders (and at least one column) cannot be made,
    [make_wave] raises an [IndexError]; with at most [mx + 1] orders it
    returns. *)
Theorem make_wave_1d_orders self lines sol :
  step_mode self = false -> mode self = Mode1D ->
  build_2d_solution self lines = Ok sol ->
  exists mx, np_max_Z (order <$> flagged lines) = Ok mx /\
    ((Z.of_nat (nord self) <= mx + 1)%Z -> exists img, make_wave self sol = Ok img) /\
    ((mx + 1 < Z.of_nat (nord self))%Z -> (0 < ncol self)%nat ->
     make_wave self sol = Raise IndexError).
Proof.
  intros Hs Hm Hb.
  destruct (build_1d_rows self lines sol Hs Hm Hb) as (coef & mx & -> & Hmx & Hpos & Hlen).
  exists mx. split; [done|]. split.
  - intros Hn. apply make_wave_1d_returns; [done..|]. rewrite Hlen. lia.
  - intros Hn Hc. apply make_wave_1d_raise; [done..| |done]. rewrite Hlen. lia.
Qed.

(** *** Outlier rejection: what it changes and what it keeps *)

Lemma build_no_flagged self lines :
  step_mode self = false -> flagged lines = [] ->
  build_2d_solution self lines = Raise ValueError.
Proof.
  intros Hs Hn. unfold build_2d_solution. rewrite Hs, Hn. simpl.
  destruct (mode self); [done|]. unfold polyfit2d. by destruct (degree self).
Qed.

Lemma build_Ok_flagged self lines sol :
  step_mode self = false -> build_2d_solution self lines = Ok sol ->
  exists (k : nat) l, lines !! k = Some l /\ flag l = true.
Proof.
  intros Hs Hb. destruct (flagged lines) as [|l ls] eqn:E.
  - by rewrite build_no_flagged in Hb.
  - assert (Hin : l ∈ flagged lines) by (rewrite E; apply elem_of_cons; by left).
    apply list_elem_of_filter in Hin as [Hf Hin].
    apply list_elem_of_lookup in Hin as [k Hk]. eauto.
Qed.

Lemma count_flagged_pos lines (k : nat) l :
  lines !! k = Some l -> flag l = true -> (0 < count_flagged lines)%nat.
Proof.
  intros Hk Hf. unfold count_flagged.
  assert (Hin : l ∈ flagged lines).
  { apply list_elem_of_filter. split; [done|]. by eapply list_elem_of_lookup_2. }
  destruct (flagged lines); [by apply elem_of_nil in Hin | simpl; lia].
Qed.

(** X5.  [reject_lines] changes nothing but flags, and a flag only from
    True to False: the list keeps its length, and every line of the result
    is the line it was, or that line with its flag cleared. *)
Theorem reject_lines_frame self lines lines' res nbad :
  reject_lines self lines = Some (Ok (lines', res, nbad)) ->
  length lines' = length lines /\
  forall (k : nat) l l', lines !! k = Some l -> lines' !! k = Some l' ->
    l' = l \/ (flag l = true /\ l' = set_flag false l).
Proof. intros Hrun. by apply (reject_lines_cleared self lines lines' res nbad). Qed.

(** X6.  Without pixel steps [reject_lines] never clears the last flag: a
    run that returns leaves at least one flagged line, having removed fewer
    lines than were flagged.  A negative threshold, which no residual can
    meet, therefore makes it raise on every line list whose flagged lines
    have a catalogue wavelength that is not zero. *)
Theorem reject_lines_keeps_a_line self lines :
  step_mode self = false ->
  (forall lines' res nbad,
     reject_lines self lines = Some (Ok (lines', res, nbad)) ->
     (0 < count_flagged lines')%nat /\ (nbad < count_flagged lines)%nat) /\
  (threshold self < 0 ->
   (forall l, l ∈ lines -> flag l = true -> ~ wll l == 0) ->
   exists e, reject_lines self lines = Some (Raise e)).
Proof.
  intros Hs.
  assert (Hkeep : forall lines' res nbad,
     reject_lines self lines = Some (Ok (lines', res, nbad)) ->
     exists (k : nat) l sol, lines' !! k = Some l /\ flag l = true /\
       calculate_residual self sol lines' = Ok res /\
       ma_any_gt (ma_abs res) (threshold self) = false).
  { intros lines' res nbad Hrun.
    destruct (reject_lines_fuel_invariant _ _ _ _ _ _ Hrun) as [(sol & Hb & Hres) Hany].
    destruct (build_Ok_flagged _ _ _ Hs Hb) as (k & l & Hk & Hf).
    by exists k, l, sol. }
  destruct (reject_lines_fuel_terminates self (length lines) lines
              (count_flagged_le lines)) as (out & Hout & _ & Hcount).
  fold (reject_lines self lines) in Hout. split.
  - intros lines' res nbad Hrun.
    destruct (Hkeep _ _ _ Hrun) as (k & l & sol & Hk & Hf & _).
    pose proof (count_flagged_pos _ _ _ Hk Hf) as Hpos. split; [done|].
    rewrite Hout in Hrun. injection Hrun as ->.
    destruct (Hcount _ _ _ eq_refl) as [Hc _]. lia.
  - intros Hneg _. destruct out as [[[lines' res] nbad]|e]; [|by exists e].
    destruct (Hkeep _ _ _ Hout) as (k & l & sol & Hk & Hf & Hres & Hany).
    apply calculate_residual_mask in Hres as [_ Hmask].
    destruct (Hmask k l Hk) as (o & Ho & Hsome).
    destruct (proj2 Hsome Hf) as [r ->].
    assert (Habs : Qabs r <= threshold self).
    { apply (proj1 (ma_any_gt_false _ _) Hany k). by rewrite ma_abs_lookup, Ho. }
    pose proof (Qabs_nonneg r). lra.
Qed.

(** *** Automatic identification: where a line can be found *)

Lemma auto_id_peaks_guards self obs wave_img l low (peaks : list nat)
    (residual : list Q) :
  auto_id_peaks self obs wave_img l = Ok (Some (low, peaks, residual)) ->
  (0 <= order l < Z.of_nat (nord self))%Z /\
  exists wave w_first w_last,
    py_index wave_img (order l) = Ok wave /\
    py_index wave 0 = Ok w_first /\ py_index wave (-1) = Ok w_last /\
    w_first <= wll l /\ wll l < w_last.
Proof.
  unfold auto_id_peaks. intros H.
  destruct (_ || _)%Z eqn:Hord; [done|].
  apply orb_false_iff in Hord as [Ho1 Ho2].
  apply Z.ltb_ge in Ho1. apply Z.leb_gt in Ho2.
  apply bind_Ok in H as (wave & Hwave & H).
  apply bind_Ok in H as (w_first & Hfirst & H).
  apply bind_Ok in H as (w_last & Hlast & H).
  destruct (_ || _) eqn:Hw; [done|].
  apply orb_false_iff in Hw as [Hw1 Hw2].
  apply Qltb_ge in Hw1.
  assert (Hw3 : wll l < w_last).
  { apply Qltb_lt. unfold Qltb. by rewrite Hw2. }
  split; [lia|]. by exists wave, w_first, w_last.
Qed.

Lemma auto_id_line_flag self obs wave_img l l' :
  auto_id_line self obs wave_img l = Ok l' -> flag l = true -> flag l' = true.
Proof.
  intros H Hf. destruct (auto_id_line_cases _ _ _ _ _ H) as [->|[Hf' _]]; congruence.
Qed.

Lemma auto_id_loop_count self obs wave_img lines lines' :
  auto_id_loop self obs wave_img lines = Ok lines' ->
  (count_flagged lines <= count_flagged lines')%nat.
Proof.
  revert lines'. induction lines as [|x lines IH]; intros lines' H; simpl in H.
  - by injection H as <-.
  - apply bind_Ok in H as (x' & Hx & H).
    apply bind_Ok in H as (ls' & Hls & H). injection H as <-.
    specialize (IH ls' Hls). unfold count_flagged, flagged in *.
    rewrite !filter_cons.
    destruct (decide (flag x = true)) as [Hf|Hf].
    + rewrite decide_True by (by eapply auto_id_line_flag). simpl. lia.
    + destruct (decide (flag x' = true)); simpl; lia.
Qed.

(** X7.  [auto_id] never lowers the number of flagged lines, and a line it
    flags lies inside the image: its order is one of the [nord] orders and
    its catalogue wavelength is at or above the first and below the last
    wavelength of that order's row of the wavelength image. *)
Theorem auto_id_inside_image self obs wave_img lines lines' :
  auto_id self obs wave_img lines = Ok lines' ->
  (count_flagged lines <= count_flagged lines')%nat /\
  forall (k : nat) l l', lines !! k = Some l -> lines' !! k = Some l' ->
    flag l = false -> flag l' = true ->
    (0 <= order l < Z.of_nat (nord self))%Z /\
    exists wave w_first w_last,
      py_index wave_img (order l) = Ok wave /\
      py_index wave 0 = Ok w_first /\ py_index wave (-1) = Ok w_last /\
      w_first <= wll l /\ wll l < w_last.
Proof.
  unfold auto_id. intros H. split; [by eapply auto_id_loop_count|].
  destruct (auto_id_loop_lookup _ _ _ _ _ H) as [_ Hall].
  intros k l l' Hl Hl' Hf Hf'.
  destruct (auto_id_line_cases _ _ _ _ _ (Hall k l l' Hl Hl'))
    as [->|(_ & low & peaks & residual & _ & _ & _ & Hpeaks & _)]; [congruence|].
  by eapply auto_id_peaks_guards.
Qed.

(** *** Alignment moves the lines rigidly *)

Lemma Qplus_inject_Z_0 (q : Q) : q + inject_Z 0 = q.
Proof.
  destruct q as [n d]. unfold Qplus, inject_Z. simpl.
  f_equal; lia.
Qed.

Lemma Qplus_inject_Z_2 (q : Q) (a b : Z) :
  q + inject_Z a + inject_Z b = q + inject_Z (a + b).
Proof.
  destruct q as [n d]. unfold Qplus, inject_Z. simpl.
  f_equal; lia.
Qed.

Lemma shift_line_0 l : shift_line (0%Z, 0%Z) l = l.
Proof.
  destruct l. unfold shift_line. simpl.
  rewrite Qplus_inject_Z_0. f_equal; lia.
Qed.

Lemma shift_line_compose (a b : Z * Z) l :
  shift_line a (shift_line b l) = shift_line ((b.1 + a.1)%Z, (b.2 + a.2)%Z) l.
Proof.
  destruct l. unfold shift_line. simpl.
  rewrite Qplus_inject_Z_2. f_equal; lia.
Qed.

Lemma moved_rigidly_refl lines : exists d_order d_x, moved_rigidly d_order d_x lines lines.
Proof.
  exists 0%Z, (fun _ => 0%Z). unfold moved_rigidly.
  rewrite <- (list_fmap_id lines) at 1. apply list_fmap_ext.
  intros k l _. simpl. by rewrite shift_line_0.
Qed.

Lemma moved_rigidly_all offset lines cur cur' d_order d_x :
  moved_rigidly d_order d_x lines cur ->
  apply_alignment_offset cur offset None = Ok cur' ->
  moved_rigidly (d_order + offset.1) (fun o => (d_x o + offset.2)%Z) lines cur'.
Proof.
  unfold moved_rigidly. intros -> H. rewrite apply_alignment_offset_eq in H.
  injection H as <-. rewrite <- list_fmap_compose. apply list_fmap_ext.
  intros k l _. simpl. by rewrite shift_line_compose.
Qed.

Lemma moved_rigidly_order (z offset_x : Z) lines cur cur' d_order d_x :
  moved_rigidly d_order d_x lines cur ->
  apply_alignment_offset cur (0%Z, offset_x)
    (Some ((fun l => (order l =? z)%Z) <$> cur)) = Ok cur' ->
  moved_rigidly d_order
    (fun o => if (o + d_order =? z)%Z then (d_x o + offset_x)%Z else d_x o) lines cur'.
Proof.
  unfold moved_rigidly. intros -> H. rewrite apply_alignment_offset_eq in H.
  rewrite decide_True in H by (by rewrite !length_fmap).
  injection H as <-. apply list_eq. intros k.
  rewrite lookup_zip_with, !list_lookup_fmap.
  destruct (lines !! k) as [l|]; [|done]. simpl. f_equal.
  destruct (order l + d_order =? z)%Z; [|done].
  rewrite shift_line_compose. simpl. f_equal. f_equal. lia.
Qed.

Lemma align_orders_rigid self (obs : list (list Q)) offset lines cur cur' d_order d_x :
  moved_rigidly d_order d_x lines cur ->
  align_orders self obs offset cur = Ok cur' ->
  exists d_x', moved_rigidly d_order d_x' lines cur'.
Proof.
  intros Hcur. unfold align_orders.
  intros (img & _ & Hrun)%bind_Ok. revert Hrun.
  apply (for_each_invariant (fun c => exists d_x', moved_rigidly d_order d_x' lines c));
    [by exists d_x|].
  intros s z s' [d_x' Hs] Hbody.
  apply bind_Ok in Hbody as (obs_i & _ & Hbody).
  apply bind_Ok in Hbody as (img_i & _ & Hbody).
  apply bind_Ok in Hbody as (k & _ & Hbody).
  eexists. eapply moved_rigidly_order; [exact Hs|exact Hbody].
Qed.

Lemma align_rigid self (obs : list marray) lines lines' :
  align self obs lines = Ok lines' ->
  exists d_order d_x, moved_rigidly d_order d_x lines lines'.
Proof.
  unfold align. intros (cur & Hauto & Hman)%bind_Ok.
  assert (Hcur : exists d_order d_x, moved_rigidly d_order d_x lines cur).
  { destruct (manual self).
    - injection Hauto as <-. apply moved_rigidly_refl.
    - apply bind_Ok in Hauto as (img & _ & Hauto).
      apply bind_Ok in Hauto as (k & _ & Hauto).
      apply bind_Ok in Hauto as (cur0 & Hshift & Hauto).
      destruct (moved_rigidly_refl lines) as (d0 & dx0 & H0).
      pose proof (moved_rigidly_all _ _ _ _ _ _ H0 Hshift) as H1.
      destruct (Qeq_bool (shift_window self) 0).
      + injection Hauto as <-. eauto.
      + destruct (align_orders_rigid _ _ _ _ _ _ _ _ H1 Hauto) as [d_x' H2]. eauto. }
  destruct Hcur as (d_order & d_x & Hcur).
  destruct (_ || _).
  - pose proof (moved_rigidly_all _ _ _ _ _ _ Hcur Hman). eauto.
  - injection Hman as <-. eauto.
Qed.

(** X8.  [align] moves the lines rigidly: when it returns, every line is
    the line it received with its order shifted by one amount [d_order],
    the same for the whole list, and with [posm], [xfirst] and [xlast]
    shifted by one pixel amount that is the same for all lines of one
    order.  The catalogue wavelength, [posc], width, height and flag are
    not changed, and no line is added or removed. *)
Theorem align_moves_rigidly self (obs : list marray) lines lines' :
  align self obs lines = Ok lines' ->
  exists (d_order : Z) (d_x : Z -> Z),
    lines' = (fun l => shift_line (d_order, d_x (order l)) l) <$> lines.
Proof. apply align_rigid. Qed.

(** *** The reference image *)

Lemma slice_bound_le (n : nat) (z : Z) : (slice_bound n z <= n)%nat.
Proof. unfold slice_bound. destruct (z <? 0)%Z eqn:E; [apply Z.ltb_lt in E|]; lia. Qed.

Lemma length_slice_assign (row : list Q) (first last : Z) (vals row' : list Q) :
  slice_assign row first last vals = Ok row' -> length row' = length row.
Proof.
  unfold slice_assign.
  pose proof (slice_bound_le (length row) first) as Hlo.
  pose proof (slice_bound_le (length row) last) as Hhi.
  set (lo := slice_bound (length row) first) in *.
  set (hi := slice_bound (length row) last) in *.
  destruct (decide (length vals = (hi - lo)%nat)) as [Hv|Hv].
  - intros [= <-]. rewrite !length_app, length_take, length_drop. lia.
  - destruct vals as [|v [|]]; try done.
    intros [= <-]. rewrite !length_app, length_take, length_replicate, length_drop. lia.
Qed.

Lemma create_image_from_lines_Ok self lines (img : list (list Q)) :
  create_image_from_lines self lines = Ok img ->
  exists mn mx,
    np_min_Z (order <$> lines) = Ok mn /\ np_max_Z (order <$> lines) = Ok mx /\
    length img = Z.to_nat (mx - mn + 1) /\
    Forall (fun row => length row = ncol self) img.
Proof.
  unfold create_image_from_lines.
  intros (mn & Hmn & (mx & Hmx & Hrun)%bind_Ok)%bind_Ok.
  exists mn, mx. split; [done|]. split; [done|]. revert Hrun.
  apply (for_each_invariant
           (fun im : list (list Q) =>
              length im = Z.to_nat (mx - mn + 1) /\
              Forall (fun row => length row = ncol self) im)).
  - split; [by rewrite length_replicate|].
    apply Forall_replicate. by rewrite length_replicate.
  - intros im l im' [Hlen Hall] Hbody.
    destruct (order l <? 0)%Z; [by injection Hbody as <-|].
    destruct (_ || _)%Z; [by injection Hbody as <-|].
    apply bind_Ok in Hbody as (g & _ & Hbody).
    apply bind_Ok in Hbody as (row & Hrow & Hbody).
    apply bind_Ok in Hbody as (row' & Hrow' & [= <-]).
    split; [by rewrite length_insert|].
    apply Forall_insert; [done|].
    apply length_slice_assign in Hrow'. rewrite Hrow'.
    unfold py_index in Hrow. destruct (_ && _)%Z; [|done].
    destruct (im !! _) as [r|] eqn:Hr; [|done]. injection Hrow as <-.
    rewrite Forall_forall in Hall. apply Hall. by eapply list_elem_of_lookup_2.
Qed.

(** X9.  The reference image of [create_image_from_lines] has one row for
    every order value from the smallest to the largest order of the line
    list (whatever the number of orders of the observation) and [ncol]
    columns; an empty line list is a [ValueError]. *)
Theorem create_image_from_lines_shape self lines :
  (lines = [] -> create_image_from_lines self lines = Raise ValueError) /\
  (forall img : list (list Q), create_image_from_lines self lines = Ok img ->
     exists mn mx,
       np_min_Z (order <$> lines) = Ok mn /\ np_max_Z (order <$> lines) = Ok mx /\
       length img = Z.to_nat (mx - mn + 1) /\
       forall row, row ∈ img -> length row = ncol self).
Proof.
  split; [by intros ->|]. intros img Himg.
  destruct (create_image_from_lines_Ok _ _ _ Himg) as (mn & mx & Hmn & Hmx & Hlen & Hall).
  exists mn, mx. repeat (split; [done|]). by apply Forall_forall.
Qed.

(** *** Model scoring: the division of the corrected criterion *)

Lemma calculate_AIC_zero self lines (coef : list (list Q)) (p_wave : list Q) :
  step_mode self = false ->
  evaluate_solution self (posc <$> lines) (order <$> lines) (Coef coef) = Ok p_wave ->
  calculate_AIC self lines (Coef coef) = Raise ZeroDivisionError <->
  length lines = (np_size coef + 2)%nat.
Proof.
  intros Hstep Hwave.
  pose proof (evaluate_solution_length _ _ _ _ _ Hstep Hwave) as Hlen.
  rewrite length_fmap in Hlen.
  unfold calculate_AIC. rewrite Hwave. simpl.
  unfold aic_k. rewrite Hstep. simpl.
  rewrite length_fmap, Hlen, Nat.eqb_refl. simpl.
  destruct (Z.of_nat (length lines) - Z.of_nat (np_size coef + 1) - 1 =? 0)%Z eqn:E.
  - apply Z.eqb_eq in E. split; [lia|done].
  - apply Z.eqb_neq in E. split; [done|lia].
Qed.

(** X10.  Without pixel steps [calculate_AIC] divides by [n - k - 1], with
    [n] the number of lines of the list and [k] the number of coefficients
    plus one: on a solution that evaluates, it raises a
    [ZeroDivisionError] exactly when the list has two lines more than the
    solution has coefficients. *)
Theorem calculate_AIC_zero_division self lines (coef : list (list Q)) (p_wave : list Q) :
  step_mode self = false ->
  evaluate_solution self (posc <$> lines) (order <$> lines) (Coef coef) = Ok p_wave ->
  calculate_AIC self lines (Coef coef) = Raise ZeroDivisionError <->
  length lines = (np_size coef + 2)%nat.
Proof. apply calculate_AIC_zero. Qed.

(** *** Mode counting: the indices never decrease *)

Lemma count_true_take_S (cond : list bool) (k : nat) :
  count_true (take (S k) cond) = count_true (take k cond)
  \/ count_true (take (S k) cond) = S (count_true (take k cond)).
Proof.
  destruct (cond !! k) as [b|] eqn:E.
  - rewrite (take_S_r _ _ _ E), count_true_snoc. destruct b; [right|left]; lia.
  - apply lookup_ge_None in E. left. by rewrite !take_ge by lia.
Qed.

Lemma mode_index_lookup (peaks : list Z) (k : nat) :
  mode_index peaks !! k =
  (fun x => (x + 1 * Z.of_nat (count_true (take k
                 (gap_missed (np_median (inject_Z <$> np_diff peaks)) <$> np_diff peaks)))
             + -1 * Z.of_nat (count_true (take k
                 (gap_double (np_median (inject_Z <$> np_diff peaks)) <$> np_diff peaks))))%Z)
    <$> (Z.of_nat <$> seq 0 (length peaks)) !! k.
Proof.
  unfold mode_index. rewrite !foldl_add_from_lookup.
  by destruct ((Z.of_nat <$> seq 0 (length peaks)) !! k).
Qed.

(** X11.  The provisional mode indices of [_find_peaks] are one per peak,
    start at 0 and never decrease: from one peak to the next the index
    grows by 1, by 2 over a gap that is too long, or by 0 after a gap that
    is too short. *)
Theorem mode_index_steps (peaks : list Z) :
  length (mode_index peaks) = length peaks /\
  (forall a, mode_index peaks !! 0%nat = Some a -> a = 0%Z) /\
  forall (k : nat) a b,
    mode_index peaks !! k = Some a -> mode_index peaks !! S k = Some b ->
    (0 <= b - a <= 2)%Z.
Proof.
  split; [|split].
  - unfold mode_index. by rewrite !length_foldl_add_from, length_fmap, length_seq.
  - intros a. rewrite mode_index_lookup, list_lookup_fmap.
    destruct (seq 0 (length peaks) !! 0%nat) as [x|] eqn:E; [|done].
    apply lookup_seq in E as [-> _]. simpl. intros [= <-]. done.
  - intros k a b. rewrite !mode_index_lookup, !list_lookup_fmap.
    destruct (seq 0 (length peaks) !! k) as [x|] eqn:Ek; [|done].
    destruct (seq 0 (length peaks) !! S k) as [y|] eqn:Ey; [|done].
    apply lookup_seq in Ek as [-> _]. apply lookup_seq in Ey as [-> _].
    simpl. intros [= <-] [= <-].
    destruct (count_true_take_S
                (gap_missed (np_median (inject_Z <$> np_diff peaks)) <$> np_diff peaks) k)
      as [-> | ->];
    destruct (count_true_take_S
                (gap_double (np_median (inject_Z <$> np_diff peaks)) <$> np_diff peaks) k)
      as [-> | ->]; lia.
Qed.

(** *** The scaling of [polyfit2d] *)

Lemma Ok_inj {A} (a b : A) : Ok a = Ok b -> a = b.
Proof. congruence. Qed.

Lemma Qpow_0 (a : Q) : Qpow a 0 == 1.
Proof. unfold Qpow. simpl. reflexivity. Qed.

Lemma Qpow_S (a : Q) (s : nat) : Qpow a (S s) == Qpow a s * a.
Proof.
  unfold Qpow. rewrite Nat2Z.inj_succ. unfold Z.succ.
  rewrite Qpower_plus' by lia. by rewrite Qpower_1_r.
Qed.

Lemma polyval_asc_cons (c : Q) (cs : list Q) (x : Q) :
  polyval_asc (c :: cs) x = c + x * polyval_asc cs x.
Proof. reflexivity. Qed.

Lemma polyval_asc_ext (f g : nat -> Q) (s n : nat) (x : Q) :
  (forall k, f k == g k) ->
  polyval_asc (f <$> seq s n) x == polyval_asc (g <$> seq s n) x.
Proof.
  intros Hfg. revert s. induction n as [|n IH]; intros s; [reflexivity|].
  change (seq s (S n)) with (s :: seq (S s) n).
  rewrite !fmap_cons, !polyval_asc_cons, (IH (S s)), (Hfg s). reflexivity.
Qed.

(** Dividing the coefficient of [t^k] by [b * a^k] is evaluating at [t / a]
    and dividing by [b]. *)
Lemma polyval_asc_scale (f : nat -> Q) (a b t : Q) (s n : nat) :
  polyval_asc ((fun k => f k / (b * Qpow a k)) <$> seq s n) t
  == polyval_asc (f <$> seq s n) (t / a) / (b * Qpow a s).
Proof.
  revert s. induction n as [|n IH]; intros s.
  - change (0 == 0 / (b * Qpow a s)). generalize (Qpow a s). intros p.
    unfold Qdiv. ring.
  - change (seq s (S n)) with (s :: seq (S s) n).
    rewrite !fmap_cons, !polyval_asc_cons, (IH (S s)), Qpow_S.
    generalize (polyval_asc (f <$> seq (S s) n) (t / a)). intros v.
    generalize (Qpow a s). intros p.
    unfold Qdiv. rewrite !Qinv_mult_distr. ring.
Qed.

Lemma polyfit2d_rescaled (x y z : list Q) (dx dy : nat) (coeff : list (list Q)) :
  polyfit2d x y z (DegXY dx dy) = Ok coeff ->
  exists norm_x norm_y,
    np_max x = Ok norm_x /\ np_max y = Ok norm_y /\
    length coeff = S dx /\ (forall row, row ∈ coeff -> length row = S dy) /\
    exists C,
      C = scipy_lstsq
            (zip_with (fun xr yr =>
                 (fun '(i, j) => Qpow xr i * Qpow yr j)
                   <$> (i ← seq 0 (S dx); j ← seq 0 (S dy); [(i, j)]))
               ((fun v => v / norm_x) <$> x) ((fun v => v / norm_y) <$> y)) z /\
      forall px py,
        polyval2d px py coeff
        == polyval2d (px / norm_x) (py / norm_y)
             ((fun i => (fun j => nth (i * S dy + j) C 0) <$> seq 0 (S dy))
                <$> seq 0 (S dx)).
Proof.
  unfold polyfit2d. cbv beta iota.
  intros (norm_x & Hx & (norm_y & Hy & H)%bind_Ok)%bind_Ok.
  destruct (_ || _); [done|]. apply Ok_inj in H. subst coeff.
  exists norm_x, norm_y. split; [done|]. split; [done|].
  split; [by rewrite length_fmap, length_seq|]. split.
  { intros row (i & -> & _)%list_elem_of_fmap. by rewrite length_fmap, length_seq. }
  eexists. split; [reflexivity|].
  set (C := scipy_lstsq _ z). intros px py.
  unfold polyval2d. rewrite <- !list_fmap_compose.
  set (R := fun i : nat =>
              polyval_asc ((fun j => nth (i * S dy + j) C 0) <$> seq 0 (S dy))
                          (py / norm_y)).
  transitivity (polyval_asc ((fun i => R i / (1 * Qpow norm_x i)) <$> seq 0 (S dx)) px).
  - apply polyval_asc_ext. intros i. unfold compose.
    rewrite (polyval_asc_scale (fun j => nth (i * S dy + j) C 0) norm_y (Qpow norm_x i)).
    rewrite Qpow_0. generalize (Qpow norm_x i). intros p.
    unfold R, Qdiv. rewrite !Qinv_mult_distr. ring.
  - rewrite (polyval_asc_scale R norm_x 1), Qpow_0.
    transitivity (polyval_asc (R <$> seq 0 (S dx)) (px / norm_x)); [|reflexivity].
    generalize (polyval_asc (R <$> seq 0 (S dx)) (px / norm_x)). intros v.
    unfold Qdiv. rewrite !Qinv_mult_distr. change (/ 1) with 1. ring.
Qed.

(** X12.  [util.polyfit2d] fits the points scaled by the largest [x] and
    the largest [y] and scales the coefficients back: the returned array
    has shape (dx + 1, dy + 1), and the surface it gives at a point
    (px, py) is the surface of the least-squares coefficients [C] of the
    scaled points, taken at (px / max x, py / max y). *)
Theorem polyfit2d_scaling (x y z : list Q) (dx dy : nat) (coeff : list (list Q)) :
  polyfit2d x y z (DegXY dx dy) = Ok coeff ->
  exists norm_x norm_y,
    np_max x = Ok norm_x /\ np_max y = Ok norm_y /\
    length coeff = S dx /\ (forall row, row ∈ coeff -> length row = S dy) /\
    exists C,
      C = scipy_lstsq
            (zip_with (fun xr yr =>
                 (fun '(i, j) => Qpow xr i * Qpow yr j)
                   <$> (i ← seq 0 (S dx); j ← seq 0 (S dy); [(i, j)]))
               ((fun v => v / norm_x) <$> x) ((fun v => v / norm_y) <$> y)) z /\
      forall px py,
        polyval2d px py coeff
        == polyval2d (px / norm_x) (py / norm_y)
             ((fun i => (fun j => nth (i * S dy + j) C 0) <$> seq 0 (S dy))
                <$> seq 0 (S dx)).
Proof. apply polyfit2d_rescaled. Qed.

(** *** Normalization *)

Lemma foldl_Qmax_spec (l : list Q) (x : Q) :
  (foldl Qmax x l = x \/ foldl Qmax x l ∈ l) /\
  x <= foldl Qmax x l /\ forall v, v ∈ l -> v <= foldl Qmax x l.
Proof.
  revert x. induction l as [|a l IH]; intros x; simpl.
  - split; [by left|]. split; [apply Qle_refl|]. by intros v ?%elem_of_nil.
  - destruct (IH (Qmax x a)) as (Hin & Hx & Hall).
    assert (Hxa : x <= Qmax x a /\ a <= Qmax x a /\ (Qmax x a = x \/ Qmax x a = a)).
    { unfold Qmax. destruct (Qle_bool x a) eqn:E.
      - apply Qle_bool_iff in E. split; [done|]. split; [apply Qle_refl|by right].
      - split; [apply Qle_refl|]. split; [|by left].
        destruct (Qlt_le_dec a x) as [?%Qlt_le_weak|Hle]; [done|].
        apply Qle_bool_iff in Hle. congruence. }
    destruct Hxa as (Hx' & Ha' & Hor). split; [|split].
    + destruct Hin as [->|Hin].
      * destruct Hor as [->| ->]; [by left|]. right. apply elem_of_cons. by left.
      * right. apply elem_of_cons. by right.
    + by eapply Qle_trans.
    + intros v [->|Hv]%elem_of_cons; [by eapply Qle_trans|by apply Hall].
Qed.

Lemma np_max_spec (l : list Q) (m : Q) :
  np_max l = Ok m -> m ∈ l /\ forall v, v ∈ l -> v <= m.
Proof.
  destruct l as [|x l]; [done|]. simpl. intros [= <-].
  destruct (foldl_Qmax_spec l x) as (Hin & Hx & Hall). split.
  - apply elem_of_cons. destruct Hin as [->|?]; [by left|by right].
  - intros v [->|Hv]%elem_of_cons; [done|by apply Hall].
Qed.

Lemma foldl_Qmin_spec (l : list Q) (x : Q) :
  (foldl Qmin x l = x \/ foldl Qmin x l ∈ l) /\
  foldl Qmin x l <= x /\ forall v, v ∈ l -> foldl Qmin x l <= v.
Proof.
  revert x. induction l as [|a l IH]; intros x; simpl.
  - split; [by left|]. split; [apply Qle_refl|]. by intros v ?%elem_of_nil.
  - destruct (IH (Qmin x a)) as (Hin & Hx & Hall).
    assert (Hxa : Qmin x a <= x /\ Qmin x a <= a /\ (Qmin x a = x \/ Qmin x a = a)).
    { unfold Qmin. destruct (Qle_bool x a) eqn:E.
      - apply Qle_bool_iff in E. split; [apply Qle_refl|]. split; [done|by left].
      - split; [|split; [apply Qle_refl|by right]].
        destruct (Qlt_le_dec a x) as [?%Qlt_le_weak|Hle]; [done|].
        apply Qle_bool_iff in Hle. congruence. }
    destruct Hxa as (Hx' & Ha' & Hor). split; [|split].
    + destruct Hin as [->|Hin].
      * destruct Hor as [->| ->]; [by left|]. right. apply elem_of_cons. by left.
      * right. apply elem_of_cons. by right.
    + by eapply Qle_trans.
    + intros v [->|Hv]%elem_of_cons; [by eapply Qle_trans|by apply Hall].
Qed.

Lemma np_min_spec (l : list Q) (m : Q) :
  np_min l = Ok m -> m ∈ l /\ forall v, v ∈ l -> m <= v.
Proof.
  destruct l as [|x l]; [done|]. simpl. intros [= <-].
  destruct (foldl_Qmin_spec l x) as (Hin & Hx & Hall). split.
  - apply elem_of_cons. destruct Hin as [->|?]; [by left|by right].
  - intros v [->|Hv]%elem_of_cons; [done|by apply Hall].
Qed.

Lemma elem_of_ma_compressed (a : marray) (v : Q) :
  v ∈ ma_compressed a <-> exists k : nat, a !! k = Some (Some v).
Proof.
  unfold ma_compressed. rewrite list_elem_of_omap. split.
  - intros (o & Ho & Hv). simpl in Hv. subst o. by apply list_elem_of_lookup.
  - intros [k Hk]. exists (Some v). split; [|done]. by eapply list_elem_of_lookup_2.
Qed.

Lemma ma_compressed_fmap (f : Q -> Q) (a : marray) :
  ma_compressed ((fun o : option Q => f <$> o) <$> a) = f <$> ma_compressed a.
Proof.
  unfold ma_compressed. induction a as [|[v|] a IH]; simpl; [done| |done].
  by f_equal.
Qed.

Lemma ma_compressed_view_filter (spec : sarray) :
  ma_compressed (ma_view (filter (fun p : Q * bool => Qltb 0 p.1 = true) spec))
  = filter (fun v => Qltb 0 v = true) (ma_compressed (ma_view spec)).
Proof.
  unfold ma_compressed, ma_view. induction spec as [|[v b] spec IH]; [done|].
  rewrite filter_cons. cbn [fst]. destruct (decide (Qltb 0 v = true)) as [Hv|Hv].
  - rewrite !fmap_cons. cbn [snd fst]. destruct b; cbn [omap list_omap id]; [exact IH|].
    rewrite filter_cons, decide_True by done. by rewrite <- IH.
  - rewrite !fmap_cons. cbn [snd fst]. destruct b; cbn [omap list_omap id]; [exact IH|].
    by rewrite filter_cons, decide_False.
Qed.

Lemma fmap_const_None {A B} (f : A -> option Q) (g : B -> A) (l : list B) :
  (fun _ => None) <$> (f <$> (g <$> l)) = (fun _ => @None Q) <$> l.
Proof. by rewrite <- !list_fmap_compose. Qed.

Lemma ma_compressed_masked {A} (l : list A) :
  ma_compressed ((fun _ => None) <$> l) = [].
Proof. unfold ma_compressed. by induction l. Qed.

Lemma match_nonempty {A B} (l : list A) (x y : B) :
  l <> [] -> match l with [] => x | _ :: _ => y end = y.
Proof. by destruct l. Qed.

(** One order of the observation after the first loop of [normalize]. *)
Lemma normalize_order_cases (spec : sarray) :
  (filter (fun p : Q * bool => Qltb 0 p.1 = true) spec = [] /\
   normalize_order spec = Raise ValueError) \/
  (filter (fun p : Q * bool => Qltb 0 p.1 = true) spec <> [] /\
   filter (fun v => Qltb 0 v = true) (ma_compressed (ma_view spec)) = [] /\
   normalize_order spec = Ok ((fun _ => None) <$> spec)) \/
  (exists m top,
     np_min (filter (fun v => Qltb 0 v = true) (ma_compressed (ma_view spec))) = Ok m /\
     np_max ((fun v => v - m) <$> ma_compressed (ma_view spec)) = Ok top /\
     0 <= top /\
     normalize_order spec
     = Ok (if Qeq_bool top 0 then (fun _ => None) <$> spec
           else (fun o : option Q => (fun v => (v - m) / top) <$> o) <$> ma_view spec)).
Proof.
  unfold normalize_order, ma_min.
  destruct (filter (fun p : Q * bool => Qltb 0 p.1 = true) spec) as [|p ps] eqn:Hsel;
    [by left|].
  right.
  assert (Hspec : exists q qs, spec = q :: qs).
  { destruct spec as [|q qs]; [done|]. eauto. }
  destruct Hspec as (q & qs & Hspec).
  pose proof (ma_compressed_view_filter spec) as Hview. rewrite Hsel in Hview.
  rewrite Hview. clear Hview.
  destruct (ma_view (p :: ps)) as [|o os] eqn:E; [done|]. clear E o os.
  destruct (np_min (filter (fun v => Qltb 0 v = true) (ma_compressed (ma_view spec))))
    as [m|e] eqn:Hm.
  - right. rewrite bind_Ok_l. cbv zeta iota beta. unfold ma_max.
    destruct (np_min_spec _ _ Hm) as [Hin _].
    apply list_elem_of_filter in Hin as [_ Hin].
    rewrite ma_compressed_fmap.
    destruct (np_max ((fun v => v - m) <$> ma_compressed (ma_view spec)))
      as [top|e] eqn:Htop.
    2:{ destruct (ma_compressed (ma_view spec)); [by apply elem_of_nil in Hin|done]. }
    exists m, top. split; [done|]. split; [done|]. split.
    + destruct (np_max_spec _ _ Htop) as [_ Hall].
      assert (H0 : m - m <= top).
      { apply Hall. by apply (list_elem_of_fmap_2 (fun v => v - m)). }
      lra.
    + rewrite match_nonempty by (by rewrite Hspec). rewrite bind_Ok_l.
      destruct (Qeq_bool top 0).
      * f_equal. unfold ma_view. by rewrite <- !list_fmap_compose.
      * f_equal. rewrite <- list_fmap_compose. apply list_fmap_ext.
        intros k [v|] _; done.
  - left. split; [done|]. split.
    { destruct (filter _ (ma_compressed (ma_view spec))); done. }
    rewrite bind_Ok_l. cbv zeta iota beta. unfold ma_max.
    rewrite ma_compressed_masked.
    rewrite match_nonempty by (by rewrite Hspec).
    change (np_max []) with (@Raise Q ValueError). cbv iota. rewrite bind_Ok_l.
    f_equal. unfold ma_view. by rewrite <- !list_fmap_compose.
Qed.

Lemma for_each_snoc_Forall2 {A B} (f : A -> result B) (xs : list A) (acc out : list B) :
  for_each (fun (done : list B) x => s ← f x; Ok (done ++ [s])) xs acc = Ok out ->
  exists ys, out = acc ++ ys /\ Forall2 (fun x y => f x = Ok y) xs ys.
Proof.
  revert acc. induction xs as [|x xs IH]; intros acc; simpl.
  - intros [= <-]. exists []. by rewrite app_nil_r.
  - intros (acc' & (s & Hs & [= <-])%bind_Ok & Hrun)%bind_Ok.
    destruct (IH _ Hrun) as (ys & -> & Hys).
    exists (s :: ys). split; [by rewrite <- app_assoc|]. by constructor.
Qed.

Lemma normalize_obs_rows (obs : list sarray) lines (obs' : list marray) lines' :
  normalize obs lines = Ok (obs', lines') ->
  exists rows : list marray,
    obs' = mask_nonpositive <$> rows /\
    Forall2 (fun spec out => normalize_order spec = Ok out) obs rows /\
    for_each normalize_heights (np_unique (order <$> lines)) lines = Ok lines'.
Proof.
  unfold normalize. intros (rows & Hrows & H)%bind_Ok.
  apply bind_Ok in H as (ls & Hls & [= <- <-]).
  apply for_each_snoc_Forall2 in Hrows as (ys & -> & Hys).
  exists ys. done.
Qed.

Lemma normalize_no_signal (obs : list sarray) lines (spec : sarray) :
  spec ∈ obs -> (forall p, p ∈ spec -> p.1 <= 0) ->
  normalize obs lines = Raise ValueError.
Proof.
  intros Hin Hnone. unfold normalize.
  rewrite (for_each_raise _ _ _ ValueError spec); [done| |done|].
  - intros s y. destruct (normalize_order_cases y) as [[_ ->]|[(_ & _ & ->)|H]].
    + by right.
    + left. simpl. eauto.
    + destruct H as (m & top & _ & _ & _ & ->). left. simpl. eauto.
  - intros s. destruct (normalize_order_cases spec) as [[_ ->]|[(Hne & _)|H]]; [done| |].
    + exfalso. destruct (filter _ spec) as [|p ps] eqn:E; [done|].
      assert (Hp : p ∈ filter (fun p : Q * bool => Qltb 0 p.1 = true) spec)
        by (rewrite E; apply elem_of_cons; by left).
      apply list_elem_of_filter in Hp as [Hp1%Qltb_lt Hp2].
      specialize (Hnone p Hp2). lra.
    + exfalso. destruct H as (m & top & Hm & _).
      destruct (np_min_spec _ _ Hm) as [Hmin _].
      apply list_elem_of_filter in Hmin as [Hpos%Qltb_lt Hmin].
      apply elem_of_ma_compressed in Hmin as [k Hk].
      unfold ma_view in Hk. rewrite list_lookup_fmap in Hk.
      destruct (spec !! k) as [[v b]|] eqn:Hv; [|done]. simpl in Hk.
      destruct b; [done|]. injection Hk as ->.
      specialize (Hnone (m, false) (list_elem_of_lookup_2 _ _ _ Hv)). simpl in Hnone. lra.
Qed.

(** X13.  [normalize] raises a [ValueError] when some order stores no
    positive value.  When it returns, the observation keeps its shape and
    its masked pixels, and every order stores a positive value.  An order
    whose positive values are all under the mask is returned entirely
    masked.  In an order with an unmasked positive value each pixel left
    unmasked holds (v - m) / top with [v] the value it had, [m] the
    smallest positive unmasked value of the order and [top] the largest
    unmasked value minus [m]: a number above 0 and at most 1.  An order
    that keeps an unmasked pixel has one with the value 1. *)
Theorem normalize_observation (obs : list sarray) lines :
  ((exists spec, spec ∈ obs /\ forall p, p ∈ spec -> p.1 <= 0) ->
   normalize obs lines = Raise ValueError) /\
  forall (obs' : list marray) lines',
    normalize obs lines = Ok (obs', lines') ->
    length obs' = length obs /\
    forall (r : nat) (spec : sarray) (spec' : marray),
      obs !! r = Some spec -> obs' !! r = Some spec' ->
      length spec' = length spec /\
      (forall k : nat, ma_view spec !! k = Some None -> spec' !! k = Some None) /\
      (exists p, p ∈ spec /\ 0 < p.1) /\
      ((forall p, p ∈ spec -> 0 < p.1 -> p.2 = true) ->
       forall (k : nat) o, spec' !! k = Some o -> o = None) /\
      ((exists p, p ∈ spec /\ 0 < p.1 /\ p.2 = false) ->
       exists m top,
         np_min (filter (fun v => Qltb 0 v = true) (ma_compressed (ma_view spec))) = Ok m /\
         np_max ((fun v => v - m) <$> ma_compressed (ma_view spec)) = Ok top /\
         forall (k : nat) w, spec' !! k = Some (Some w) ->
           exists v, ma_view spec !! k = Some (Some v) /\ w = (v - m) / top /\
                     0 < w /\ w <= 1) /\
      ((exists (k : nat) w, spec' !! k = Some (Some w)) ->
       exists (k : nat) w, spec' !! k = Some (Some w) /\ w == 1).
Proof.
  split.
  { intros (spec & Hin & Hnone). by apply (normalize_no_signal obs lines spec). }
  intros obs' lines' (rows & -> & Hrows & _)%normalize_obs_rows.
  split; [rewrite length_fmap; symmetry; by eapply Forall2_length|].
  intros r spec spec' Hspec Hspec'.
  rewrite list_lookup_fmap in Hspec'.
  destruct (Forall2_lookup_l _ _ _ _ _ Hrows Hspec) as (out & Hout & Hnorm).
  rewrite Hout in Hspec'. injection Hspec' as <-.
  assert (Hmasked : forall (k : nat) o,
            mask_nonpositive ((fun _ => None) <$> spec) !! k = Some o -> o = None).
  { intros k o. unfold mask_nonpositive. rewrite !list_lookup_fmap.
    destruct (spec !! k); simpl; congruence. }
  assert (Hselected : filter (fun p : Q * bool => Qltb 0 p.1 = true) spec <> [] ->
                      exists p, p ∈ spec /\ 0 < p.1).
  { destruct (filter _ spec) as [|p ps] eqn:E; [done|]. intros _.
    assert (Hp : p ∈ filter (fun p : Q * bool => Qltb 0 p.1 = true) spec)
      by (rewrite E; apply elem_of_cons; by left).
    apply list_elem_of_filter in Hp as [Hp1%Qltb_lt Hp2]. eauto. }
  assert (Hunmasked : forall v, v ∈ ma_compressed (ma_view spec) -> (v, false) ∈ spec).
  { intros v [k Hk]%elem_of_ma_compressed.
    unfold ma_view in Hk. rewrite list_lookup_fmap in Hk.
    destruct (spec !! k) as [[v' b]|] eqn:Hv; [|done]. simpl in Hk.
    destruct b; [done|]. injection Hk as ->. by eapply list_elem_of_lookup_2. }
  destruct (normalize_order_cases spec)
    as [[_ Hraise]|[(Hne & Hnopos & Hall)|(m & top & Hm & Htop & Hpos & Hdiv)]].
  - congruence.
  - rewrite Hall in Hnorm. injection Hnorm as <-.
    split; [unfold mask_nonpositive; by rewrite !length_fmap|].
    split.
    { intros k Hk. unfold mask_nonpositive, ma_view in *.
      rewrite !list_lookup_fmap in *. by destruct (spec !! k). }
    split; [by apply Hselected|]. split; [intros _; exact Hmasked|]. split.
    + intros (p & Hp & Hp0 & Hpm). exfalso.
      assert (Hin : p.1 ∈ filter (fun v => Qltb 0 v = true) (ma_compressed (ma_view spec))).
      { apply list_elem_of_filter. split; [by apply Qltb_lt|].
        apply elem_of_ma_compressed. apply list_elem_of_lookup in Hp as [k Hk].
        exists k. unfold ma_view. rewrite list_lookup_fmap, Hk. simpl. by rewrite Hpm. }
      rewrite Hnopos in Hin. by apply elem_of_nil in Hin.
    + intros (k & w & Hw). by apply Hmasked in Hw.
  - rewrite Hdiv in Hnorm. injection Hnorm as <-.
    assert (Hcase : forall (k : nat) w,
              mask_nonpositive
                (if Qeq_bool top 0 then (fun _ => None) <$> spec
                 else (fun o : option Q => (fun v => (v - m) / top) <$> o) <$> ma_view spec)
                !! k = Some (Some w) ->
              ~ top == 0 /\
              exists v, ma_view spec !! k = Some (Some v) /\ w = (v - m) / top /\ 0 < w).
    { intros k w. unfold mask_nonpositive. rewrite list_lookup_fmap.
      destruct (Qeq_bool top 0) eqn:E.
      - rewrite list_lookup_fmap. by destruct (spec !! k).
      - apply Qeq_bool_neq in E. rewrite list_lookup_fmap.
        destruct (ma_view spec !! k) as [[v|]|]; simpl; try done.
        destruct (Qle_bool ((v - m) / top) 0) eqn:E'; [done|].
        intros [= <-]. split; [done|]. exists v. split; [done|]. split; [done|].
        apply Qltb_lt. unfold Qltb. by rewrite E'. }
    destruct (np_min_spec _ _ Hm) as [Hmin _].
    apply list_elem_of_filter in Hmin as [Hmpos%Qltb_lt Hmin].
    pose proof (Hunmasked m Hmin) as Hmin'.
    split; [|split; [|split; [|split; [|split]]]].
    + unfold mask_nonpositive, ma_view. destruct (Qeq_bool top 0); by rewrite !length_fmap.
    + intros k Hk. unfold mask_nonpositive.
      destruct (Qeq_bool top 0); rewrite !list_lookup_fmap.
      * unfold ma_view in Hk. rewrite list_lookup_fmap in Hk. by destruct (spec !! k).
      * by rewrite Hk.
    + exists (m, false). done.
    + intros Hall. specialize (Hall (m, false) Hmin' Hmpos). done.
    + intros _. exists m, top. split; [done|]. split; [done|].
      intros k w Hw. destruct (Hcase k w Hw) as (Hne & v & Hv & -> & Hw0).
      exists v. repeat (split; [done|]).
      destruct (np_max_spec _ _ Htop) as [_ Hall].
      assert (Hle : v - m <= top).
      { apply Hall. apply (list_elem_of_fmap_2 (fun v => v - m)).
        apply elem_of_ma_compressed. eauto. }
      apply Qle_shift_div_r; [|lra].
      destruct (Qlt_le_dec 0 top) as [?|Hle0]; [done|].
      exfalso. apply Hne. lra.
    + intros (k & w & Hw). destruct (Hcase k w Hw) as (Hne & _).
      destruct (np_max_spec _ _ Htop) as [Hin _].
      apply list_elem_of_fmap in Hin as (v & Hv & Hin).
      apply elem_of_ma_compressed in Hin as [k' Hk'].
      assert (Hone : (v - m) / top == 1).
      { rewrite <- Hv. unfold Qdiv. by apply Qmult_inv_r. }
      exists k', ((v - m) / top). split; [|done].
      unfold mask_nonpositive.
      destruct (Qeq_bool top 0) eqn:E; [by apply Qeq_bool_iff in E|].
      rewrite !list_lookup_fmap, Hk'. simpl.
      destruct (Qle_bool ((v - m) / top) 0) eqn:E'; [|done].
      apply Qle_bool_iff in E'. lra.
Qed.

(** *** Normalization of the line heights *)

Lemma Zinsert_new_sorted (x : Z) (zs : list Z) :
  StronglySorted Z.lt zs -> StronglySorted Z.lt (Zinsert_new x zs).
Proof.
  induction 1 as [|z zs Hs IH Hall]; simpl.
  - repeat constructor.
  - destruct (x <? z)%Z eqn:E1.
    + apply Z.ltb_lt in E1. constructor; [by constructor|].
      constructor; [done|]. eapply Forall_impl; [exact Hall|]. simpl. lia.
    + destruct (x =? z)%Z eqn:E2; [by constructor|].
      apply Z.ltb_ge in E1. apply Z.eqb_neq in E2.
      constructor; [done|]. apply Forall_forall. intros y Hy.
      apply elem_of_Zinsert_new in Hy as [->|Hy]; [lia|].
      rewrite Forall_forall in Hall. by apply Hall.
Qed.

Lemma np_unique_sorted (zs : list Z) : StronglySorted Z.lt (np_unique zs).
Proof.
  unfold np_unique. induction zs as [|z zs IH]; simpl; [constructor|].
  by apply Zinsert_new_sorted.
Qed.

Lemma sorted_NoDup (zs : list Z) : StronglySorted Z.lt zs -> NoDup zs.
Proof.
  induction 1 as [|z zs Hs IH Hall]; [constructor|].
  apply NoDup_cons. split; [|done]. intros Hin.
  rewrite Forall_forall in Hall. specialize (Hall z Hin). lia.
Qed.

Lemma NoDup_np_unique (zs : list Z) : NoDup (np_unique zs).
Proof. apply sorted_NoDup, np_unique_sorted. Qed.

Lemma order_heights_normalized lines0 (us : list Z) l :
  order (heights_normalized lines0 us l) = order l.
Proof. unfold heights_normalized. by destruct (decide _). Qed.

Lemma filter_heights_normalized lines0 (us : list Z) (o : Z) (ls : list line) :
  o ∉ us ->
  filter (fun l => order l = o) (heights_normalized lines0 us <$> ls)
  = filter (fun l => order l = o) ls.
Proof.
  intros Ho. induction ls as [|a ls IH]; [done|].
  rewrite fmap_cons, !filter_cons, order_heights_normalized, IH.
  destruct (decide (order a = o)) as [Ha|Ha]; [|done].
  f_equal. unfold heights_normalized. rewrite decide_False; [done|]. by rewrite Ha.
Qed.

Lemma normalize_heights_loop lines0 (us done : list Z) (lines' : list line) :
  NoDup us -> (forall o, o ∈ us -> o ∉ done) ->
  for_each normalize_heights us (heights_normalized lines0 done <$> lines0) = Ok lines' ->
  lines' = heights_normalized lines0 (reverse us ++ done) <$> lines0.
Proof.
  revert done. induction us as [|o us IH]; intros done Hnd Hdis; simpl.
  - by intros [= <-].
  - intros (cur & Hstep & Hrun)%bind_Ok.
    apply NoDup_cons in Hnd as [Ho Hnd].
    assert (Hod : o ∉ done) by (apply Hdis, elem_of_cons; by left).
    unfold normalize_heights in Hstep.
    rewrite filter_heights_normalized in Hstep by done.
    apply bind_Ok in Hstep as (t & Ht & Hstep). apply Ok_inj in Hstep.
    assert (Hcur : cur = heights_normalized lines0 (o :: done) <$> lines0).
    { rewrite <- Hstep, <- list_fmap_compose. apply list_fmap_ext.
      intros k l _. unfold compose. rewrite order_heights_normalized.
      destruct (decide (order l = o)) as [Hl|Hl].
      - assert (E : heights_normalized lines0 done l = l).
        { unfold heights_normalized. rewrite decide_False; [done|]. by rewrite Hl. }
        rewrite E. unfold heights_normalized.
        rewrite decide_True by (apply elem_of_cons; by left).
        unfold top_height. by rewrite Hl, Ht.
      - unfold heights_normalized.
        destruct (decide (order l ∈ done)) as [Hd|Hd].
        + by rewrite decide_True by (apply elem_of_cons; by right).
        + rewrite decide_False; [done|].
          intros [?|?]%elem_of_cons; done. }
    rewrite Hcur in Hrun. apply IH in Hrun; [|done|].
    + rewrite Hrun, reverse_cons. by rewrite <- app_assoc.
    + intros o' Ho'. intros [->|Hd]%elem_of_cons; [done|].
      by apply (Hdis o'); [apply elem_of_cons; right|].
Qed.

Lemma heights_normalized_nil lines0 (ls : list line) :
  heights_normalized lines0 [] <$> ls = ls.
Proof.
  rewrite <- (list_fmap_id ls) at 2. apply list_fmap_ext.
  intros k l _. unfold heights_normalized. rewrite decide_False; [done|].
  by intros ?%elem_of_nil.
Qed.

Lemma normalize_lines_Ok (obs : list sarray) lines (obs' : list marray) lines' :
  normalize obs lines = Ok (obs', lines') ->
  lines' = (fun l => set_height (height l / top_height lines (order l)) l) <$> lines.
Proof.
  intros (rows & _ & _ & Hrun)%normalize_obs_rows.
  rewrite <- (heights_normalized_nil lines lines) in Hrun at 2.
  apply normalize_heights_loop in Hrun;
    [|apply NoDup_np_unique|by intros o _ ?%elem_of_nil].
  rewrite Hrun. apply list_fmap_ext. intros k l Hl.
  unfold heights_normalized. rewrite decide_True; [done|].
  rewrite app_nil_r, elem_of_reverse, elem_of_np_unique.
  apply list_elem_of_fmap. exists l. split; [done|]. by eapply list_elem_of_lookup_2.
Qed.

(** X14.  [normalize] changes of a line only its height, which it divides
    by the largest height [top] among the lines of the same order: no
    height of the result exceeds 1 when [top] is positive, and a line that
    had the largest height of its order gets the height 1. *)
Theorem normalize_heights_by_order (obs : list sarray) lines (obs' : list marray) lines' :
  normalize obs lines = Ok (obs', lines') ->
  length lines' = length lines /\
  forall (k : nat) l, lines !! k = Some l ->
    exists top,
      np_max (height <$> filter (fun l0 => order l0 = order l) lines) = Ok top /\
      lines' !! k = Some (set_height (height l / top) l) /\
      height l <= top /\
      (0 < top -> height l / top <= 1) /\
      (0 < top -> height l = top -> height l / top == 1).
Proof.
  intros ->%normalize_lines_Ok. split; [by rewrite length_fmap|].
  intros k l Hl.
  assert (Hin : height l ∈ height <$> filter (fun l0 => order l0 = order l) lines).
  { apply list_elem_of_fmap_2, list_elem_of_filter. split; [done|].
    by eapply list_elem_of_lookup_2. }
  destruct (np_max (height <$> filter (fun l0 => order l0 = order l) lines))
    as [top|e] eqn:Htop.
  2: { destruct (height <$> filter _ lines); [by apply elem_of_nil in Hin|done]. }
  exists top. split; [done|].
  destruct (np_max_spec _ _ Htop) as [_ Hall]. specialize (Hall _ Hin).
  split; [|split; [done|split]].
  - rewrite list_lookup_fmap, Hl. simpl. unfold top_height. by rewrite Htop.
  - intros Hpos. apply Qle_shift_div_r; [done|lra].
  - intros Hpos ->. unfold Qdiv. apply Qmult_inv_r. lra.
Qed.

(** *** The whole procedure *)

Lemma reject_lines_Some self lines :
  exists out, reject_lines self lines = Some out.
Proof.
  destruct (reject_lines_fuel_terminates self (length lines) lines
              (count_flagged_le lines)) as (out & Hout & _).
  by exists out.
Qed.

Lemma execute_loop_Some self (obs : list marray) (n : nat) lines :
  exists out, execute_loop self obs n lines = Some out.
Proof.
  revert lines. induction n as [|n IH]; intros lines; simpl; [eauto|].
  destruct (_ ≫= _) as [lines1|e]; [|eauto].
  destruct (reject_lines_Some self lines1) as [[[[lines2 res] nbad]|e] ->]; eauto.
Qed.

Lemma execute_Some self (obs : list sarray) lines :
  exists out, execute self obs lines = Some out.
Proof.
  unfold execute. cbv zeta. destruct (polarim self); [eauto|].
  destruct (_ ≫= _) as [[obs1 lines1]|e]; [|eauto].
  destruct (execute_loop_Some (set_shape (length obs) (shape1 obs) self)
              obs1 (iterations (set_shape (length obs) (shape1 obs) self)) lines1)
    as [[lines2|e] ->]; [|eauto].
  destruct (_ ≫= _); eauto.
Qed.

(** X15.  [execute] ends on every input: it returns or raises, the
    rejection loops inside always stop.  With the [polarim] setting it
    raises [NotImplementedError] before it looks at its arguments. *)
Theorem execute_terminates self (obs : list sarray) lines :
  (exists out, execute self obs lines = Some out) /\
  (polarim self = true -> execute self obs lines = Some RaisesNotImplemented).
Proof.
  split; [apply execute_Some|]. intros Hp. unfold execute. by rewrite Hp.
Qed.

Lemma same_entry_refl l : same_entry l l.
Proof. done. Qed.

Lemma same_entry_trans l1 l2 l3 :
  same_entry l1 l2 -> same_entry l2 l3 -> same_entry l1 l3.
Proof. intros [? ?] [? ?]. split; congruence. Qed.

Lemma Forall2_same_entry_trans lines1 lines2 lines3 :
  Forall2 same_entry lines1 lines2 -> Forall2 same_entry lines2 lines3 ->
  Forall2 same_entry lines1 lines3.
Proof.
  intros H12. revert lines3. induction H12 as [|l1 l2 ls1 ls2 H Hs IH]; intros lines3 H23.
  - by inversion H23.
  - inversion H23 as [|? l3 ? ls3 H' Hs']; subst. constructor.
    + by eapply same_entry_trans.
    + by apply IH.
Qed.

Lemma Forall2_same_entry_fmap (f : line -> line) lines :
  (forall l, same_entry l (f l)) -> Forall2 same_entry lines (f <$> lines).
Proof.
  intros Hf. induction lines as [|l ls IH]; simpl; constructor; [apply Hf|done].
Qed.

Lemma Forall2_same_entry_lookup lines lines' :
  length lines' = length lines ->
  (forall (k : nat) l l', lines !! k = Some l -> lines' !! k = Some l' -> same_entry l l') ->
  Forall2 same_entry lines lines'.
Proof.
  intros Hlen Hall. apply Forall2_same_length_lookup_2; [done|].
  intros k l l' Hl Hl'. by eapply Hall.
Qed.

Lemma fit_line_same_entry self (obs : list marray) (coef : option (list Q)) l
    (r : line * option (list Q)) :
  fit_line self obs coef l = Ok r -> same_entry l r.1.
Proof.
  intros [Hout Hin]%fit_line_Ok. destruct (outside_image obs l).
  - by rewrite (Hout eq_refl).
  - destruct (Hin eq_refl) as (x & section & _ & Hmu & He & _).
    destruct (gaussfit2 x section ≫= fun c => py_index c 1) as [mu|e].
    + by rewrite (Hmu mu eq_refl).
    + by rewrite (He e eq_refl).
Qed.

Lemma fit_lines_same_entry self (obs : list marray) lines lines' :
  fit_lines self obs lines = Ok lines' -> Forall2 same_entry lines lines'.
Proof.
  unfold fit_lines. intros (s' & Hrun & [= <-])%bind_Ok.
  destruct (fit_lines_loop _ _ _ _ _ Hrun) as (ls & Hs' & Hlen & Hall).
  simpl in Hs'. rewrite Hs'.
  apply Forall2_same_entry_lookup; [done|].
  intros k l l' Hl Hl'. destruct (Hall k l Hl) as (coef & r & Hr & Hk).
  assert (l' = r.1) as -> by congruence. by eapply fit_line_same_entry.
Qed.

Lemma auto_id_same_entry self (obs : list marray) (wave_img : list (list Q)) lines lines' :
  auto_id self obs wave_img lines = Ok lines' -> Forall2 same_entry lines lines'.
Proof.
  intros H. destruct (auto_id_loop_lookup _ _ _ _ _ H) as [Hlen Hall].
  apply Forall2_same_entry_lookup; [done|].
  intros k l l' Hl Hl'.
  destruct (auto_id_line_cases _ _ _ _ _ (Hall k l l' Hl Hl'))
    as [->|(_ & low & peaks & residual & k0 & p & r & _ & _ & _ & _ & _ & ->)]; done.
Qed.

Lemma reject_lines_same_entry self lines lines' res nbad :
  reject_lines self lines = Some (Ok (lines', res, nbad)) ->
  Forall2 same_entry lines lines'.
Proof.
  intros [Hlen Hall]%reject_lines_cleared.
  apply Forall2_same_entry_lookup; [done|].
  intros k l l' Hl Hl'. destruct (Hall k l l' Hl Hl') as [->|[_ ->]]; done.
Qed.

(** What the loop of [execute] leaves: the entries of the list, and, after
    at least one pass, a fit of the flagged lines within the threshold. *)
Lemma execute_loop_Ok self (obs : list marray) (n : nat) lines lines' :
  execute_loop self obs n lines = Some (Ok lines') ->
  Forall2 same_entry lines lines' /\
  ((0 < n)%nat ->
   exists sol res,
     build_2d_solution self lines' = Ok sol /\
     calculate_residual self sol lines' = Ok res /\
     ma_any_gt (ma_abs res) (threshold self) = false).
Proof.
  revert lines. induction n as [|n IH]; intros lines; simpl.
  - intros [= <-]. split; [|lia].
    apply Forall2_same_entry_lookup; [done|]. intros k l l' ? ?. by simplify_eq.
  - destruct (_ ≫= _) as [lines1|e] eqn:Hid; [|done].
    apply bind_Ok in Hid as (sol & _ & Hid). apply bind_Ok in Hid as (img & _ & Hid).
    destruct (reject_lines self lines1) as [[[[lines2 res] nbad]|e]|] eqn:Hrej; try done.
    intros Hrun. destruct (IH _ Hrun) as [Hsame Hfit]. split.
    + eapply Forall2_same_entry_trans; [by eapply auto_id_same_entry|].
      eapply Forall2_same_entry_trans; [by eapply reject_lines_same_entry|done].
    + intros _. destruct n as [|n]; [|apply Hfit; lia].
      simpl in Hrun. injection Hrun as <-.
      destruct (reject_lines_fuel_invariant _ _ _ _ _ _ Hrej) as [(sol' & Hb & Hr) Hany].
      by exists sol', res.
Qed.

Lemma execute_Returns self (obs : list sarray) lines (wave_img : list (list Q)) sol lines' :
  execute self obs lines = Some (Returns (wave_img, sol, lines')) ->
  polarim self = false /\
  Forall2 same_entry lines lines' /\
  build_2d_solution (set_shape (length obs) (shape1 obs) self) lines' = Ok sol /\
  make_wave (set_shape (length obs) (shape1 obs) self) sol = Ok wave_img /\
  (exists a, calculate_AIC (set_shape (length obs) (shape1 obs) self) lines' sol = Ok a) /\
  ((0 < iterations self)%nat ->
   exists res,
     calculate_residual (set_shape (length obs) (shape1 obs) self) sol lines' = Ok res /\
     ma_any_gt (ma_abs res) (threshold self) = false).
Proof.
  unfold execute. cbv zeta. destruct (polarim self); [done|].
  set (self' := set_shape (length obs) (shape1 obs) self).
  destruct (_ ≫= _) as [[obs1 lines1]|e] eqn:Hpre; [|done].
  destruct (execute_loop self' obs1 (iterations self') lines1)
    as [[lines2|e]|] eqn:Hloop; try done.
  destruct (build_2d_solution self' lines2 ≫= _) as [r|e] eqn:Hfin; [|done].
  intros Heq. assert (Hr : r = (wave_img, sol, lines')) by congruence.
  subst r. clear Heq.
  apply bind_Ok in Hfin as (sol' & Hb & Hfin).
  apply bind_Ok in Hfin as (img & Hw & Hfin).
  apply bind_Ok in Hfin as (a & Ha & [= <- <- <-]).
  destruct (execute_loop_Ok _ _ _ _ _ Hloop) as [Hsame Hfit].
  split; [done|]. split.
  - apply bind_Ok in Hpre as ([obs2 lines0] & Hnorm & Hpre).
    apply bind_Ok in Hpre as (lines3 & Halign & Hpre).
    apply bind_Ok in Hpre as (lines4 & Hfitted & [= <- <-]). simpl in *.
    apply normalize_lines_Ok in Hnorm as ->.
    apply align_rigid in Halign as (d_order & d_x & ->).
    apply fit_lines_same_entry in Hfitted.
    eapply Forall2_same_entry_trans; [|exact Hsame].
    eapply Forall2_same_entry_trans; [|exact Hfitted].
    rewrite <- !list_fmap_compose.
    apply Forall2_same_entry_fmap. intros l. done.
  - split; [done|]. split; [done|]. split; [by exists a|].
    intros Hit. destruct (Hfit Hit) as (sol0 & res & Hb0 & Hres & Hany).
    exists res. split; [|done]. congruence.
Qed.

(** X16.  What [execute] returns belongs together: the solution is the
    fit of the flagged lines of the line list as the call leaves it, the
    image is that solution on the grid of the observation, and every line
    is still the catalogue entry it was (wavelength and width unchanged, no
    line added or removed).  Without pixel steps the image has the shape
    of the observation and at least one line is flagged.  After one
    iteration or more, on a line list without the catalogue wavelength 0,
    no flagged line has a velocity residual above the threshold. *)
Theorem execute_result self (obs : list sarray) lines (wave_img : list (list Q)) sol lines' :
  execute self obs lines = Some (Returns (wave_img, sol, lines')) ->
  length lines' = length lines /\
  (forall (k : nat) l l', lines !! k = Some l -> lines' !! k = Some l' ->
     wll l' = wll l /\ width l' = width l) /\
  build_2d_solution (set_shape (length obs) (shape1 obs) self) lines' = Ok sol /\
  make_wave (set_shape (length obs) (shape1 obs) self) sol = Ok wave_img /\
  (step_mode self = false ->
   length wave_img = length obs /\
   (forall row, row ∈ wave_img -> length row = shape1 obs) /\
   (0 < count_flagged lines')%nat) /\
  ((0 < iterations self)%nat ->
   (forall l, l ∈ lines -> ~ wll l == 0) ->
   exists wave,
     evaluate_solution (set_shape (length obs) (shape1 obs) self)
       (posm <$> lines') (order <$> lines') sol = Ok wave /\
     forall (k : nat) l, lines' !! k = Some l -> flag l = true ->
       ~ wll l == 0 /\
       exists w, wave !! k = Some w /\
         Qabs ((w - wll l) / wll l * speed_of_light) <= threshold self).
Proof.
  intros (Hp & Hsame & Hb & Hw & _ & Hfit)%execute_Returns.
  split; [symmetry; by eapply Forall2_length|]. split.
  { intros k l l' Hl Hl'. exact (Forall2_lookup_lr _ _ _ _ _ _ Hsame Hl Hl'). }
  split; [done|]. split; [done|]. split.
  - intros Hs.
    assert (Hs' : step_mode (set_shape (length obs) (shape1 obs) self) = false) by done.
    destruct (make_wave_Ok _ _ _ Hs' Hw) as [Hlen Hrows].
    split; [done|]. split.
    + intros row (r & Hr)%list_elem_of_lookup. by destruct (Hrows r row Hr).
    + destruct (build_Ok_flagged _ _ _ Hs' Hb) as (k & l & Hk & Hf).
      by eapply count_flagged_pos.
  - intros Hit Hwll. destruct (Hfit Hit) as (res & Hres & Hany).
    destruct (calculate_residual_Ok _ _ _ _ Hres) as (wave & Hwave & Hlen & ->).
    exists wave. split; [done|]. intros k l Hl Hf. split.
    { destruct (Forall2_lookup_r _ _ _ _ _ Hsame Hl) as (l0 & Hl0 & [Hw0 _]).
      rewrite Hw0. apply Hwll. by eapply list_elem_of_lookup_2. }
    assert (Hk : exists w, wave !! k = Some w).
    { apply lookup_lt_is_Some. rewrite Hlen. by eapply lookup_lt_Some. }
    destruct Hk as [w Hwk]. exists w. split; [done|].
    apply (proj1 (ma_any_gt_false _ _) Hany k).
    rewrite ma_abs_lookup, lookup_zip_with, Hwk, Hl. simpl. by rewrite Hf.
Qed.

Lemma length_concat_rows {A} (c : list (list A)) (m : nat) :
  (forall row, row ∈ c -> length row = m) -> length (concat c) = (length c * m)%nat.
Proof.
  induction c as [|row c IH]; intros Hall; simpl; [done|].
  rewrite length_app, IH, (Hall row).
  - done.
  - apply elem_of_cons. by left.
  - intros r Hr. apply Hall, elem_of_cons. by right.
Qed.

(** X17.  In 2D mode without pixel steps a solution of degree (dx, dy) has
    (dx + 1)(dy + 1) coefficients, and the criterion computed at the end of
    [execute] divides by the number of lines minus that number minus 2:
    on a line list of exactly (dx + 1)(dy + 1) + 2 lines, flagged or not,
    [execute] never returns, it raises. *)
Theorem execute_line_count self (obs : list sarray) lines (dx dy : nat) :
  polarim self = false -> step_mode self = false -> mode self = Mode2D ->
  degree self = DegXY dx dy ->
  length lines = (S dx * S dy + 2)%nat ->
  exists e, execute self obs lines = Some (Raises e).
Proof.
  intros Hp Hs Hm Hd Hn.
  destruct (execute_Some self obs lines) as [[[[wave_img sol] lines']|e|] Hout];
    [|by exists e|].
  - exfalso.
    pose proof (execute_Returns _ _ _ _ _ _ Hout) as (_ & Hsame & Hb & _ & [a Ha] & _).
    apply Forall2_length in Hsame.
    set (self' := set_shape (length obs) (shape1 obs) self) in *.
    assert (Hs' : step_mode self' = false) by done.
    assert (Hcoef : exists coef, sol = Coef coef /\ np_size coef = (S dx * S dy)%nat).
    { unfold build_2d_solution in Hb. rewrite Hs' in Hb.
      change (mode self') with (mode self) in Hb.
      change (degree self') with (degree self) in Hb.
      rewrite Hm, Hd in Hb.
      apply bind_Ok in Hb as (coef & Hfit & [= <-]).
      exists coef. split; [done|].
      destruct (polyfit2d_rescaled _ _ _ _ _ _ Hfit)
        as (nx & ny & _ & _ & Hlen & Hrows & _).
      unfold np_size. by rewrite (length_concat_rows coef (S dy)), Hlen. }
    destruct Hcoef as (coef & -> & Hsize).
    assert (Hev : exists p_wave,
              evaluate_solution self' (posc <$> lines') (order <$> lines') (Coef coef)
              = Ok p_wave).
    { unfold calculate_AIC in Ha. by destruct (evaluate_solution _ _ _ _) as [p|]; eauto. }
    destruct Hev as [p_wave Hev].
    assert (Hz : calculate_AIC self' lines' (Coef coef) = Raise ZeroDivisionError).
    { apply (calculate_AIC_zero self' lines' coef p_wave Hs' Hev). lia. }
    congruence.
  - unfold execute in Hout. cbv zeta in Hout. rewrite Hp in Hout.
    destruct (_ ≫= _) as [[obs1 lines1]|e]; [|done].
    destruct (execute_loop _ _ _ _) as [[lines2|e]|]; try done.
    by destruct (_ ≫= _).
Qed.

(** *** Manual alignment: the click handler *)

Lemma on_click_tuple ap (event : MouseEvent) (a b : Z) :
  ap_offset ap = PyTuple a b -> ap_offset (on_click ap event).1 = PyTuple a b.
Proof.
  intros Hoff. unfold on_click.
  destruct (ydata event) as [y|]; [|done].
  destruct (xdata event) as [x|]; [|done].
  destruct (ap_first ap); [done|].
  destruct (same_spectrum _ _); [done|].
  by rewrite Hoff.
Qed.

Lemma on_clicks_tuple (events : list MouseEvent) ap (a b : Z) :
  ap_offset ap = PyTuple a b -> ap_offset (on_clicks ap events) = PyTuple a b.
Proof.
  unfold on_clicks. revert ap. induction events as [|e events IH]; intros ap Hoff; [done|].
  simpl. apply IH. by apply on_click_tuple.
Qed.

(** X18.  With the offset held in a tuple, as [align_manual] creates the
    plot ([offset=(0, 0)] is the default), no sequence of clicks changes
    the offset: the click that completes a pair on the two spectra raises
    a [TypeError] at the item assignment, after the handler has reset
    [first]. *)
Theorem on_click_tuple_offset (events : list MouseEvent) ap (a b : Z) :
  ap_offset ap = PyTuple a b ->
  ap_offset (on_clicks ap events) = PyTuple a b /\
  forall (x y : Q),
    ap_first ap = false ->
    same_spectrum (if Qltb (1 # 2) (y - inject_Z (Qfloor y)) then RefSpectrum
                   else ObsSpectrum) (ap_spec_first ap) = false ->
    (on_click ap {| xdata := Some x; ydata := Some y |}).2 = Some TypeError /\
    ap_first (on_click ap {| xdata := Some x; ydata := Some y |}).1 = true.
Proof.
  intros Hoff. split; [by apply on_clicks_tuple|].
  intros x y Hfirst Hspec. unfold on_click. simpl.
  rewrite Hfirst, Hspec, Hoff. done.
Qed.

Lemma Qle_bool_false (a b : Q) : Qle_bool a b = false <-> b < a.
Proof.
  split.
  - intros E. apply Qnot_le_lt. intros H. apply Qle_bool_iff in H. congruence.
  - intros H. destruct (Qle_bool a b) eqn:E; [|done].
    apply Qle_bool_iff in E. lra.
Qed.

Lemma py_int_opp (q q' : Q) : q' == - q -> py_int q' = (- py_int q)%Z.
Proof.
  intros Hq. unfold py_int, Qceiling.
  destruct (Qle_bool 0 q) eqn:E; destruct (Qle_bool 0 q') eqn:E'.
  - apply Qle_bool_iff in E, E'.
    assert (H0 : q == 0) by lra. assert (H0' : q' == 0) by lra.
    rewrite H0, H0'. done.
  - assert (Hq' : - q' == q) by (rewrite Hq; ring).
    rewrite Hq'. lia.
  - assert (Hq' : - q == q') by (rewrite Hq; reflexivity).
    rewrite Hq'. lia.
  - apply Qle_bool_false in E, E'. lra.
Qed.

(** X19.  With the offset held in a list, a click on the reference
    spectrum and a click on the observed spectrum move the offset by the
    difference of the two positions (observed minus reference: orders by
    the difference of the rows clicked, pixels by the truncated difference
    of the columns), in whichever order the two clicks come, and leave the
    plot waiting for a new pair. *)
Theorem on_click_pair ap (a b : Z) (x_ref y_ref x_obs y_obs : Q) :
  ap_first ap = true -> ap_offset ap = PyList a b ->
  Qltb (1 # 2) (y_ref - inject_Z (Qfloor y_ref)) = true ->
  Qltb (1 # 2) (y_obs - inject_Z (Qfloor y_obs)) = false ->
  let on_ref := {| xdata := Some x_ref; ydata := Some y_ref |} in
  let on_obs := {| xdata := Some x_obs; ydata := Some y_obs |} in
  let moved := PyList (a + (Qfloor y_obs - Qfloor y_ref))
                      (b + py_int (x_obs - x_ref)) in
  ap_offset (on_clicks ap [on_ref; on_obs]) = moved /\
  ap_offset (on_clicks ap [on_obs; on_ref]) = moved /\
  ap_first (on_clicks ap [on_ref; on_obs]) = true /\
  ap_first (on_clicks ap [on_obs; on_ref]) = true.
Proof.
  intros Hfirst Hoff Href Hobs on_ref on_obs moved.
  unfold on_clicks, on_click, moved. simpl.
  rewrite Hfirst, Href, Hobs. simpl. rewrite Hoff. simpl.
  rewrite (py_int_opp (x_obs - x_ref) (x_ref - x_obs)) by ring.
  repeat split; f_equal; lia.
Qed.

(** *** Helpers of util.py *)

Lemma find_first_index_Some {A} `{EqDecision A} (arr : list A) (value : A) (k : nat) :
  find_first_index arr value = Some k <->
  arr !! k = Some value /\ forall j : nat, (j < k)%nat -> arr !! j <> Some value.
Proof.
  revert k. induction arr as [|v arr IH]; intros k; simpl.
  - split; [done|]. by intros [? _].
  - destruct (decide (v = value)) as [->|Hne].
    + split.
      * intros [= <-]. split; [done|]. intros j Hj. lia.
      * intros [Hk Hmin]. destruct k as [|k]; [done|].
        exfalso. apply (Hmin 0%nat); [lia|done].
    + destruct (find_first_index arr value) as [k'|] eqn:E; simpl.
      * split.
        -- intros [= <-]. destruct (proj1 (IH k') eq_refl) as [Hk Hmin].
           split; [done|]. intros [|j] Hj; simpl; [congruence|]. apply Hmin. lia.
        -- intros [Hk Hmin]. destruct k as [|k]; [simpl in Hk; congruence|].
           assert (Hkk : Some k' = Some k); [|congruence].
           apply (proj2 (IH k)). split; [done|].
           intros j Hj. apply (Hmin (S j)). lia.
      * split; [done|]. intros [Hk Hmin].
        destruct k as [|k]; [simpl in Hk; congruence|].
        assert (None = Some k); [|done].
        apply (proj2 (IH k)). split; [done|]. intros j Hj. apply (Hmin (S j)). lia.
Qed.

(** X20.  [find_first_index] returns the position of the first element
    equal to the value: the element there is the value and no earlier one
    is.  It raises (here: [None]) exactly when the value does not occur. *)
Theorem find_first_index_first {A} `{EqDecision A} (arr : list A) (value : A) :
  (forall k : nat,
     find_first_index arr value = Some k <->
     arr !! k = Some value /\ forall j : nat, (j < k)%nat -> arr !! j <> Some value) /\
  (find_first_index arr value = None <-> value ∉ arr).
Proof.
  split; [apply find_first_index_Some|].
  induction arr as [|v arr IH]; simpl.
  - split; [by intros _ ?%elem_of_nil|done].
  - destruct (decide (v = value)) as [->|Hne].
    + split; [done|]. intros Hn. exfalso. apply Hn, elem_of_cons. by left.
    + destruct (find_first_index arr value) as [k'|]; simpl.
      * split; [done|]. intros Hn. exfalso.
        assert (Hin : value ∉ arr) by (intros ?; apply Hn, elem_of_cons; by right).
        by apply IH in Hin.
      * split; [|done]. intros _ [?|Hin]%elem_of_cons; [done|].
        by apply (proj1 IH).
Qed.

(** *** Interpolation over masked values *)

Lemma sample_points_cons (s : nat) (o : option Q) (a : marray) :
  sample_points s (o :: a) =
  match o with
  | Some _ => inject_Z (Z.of_nat s) :: sample_points (S s) a
  | None => sample_points (S s) a
  end.
Proof.
  unfold sample_points, np_where_from. simpl. rewrite filter_cons. simpl.
  by destruct o as [v|].
Qed.

Lemma length_sample_points (s : nat) (a : marray) :
  length (sample_points s a) = length (ma_compressed a).
Proof.
  revert s. induction a as [|[v|] a IH]; intros s; [done| |];
    rewrite sample_points_cons; unfold ma_compressed in *; simpl; by rewrite ?IH.
Qed.

Lemma sample_points_ge (s : nat) (a : marray) :
  Forall (fun x => inject_Z (Z.of_nat s) <= x) (sample_points s a).
Proof.
  revert s. induction a as [|o a IH]; intros s; [constructor|].
  rewrite sample_points_cons.
  assert (Hs : Forall (fun x => inject_Z (Z.of_nat s) <= x) (sample_points (S s) a)).
  { eapply Forall_impl; [apply IH|]. simpl. intros x Hx.
    eapply Qle_trans; [|exact Hx]. rewrite <- Zle_Qle. lia. }
  destruct o; [constructor; [apply Qle_refl|done]|done].
Qed.

Lemma sample_points_gt (s : nat) (a : marray) :
  Forall (fun x => inject_Z (Z.of_nat s) < x) (sample_points (S s) a).
Proof.
  eapply Forall_impl; [apply sample_points_ge|]. simpl. intros x Hx.
  eapply Qlt_le_trans; [|exact Hx]. rewrite <- Zlt_Qlt. lia.
Qed.

Lemma interp_from_at_sample (x xa fa : Q) (xp fp : list Q) :
  x == xa -> Forall (fun xb => x < xb) xp -> interp_from x xa fa xp fp == fa.
Proof.
  intros Hx Hall. destruct xp as [|xb xp], fp as [|fb fp]; simpl; try reflexivity.
  apply Forall_cons in Hall as [Hlt _].
  apply Qltb_lt in Hlt. rewrite Hlt.
  assert (H0 : x - xa == 0) by lra. rewrite H0. ring.
Qed.

Lemma Qltb_inject_ge (s k : nat) :
  Qltb (inject_Z (Z.of_nat (s + k))) (inject_Z (Z.of_nat s)) = false.
Proof. apply Qltb_ge. rewrite <- Zle_Qle. lia. Qed.

Lemma interp_from_cons (x xa fa xb fb : Q) (xp fp : list Q) :
  interp_from x xa fa (xb :: xp) (fb :: fp) =
  if Qltb x xb then (fb - fa) / (xb - xa) * (x - xa) + fa
  else interp_from x xb fb xp fp.
Proof. reflexivity. Qed.

Lemma ma_compressed_cons (o : option Q) (a : marray) :
  ma_compressed (o :: a) =
  match o with Some v => v :: ma_compressed a | None => ma_compressed a end.
Proof. by destruct o. Qed.

(** To the right of a sample, the search reaches the sample at an unmasked
    position and returns its value. *)
Lemma interp_from_unmasked (a : marray) (s k : nat) (v xa fa : Q) :
  a !! k = Some (Some v) ->
  interp_from (inject_Z (Z.of_nat (s + k))) xa fa (sample_points s a) (ma_compressed a)
  == v.
Proof.
  revert s k xa fa. induction a as [|o a IH]; intros s k xa fa Hk; [done|].
  rewrite sample_points_cons, ma_compressed_cons. destruct k as [|k].
  - apply (f_equal (fun r => default None r)) in Hk. simpl in Hk. subst o.
    rewrite interp_from_cons, Qltb_inject_ge.
    apply interp_from_at_sample.
    + by rewrite Nat.add_0_r.
    + rewrite Nat.add_0_r. apply sample_points_gt.
  - change ((o :: a) !! S k) with (a !! k) in Hk.
    destruct o as [v0|].
    + rewrite interp_from_cons, Qltb_inject_ge.
      replace (s + S k)%nat with (S s + k)%nat by lia. by apply IH.
    + replace (s + S k)%nat with (S s + k)%nat by lia. by apply IH.
Qed.

Lemma np_interp_unmasked (a : marray) (s k : nat) (v xa fa : Q) (xp fp : list Q) :
  a !! k = Some (Some v) ->
  sample_points s a = xa :: xp -> ma_compressed a = fa :: fp ->
  (if Qltb (inject_Z (Z.of_nat (s + k))) xa then fa
   else interp_from (inject_Z (Z.of_nat (s + k))) xa fa xp fp) == v.
Proof.
  revert s k. induction a as [|o a IH]; intros s k Hk; [done|].
  rewrite sample_points_cons, ma_compressed_cons. destruct o as [v0|].
  - intros [= <- <-] [= <- <-].
    rewrite Qltb_inject_ge. destruct k as [|k].
    + apply (f_equal (fun r => default None r)) in Hk. simpl in Hk.
      injection Hk as ->. apply interp_from_at_sample.
      * by rewrite Nat.add_0_r.
      * rewrite Nat.add_0_r. apply sample_points_gt.
    + change ((Some v0 :: a) !! S k) with (a !! k) in Hk.
      replace (s + S k)%nat with (S s + k)%nat by lia.
      by apply interp_from_unmasked.
  - destruct k as [|k]; [done|].
    change ((None :: a) !! S k) with (a !! k) in Hk.
    intros Hxp Hfp.
    replace (s + S k)%nat with (S s + k)%nat by lia. by apply IH.
Qed.

Lemma interp_between (lo hi x xa xb fa fb : Q) :
  xa <= x -> x < xb -> lo <= fa <= hi -> lo <= fb <= hi ->
  lo <= (fb - fa) / (xb - xa) * (x - xa) + fa <= hi.
Proof.
  intros Hxa Hxb [Ha1 Ha2] [Hb1 Hb2].
  set (t := (x - xa) / (xb - xa)).
  assert (Ht0 : 0 <= t) by (apply Qle_shift_div_l; lra).
  assert (Ht1 : t <= 1) by (apply Qle_shift_div_r; lra).
  assert (Hv : (fb - fa) / (xb - xa) * (x - xa) + fa == fa + t * (fb - fa)).
  { unfold t, Qdiv. ring. }
  rewrite Hv.
  assert (H1 : 0 <= (1 - t) * (fa - lo)) by (apply Qmult_le_0_compat; lra).
  assert (H2 : 0 <= t * (fb - lo)) by (apply Qmult_le_0_compat; lra).
  assert (H3 : 0 <= (1 - t) * (hi - fa)) by (apply Qmult_le_0_compat; lra).
  assert (H4 : 0 <= t * (hi - fb)) by (apply Qmult_le_0_compat; lra).
  split; lra.
Qed.

Lemma interp_from_bounds (lo hi x : Q) (xp fp : list Q) (xa fa : Q) :
  xa <= x -> lo <= fa <= hi -> Forall (fun f => lo <= f <= hi) fp ->
  lo <= interp_from x xa fa xp fp <= hi.
Proof.
  revert fp xa fa. induction xp as [|xb xp IH]; intros fp xa fa Hxa Hfa Hall; [done|].
  destruct fp as [|fb fp]; [done|]. simpl.
  apply Forall_cons in Hall as [Hfb Hall].
  destruct (Qltb x xb) eqn:E.
  - apply Qltb_lt in E. by apply interp_between.
  - apply Qltb_ge in E. by apply IH.
Qed.

Lemma interpolate_masked_Ok (masked : marray) (out : list Q) :
  interpolate_masked masked = Ok out ->
  exists xa fa xp fp,
    sample_points 0 masked = xa :: xp /\ ma_compressed masked = fa :: fp /\
    out = (fun v => if Qltb v xa then fa else interp_from v xa fa xp fp)
            <$> ((fun k => inject_Z (Z.of_nat k)) <$> seq 0 (length masked)).
Proof.
  unfold interpolate_masked.
  change ((fun k => inject_Z (Z.of_nat k)) <$> np_where _)
    with (sample_points 0 masked).
  unfold np_interp.
  destruct (sample_points 0 masked) as [|xa xp]; [done|].
  destruct (ma_compressed masked) as [|fa fp]; [done|].
  destruct (negb _); [done|]. intros [= <-]. by exists xa, fa, xp, fp.
Qed.

(** X21.  [interpolate_masked] raises a [ValueError] when no value is
    unmasked (an empty or fully masked array).  Otherwise it returns an
    array of the same length, in which every unmasked value is kept and
    every value, interpolated or not, lies between the smallest and the
    largest unmasked value. *)
Theorem interpolate_masked_values (masked : marray) :
  (ma_compressed masked = [] -> interpolate_masked masked = Raise ValueError) /\
  (ma_compressed masked <> [] ->
   exists out lo hi,
     interpolate_masked masked = Ok out /\ length out = length masked /\
     np_min (ma_compressed masked) = Ok lo /\ np_max (ma_compressed masked) = Ok hi /\
     (forall (k : nat) v, masked !! k = Some (Some v) ->
        exists w, out !! k = Some w /\ w == v) /\
     (forall (k : nat) w, out !! k = Some w -> lo <= w <= hi)).
Proof.
  split.
  - intros Hnil. unfold interpolate_masked, np_interp. rewrite Hnil.
    by destruct (_ <$> np_where _).
  - intros Hne.
    assert (Hout : exists out, interpolate_masked masked = Ok out).
    { unfold interpolate_masked.
      change ((fun k => inject_Z (Z.of_nat k)) <$> np_where _)
        with (sample_points 0 masked).
      unfold np_interp. pose proof (length_sample_points 0 masked) as Hlen.
      destruct (sample_points 0 masked) as [|xa xp];
        destruct (ma_compressed masked) as [|fa fp]; try done.
      simpl in Hlen. injection Hlen as Hlen. apply Nat.eqb_eq in Hlen.
      rewrite Hlen. simpl. eauto. }
    destruct Hout as [out Hout].
    destruct (interpolate_masked_Ok _ _ Hout) as (xa & fa & xp & fp & Hxp & Hfp & ->).
    destruct (np_min (ma_compressed masked)) as [lo|e] eqn:Hlo;
      [|by destruct (ma_compressed masked)].
    destruct (np_max (ma_compressed masked)) as [hi|e] eqn:Hhi;
      [|by destruct (ma_compressed masked)].
    eexists _, lo, hi. split; [exact Hout|].
    split; [by rewrite !length_fmap, length_seq|].
    split; [done|]. split; [done|]. split.
    + intros k v Hk. rewrite !list_lookup_fmap.
      rewrite lookup_seq_lt by (by eapply lookup_lt_Some). simpl.
      eexists. split; [reflexivity|].
      by apply (np_interp_unmasked masked 0 k v xa fa xp fp).
    + intros k w. rewrite !list_lookup_fmap.
      destruct (seq 0 (length masked) !! k) as [k'|] eqn:Ek; [|done].
      simpl. intros [= <-].
      destruct (np_min_spec _ _ Hlo) as [_ Hmin].
      destruct (np_max_spec _ _ Hhi) as [_ Hmax].
      assert (Hall : Forall (fun f => lo <= f <= hi) (fa :: fp)).
      { rewrite <- Hfp. apply Forall_forall. intros f Hf. split; auto. }
      apply Forall_cons in Hall as [Hfa Hall].
      destruct (Qltb _ xa) eqn:E; [done|].
      apply Qltb_ge in E. by apply interp_from_bounds.
Qed.

(** *** [execute] does not read the flags and [posc] it is given *)

Lemma for_each_fmap {A B S} (body : S -> B -> result S) (f : A -> B) (xs : list A) (s : S) :
  for_each body (f <$> xs) s = for_each (fun s x => body s (f x)) xs s.
Proof.
  revert s. induction xs as [|x xs IH]; intros s; [done|].
  rewrite fmap_cons. simpl. destruct (body s (f x)); simpl; [apply IH|done].
Qed.

Lemma for_each_ext {A S} (body1 body2 : S -> A -> result S) (xs : list A) (s : S) :
  (forall s x, body1 s x = body2 s x) -> for_each body1 xs s = for_each body2 xs s.
Proof.
  intros Hext. revert s. induction xs as [|x xs IH]; intros s; [done|].
  simpl. rewrite Hext. destruct (body2 s x); simpl; [apply IH|done].
Qed.

Lemma for_each_commute {A S} (body : S -> A -> result S) (g : S -> S) (xs : list A) (s : S) :
  (forall s x, body (g s) x = g <$> body s x) ->
  for_each body xs (g s) = g <$> for_each body xs s.
Proof.
  intros Hg. revert s. induction xs as [|x xs IH]; intros s; [done|].
  simpl. rewrite Hg. destruct (body s x); simpl; [apply IH|done].
Qed.

Lemma fmap_unmarked_order (ls : list line) : order <$> (unmarked <$> ls) = order <$> ls.
Proof. rewrite <- list_fmap_compose. by apply list_fmap_ext. Qed.

Lemma filter_order_unmarked (o : Z) (ls : list line) :
  filter (fun l => order l = o) (unmarked <$> ls)
  = unmarked <$> filter (fun l => order l = o) ls.
Proof.
  induction ls as [|l ls IH]; [done|].
  rewrite fmap_cons, !filter_cons, IH.
  change (order (unmarked l)) with (order l).
  by destruct (decide (order l = o)).
Qed.

Lemma normalize_heights_unmarked (ls : list line) (o : Z) :
  normalize_heights (unmarked <$> ls) o = (fun c : list line => unmarked <$> c) <$> normalize_heights ls o.
Proof.
  unfold normalize_heights. rewrite filter_order_unmarked, <- list_fmap_compose.
  change (height ∘ unmarked) with height.
  destruct (np_max _) as [t|e]; [|done]. simpl. f_equal.
  rewrite <- !list_fmap_compose. apply list_fmap_ext. intros k l _. unfold compose.
  change (order (unmarked l)) with (order l).
  by destruct (decide (order l = o)).
Qed.

Lemma normalize_unmarked (obs : list sarray) (ls : list line) :
  normalize obs (unmarked <$> ls)
  = (fun ol : list marray * list line => (ol.1, unmarked <$> ol.2)) <$> normalize obs ls.
Proof.
  unfold normalize. destruct (for_each _ obs []) as [rows|e]; [|done]. simpl.
  rewrite fmap_unmarked_order.
  rewrite (for_each_commute normalize_heights (fun c : list line => unmarked <$> c));
    [|intros s x; apply normalize_heights_unmarked].
  by destruct (for_each normalize_heights _ ls).
Qed.

Lemma create_image_unmarked self (ls : list line) :
  create_image_from_lines self (unmarked <$> ls) = create_image_from_lines self ls.
Proof.
  unfold create_image_from_lines. rewrite fmap_unmarked_order.
  destruct (np_min_Z _) as [mn|e]; [|done]. simpl.
  destruct (np_max_Z _) as [mx|e]; [|done]. simpl.
  by rewrite for_each_fmap.
Qed.

Lemma zip_with_unmarked (f : line -> line) (mask : list bool) (ls : list line) :
  (forall l, f (unmarked l) = unmarked (f l)) ->
  zip_with (fun (b : bool) l => if b then f l else l) mask (unmarked <$> ls)
  = unmarked <$> zip_with (fun (b : bool) l => if b then f l else l) mask ls.
Proof.
  intros Hf. revert ls. induction mask as [|b mask IH]; intros [|l ls]; try done.
  rewrite fmap_cons. simpl. rewrite IH. by destruct b; rewrite ?Hf.
Qed.

Lemma apply_alignment_offset_unmarked (ls : list line) (offset : Z * Z) sel :
  apply_alignment_offset (unmarked <$> ls) offset sel
  = (fun c : list line => unmarked <$> c) <$> apply_alignment_offset ls offset sel.
Proof.
  rewrite !apply_alignment_offset_eq. destruct sel as [mask|]; simpl.
  - rewrite length_fmap. destruct (decide _); [|done]. simpl. f_equal.
    by apply zip_with_unmarked.
  - f_equal. rewrite <- !list_fmap_compose. by apply list_fmap_ext.
Qed.

Lemma align_orders_unmarked self (obs : list (list Q)) (offset : Z * Z) (ls : list line) :
  align_orders self obs offset (unmarked <$> ls)
  = (fun c : list line => unmarked <$> c) <$> align_orders self obs offset ls.
Proof.
  unfold align_orders. rewrite create_image_unmarked.
  destruct (create_image_from_lines self ls) as [img|e]; [|done]. simpl.
  apply (for_each_commute _ (fun c : list line => unmarked <$> c)). intros cur z.
  destruct (py_index obs z) as [obs_i|e]; [|done]. simpl.
  destruct (py_index img z) as [img_i|e]; [|done]. simpl.
  destruct (np_argmax _) as [k|e]; [|done]. simpl.
  rewrite <- apply_alignment_offset_unmarked. f_equal. f_equal.
  rewrite <- list_fmap_compose. by apply list_fmap_ext.
Qed.

Lemma align_unmarked self (obs : list marray) (ls : list line) :
  manual self = false -> plot self = 0%nat ->
  align self obs (unmarked <$> ls) = (fun c : list line => unmarked <$> c) <$> align self obs ls.
Proof.
  intros Hman Hplot. unfold align. rewrite Hman, Hplot, create_image_unmarked.
  destruct (create_image_from_lines self ls) as [img|e]; [|done].
  rewrite !bind_Ok_l.
  destruct (np_argmax _) as [k|e]; [|done]. rewrite !bind_Ok_l.
  rewrite apply_alignment_offset_unmarked.
  destruct (apply_alignment_offset ls _ None) as [cur|e]; [|done].
  change ((fun c : list line => unmarked <$> c) <$> Ok cur) with (Ok (unmarked <$> cur)).
  rewrite !bind_Ok_l.
  destruct (Qeq_bool (shift_window self) 0); [done|].
  rewrite align_orders_unmarked.
  by destruct (align_orders _ _ _ cur).
Qed.

Lemma execute_unmarked self (obs : list sarray) (ls : list line) :
  manual self = false -> plot self = 0%nat ->
  execute self obs (unmarked <$> ls) = execute self obs ls.
Proof.
  intros Hman Hplot. unfold execute. cbv zeta.
  destruct (polarim self); [done|].
  rewrite normalize_unmarked.
  destruct (normalize obs ls) as [[obs1 ls1]|e]; [|done]. simpl.
  rewrite align_unmarked by done.
  destruct (align _ obs1 ls1) as [ls2|e]; [|done]. simpl.
  rewrite <- !list_fmap_compose. done.
Qed.

(** X22.  In automatic mode without plots [execute] reads neither the
    flags nor the [posc] of the line list it is given (it overwrites both
    after the alignment): two lists that differ in those two columns at
    most give the same outcome, the same image, solution and final list or
    the same exception. *)
Theorem execute_ignores_flag_and_posc self (obs : list sarray) (lines1 lines2 : list line) :
  manual self = false -> plot self = 0%nat ->
  (fun l => set_flag true (set_posc 0 l)) <$> lines1
  = (fun l => set_flag true (set_posc 0 l)) <$> lines2 ->
  execute self obs lines1 = execute self obs lines2.
Proof.
  intros Hman Hplot Heq.
  rewrite <- (execute_unmarked self obs lines1 Hman Hplot).
  rewrite <- (execute_unmarked self obs lines2 Hman Hplot).
  unfold unmarked. by rewrite Heq.
Qed.

(** *** The peaks of the frequency comb *)

Lemma for_each_length {A B} (body : list B -> A -> result (list B)) (xs : list A)
    (s s' : list B) :
  (forall s x s', body s x = Ok s' -> length s' = S (length s)) ->
  for_each body xs s = Ok s' -> length s' = (length s + length xs)%nat.
Proof.
  intros Hbody. revert s. induction xs as [|x xs IH]; intros s; simpl.
  - intros [= <-]. lia.
  - intros (s1 & H1 & Hrun)%bind_Ok. rewrite (IH _ Hrun), (Hbody _ _ _ H1). lia.
Qed.

Lemma length_mode_index (peaks : list Z) : length (mode_index peaks) = length peaks.
Proof. unfold mode_index. by rewrite !length_foldl_add_from, length_fmap, length_seq. Qed.

Lemma find_peaks_Ok self (comb : marray) (n : list Z) (new_peaks : list Q) :
  _find_peaks self comb = Ok (n, new_peaks) ->
  length new_peaks = length n /\ length n <> 1%nat.
Proof.
  unfold _find_peaks. destruct (length comb =? 0)%nat; [done|].
  intros (peaks0 & _ & H)%bind_Ok.
  apply bind_Ok in H as (peaks & _ & H).
  apply bind_Ok in H as (out & Hrun & [= <- <-]).
  rewrite length_mode_index, length_fmap.
  assert (Hlen : length out = length peaks).
  { apply for_each_length in Hrun; [by rewrite Hrun, length_fmap|].
    intros s x s' Hs. destruct (_ <$> np_mean _) as [w|]; [|done].
    apply bind_Ok in Hs as (c_idx & _ & Hs).
    apply bind_Ok in Hs as (coef & _ & Hs).
    apply bind_Ok in Hs as (mu & _ & [= <-]).
    rewrite length_app. simpl. lia. }
  split; [done|]. intros H1.
  destruct peaks as [|p [|q peaks]]; done.
Qed.

(** X23.  [_find_peaks] returns one refined position per mode index.  It
    raises a [ValueError] on an empty comb, and it never returns for a comb
    in which exactly one peak is found: the half width of the fit window is
    the mean of no gap. *)
Theorem find_peaks_lengths self (comb : marray) :
  (comb = [] -> _find_peaks self comb = Raise ValueError) /\
  (forall (n : list Z) (new_peaks : list Q),
     _find_peaks self comb = Ok (n, new_peaks) ->
     length new_peaks = length n /\ length n <> 1%nat).
Proof.
  split; [by intros ->|]. intros n new_peaks. apply find_peaks_Ok.
Qed.

End Coverage.

(** ** The further properties on concrete inputs *)

Lemma evaluate_solution_shape_witness :
  evaluate_solution (L := ref) arc_1d [0; 1] [0%Z] arc_solution = Raise ValueError /\
  forall wave,
    evaluate_solution (L := ref) arc_1d [0; 1] [0%Z; 0%Z] arc_solution = Ok wave ->
    length wave = 2%nat.
Proof.
  split.
  - apply (proj1 (evaluate_solution_shape (L := ref) arc_1d [0; 1] [0%Z] arc_solution)).
    simpl. lia.
  - intros wave Hwave.
    apply (proj2 (evaluate_solution_shape (L := ref) arc_1d [0; 1] [0%Z; 0%Z]
                    arc_solution) eq_refl wave Hwave).
Defined.

(** The order -1 selects the last row of the coefficients. *)
Lemma evaluate_solution_1d_witness :
  step_mode arc_1d = false /\ mode arc_1d = Mode1D /\
  evaluate_solution (L := ref) arc_1d [0; 2] [0%Z; (-1)%Z] (Coef [[1; 5000]; [2; 6000]])
  = Ok [5000; 6004] /\
  evaluate_solution (L := ref) arc_1d [0; 2] [0%Z; 2%Z] (Coef [[1; 5000]; [2; 6000]])
  = Raise IndexError.
Proof.
  split; [reflexivity|]. split; [reflexivity|]. split; [vm_compute; reflexivity|].
  apply (proj2 (proj2 (evaluate_solution_1d (L := ref) arc_1d [0; 2] [0%Z; 2%Z]
                         [[1; 5000]; [2; 6000]] eq_refl eq_refl eq_refl)) 2%Z).
  - apply elem_of_cons. right. apply elem_of_cons. by left.
  - reflexivity.
Defined.

Lemma make_wave_image_witness :
  step_mode arc_1d = false /\
  exists img,
    make_wave (L := ref) (G := reference_grid) arc_1d arc_solution = Ok img /\
    length img = nord arc_1d.
Proof.
  split; [reflexivity|].
  destruct (make_wave (L := ref) (G := reference_grid) arc_1d arc_solution)
    as [img|e] eqn:E; [|vm_compute in E; discriminate].
  exists img. split; [reflexivity|].
  apply (make_wave_image (L := ref) (G := reference_grid) arc_1d arc_solution img
           eq_refl E).
Defined.

(** All the lines of [arc_lines] are of order 0: no image of two orders. *)
Lemma make_wave_1d_orders_witness :
  step_mode arc_1d_two = false /\ mode arc_1d_two = Mode1D /\
  build_2d_solution (L := ref) arc_1d_two arc_lines = Ok arc_solution /\
  make_wave (L := ref) (G := reference_grid) arc_1d_two arc_solution = Raise IndexError.
Proof.
  split; [reflexivity|]. split; [reflexivity|]. split; [vm_compute; reflexivity|].
  destruct (make_wave_1d_orders (L := ref) (G := reference_grid) arc_1d_two arc_lines
              arc_solution eq_refl eq_refl) as (mx & Hmx & _ & Hraise).
  - vm_compute; reflexivity.
  - vm_compute in Hmx. injection Hmx as <-. apply Hraise; vm_compute; [reflexivity|lia].
Defined.

Lemma reject_lines_frame_witness :
  reject_lines (L := ref) arc_1d arc_lines
  = Some (Ok (arc_lines_kept, arc_residual_kept, 1%nat)) /\
  length arc_lines_kept = length arc_lines.
Proof.
  split; [vm_compute; reflexivity|].
  apply (reject_lines_frame (L := ref) arc_1d arc_lines arc_lines_kept
           arc_residual_kept 1).
  vm_compute; reflexivity.
Defined.

(** [arc_lines] under the threshold 100 and under the threshold -1. *)
Lemma reject_lines_keeps_a_line_witness :
  step_mode arc_1d = false /\
  reject_lines (L := ref) arc_1d arc_lines
  = Some (Ok (arc_lines_kept, arc_residual_kept, 1%nat)) /\
  ((0 < count_flagged arc_lines_kept)%nat /\ (1 < count_flagged arc_lines)%nat) /\
  threshold arc_1d_strict < 0 /\
  (forall l, l ∈ arc_lines -> flag l = true -> ~ wll l == 0) /\
  reject_lines (L := ref) arc_1d_strict arc_lines = Some (Raise ValueError) /\
  exists e, reject_lines (L := ref) arc_1d_strict arc_lines = Some (Raise e).
Proof.
  assert (Hwll : forall l, l ∈ arc_lines -> flag l = true -> ~ wll l == 0).
  { intros l Hl _ H.
    repeat (apply elem_of_cons in Hl as [->|Hl]; [vm_compute in H; discriminate|]).
    by apply elem_of_nil in Hl. }
  split; [reflexivity|]. split; [vm_compute; reflexivity|]. split.
  { apply (proj1 (reject_lines_keeps_a_line (L := ref) arc_1d arc_lines eq_refl)
             arc_lines_kept arc_residual_kept 1%nat).
    vm_compute; reflexivity. }
  split; [reflexivity|]. split; [exact Hwll|]. split; [vm_compute; reflexivity|].
  apply (proj2 (reject_lines_keeps_a_line (L := ref) arc_1d_strict arc_lines eq_refl));
    [reflexivity|exact Hwll].
Defined.

Lemma auto_id_inside_image_witness :
  auto_id (L := ref) arc_1d id_obs id_wave [mk_line 5002 1 false; mk_line 5003 2 false]
  = Ok [set_posm (inject_Z 2) (set_flag true (mk_line 5002 1 false));
        mk_line 5003 2 false] /\
  (count_flagged [mk_line 5002 1 false; mk_line 5003 2 false]
   <= count_flagged [set_posm (inject_Z 2) (set_flag true (mk_line 5002 1 false));
                     mk_line 5003 2 false])%nat.
Proof.
  split; [vm_compute; reflexivity|].
  apply (proj1 (auto_id_inside_image (L := ref) arc_1d id_obs id_wave
                  [mk_line 5002 1 false; mk_line 5003 2 false] _ eq_refl)).
Defined.

Lemma align_moves_rigidly_witness :
  exists lines',
    align (L := ref) arc_1d masked_obs [mk_line 5000 5 true; mk_line 5001 6 false]
    = Ok lines' /\
    exists (d_order : Z) (d_x : Z -> Z),
      lines' = (fun l => shift_line (d_order, d_x (order l)) l)
                 <$> [mk_line 5000 5 true; mk_line 5001 6 false].
Proof.
  destruct (align (L := ref) arc_1d masked_obs [mk_line 5000 5 true; mk_line 5001 6 false])
    as [lines'|e] eqn:E; [|vm_compute in E; discriminate].
  exists lines'. split; [reflexivity|].
  apply (align_moves_rigidly (L := ref) arc_1d masked_obs
           [mk_line 5000 5 true; mk_line 5001 6 false] lines' E).
Defined.

Lemma create_image_from_lines_shape_witness :
  create_image_from_lines (L := ref) arc_1d [] = Raise ValueError /\
  create_image_from_lines (L := ref) arc_1d tall_lines
  = Ok [[0; 4; 4; 0; 2; 2; 0; 0; 0; 0]; [0; 0; 3; 3; 0; 0; 0; 0; 0; 0]] /\
  exists mn mx,
    np_min_Z (order <$> tall_lines) = Ok mn /\ np_max_Z (order <$> tall_lines) = Ok mx /\
    length [[0; 4; 4; 0; 2; 2; 0; 0; 0; 0]; [0; 0; 3; 3; 0; 0; 0; 0; 0; 0]]
    = Z.to_nat (mx - mn + 1).
Proof.
  split.
  - by apply (proj1 (create_image_from_lines_shape (L := ref) arc_1d [])).
  - split; [vm_compute; reflexivity|].
    destruct (proj2 (create_image_from_lines_shape (L := ref) arc_1d tall_lines)
                [[0; 4; 4; 0; 2; 2; 0; 0; 0; 0]; [0; 0; 3; 3; 0; 0; 0; 0; 0; 0]])
      as (mn & mx & Hmn & Hmx & Hlen & _); [vm_compute; reflexivity|].
    by exists mn, mx.
Defined.

(** Three lines and one coefficient. *)
Lemma calculate_AIC_zero_division_witness :
  step_mode arc_const = false /\
  evaluate_solution (L := ref) arc_const
    (posc <$> [mk_line 5001 1 true; mk_line 5003 2 false; mk_line 5004 3 true])
    (order <$> [mk_line 5001 1 true; mk_line 5003 2 false; mk_line 5004 3 true])
    (Coef [[5000]])
  = Ok [5000; 5000; 5000] /\
  calculate_AIC (L := ref) arc_const
    [mk_line 5001 1 true; mk_line 5003 2 false; mk_line 5004 3 true] (Coef [[5000]])
  = Raise ZeroDivisionError.
Proof.
  split; [reflexivity|]. split; [vm_compute; reflexivity|].
  apply (calculate_AIC_zero_division (L := ref) arc_const
           [mk_line 5001 1 true; mk_line 5003 2 false; mk_line 5004 3 true]
           [[5000]] [5000; 5000; 5000]); [reflexivity|vm_compute; reflexivity|].
  vm_compute; reflexivity.
Defined.

Lemma mode_index_steps_witness :
  mode_index [0; 10; 20; 41; 45]%Z = [0; 1; 2; 4; 4]%Z /\
  length (mode_index [0; 10; 20; 41; 45]%Z) = 5%nat.
Proof.
  split; [vm_compute; reflexivity|].
  apply (proj1 (mode_index_steps [0; 10; 20; 41; 45]%Z)).
Defined.

Lemma polyfit2d_scaling_witness :
  polyfit2d (L := ref) [0; 1; 2] [1; 1; 2] [5000; 5001; 5003] (DegXY 1 0)
  = Ok [[29999 # 6]; [3 # 2]] /\
  exists norm_x norm_y,
    np_max [0; 1; 2] = Ok norm_x /\ np_max [1; 1; 2] = Ok norm_y /\
    length [[29999 # 6]; [3 # 2]] = 2%nat.
Proof.
  split; [vm_compute; reflexivity|].
  destruct (polyfit2d_scaling (L := ref) [0; 1; 2] [1; 1; 2] [5000; 5001; 5003] 1 0
              [[29999 # 6]; [3 # 2]])
    as (norm_x & norm_y & Hx & Hy & Hlen & _); [vm_compute; reflexivity|].
  by exists norm_x, norm_y.
Defined.

(** [stored_order] is scaled from its unmasked values, [hidden_order] is
    returned masked, and with [dark_order] the call raises. *)
Lemma normalize_observation_witness :
  normalize [stored_order; hidden_order] tall_lines
  = Ok ([[None; None; None; Some (3 # 3); Some (1 # 3); None]; [None; None]],
        [set_height (4 # 4) (Line 5000 2 2 0 1 4 true 1 3);
         set_height (2 # 4) (Line 5001 5 5 0 1 2 true 4 6);
         set_height (3 # 3) (Line 6000 3 3 1 1 3 false 2 4)]) /\
  length [[None; None; None; Some (3 # 3); Some (1 # 3); None]; [None; None]]
  = length [stored_order; hidden_order] /\
  normalize [stored_order; dark_order] tall_lines = Raise ValueError.
Proof.
  split; [vm_compute; reflexivity|]. split.
  - apply (proj2 (normalize_observation [stored_order; hidden_order] tall_lines)
             [[None; None; None; Some (3 # 3); Some (1 # 3); None]; [None; None]]
             [set_height (4 # 4) (Line 5000 2 2 0 1 4 true 1 3);
              set_height (2 # 4) (Line 5001 5 5 0 1 2 true 4 6);
              set_height (3 # 3) (Line 6000 3 3 1 1 3 false 2 4)]).
    vm_compute; reflexivity.
  - apply (proj1 (normalize_observation [stored_order; dark_order] tall_lines)).
    exists dark_order. split.
    + apply elem_of_cons. right. apply elem_of_cons. by left.
    + intros p Hp.
      repeat (apply elem_of_cons in Hp as [->|Hp]; [vm_compute; discriminate|]).
      by apply elem_of_nil in Hp.
Defined.

Lemma normalize_heights_by_order_witness :
  normalize [stored_order] tall_lines
  = Ok ([[None; None; None; Some (3 # 3); Some (1 # 3); None]],
        [set_height (4 # 4) (Line 5000 2 2 0 1 4 true 1 3);
         set_height (2 # 4) (Line 5001 5 5 0 1 2 true 4 6);
         set_height (3 # 3) (Line 6000 3 3 1 1 3 false 2 4)]) /\
  length [set_height (4 # 4) (Line 5000 2 2 0 1 4 true 1 3);
          set_height (2 # 4) (Line 5001 5 5 0 1 2 true 4 6);
          set_height (3 # 3) (Line 6000 3 3 1 1 3 false 2 4)]
  = length tall_lines.
Proof.
  split; [vm_compute; reflexivity|].
  apply (normalize_heights_by_order [stored_order] tall_lines
           [[None; None; None; Some (3 # 3); Some (1 # 3); None]]
           [set_height (4 # 4) (Line 5000 2 2 0 1 4 true 1 3);
            set_height (2 # 4) (Line 5001 5 5 0 1 2 true 4 6);
            set_height (3 # 3) (Line 6000 3 3 1 1 3 false 2 4)]).
  vm_compute; reflexivity.
Defined.

Lemma execute_terminates_witness :
  polarim run_polarim = true /\
  execute (L := ref) (plt := reference_plot) (G := reference_grid) run_polarim run_obs run_lines
  = Some RaisesNotImplemented.
Proof.
  split; [reflexivity|].
  apply (proj2 (execute_terminates (L := ref) (plt := reference_plot) (G := reference_grid) run_polarim
                  run_obs run_lines) eq_refl).
Defined.

(** A run on [peaks_obs] that ends with three flagged lines, none of
    them on the fitted dispersion and all within the threshold. *)
Lemma execute_result_witness :
  execute (L := ref) (plt := reference_plot) (G := reference_grid) run_1d peaks_obs
    peaks_lines
  = Some (Returns peaks_result) /\
  count_flagged peaks_result.2 = 3%nat /\
  length peaks_result.2 = length peaks_lines /\
  build_2d_solution (L := ref) (set_shape (length peaks_obs) (shape1 peaks_obs) run_1d)
    peaks_result.2 = Ok peaks_result.1.2 /\
  (0 < iterations run_1d)%nat /\
  (forall l, l ∈ peaks_lines -> ~ wll l == 0) /\
  exists wave,
    evaluate_solution (L := ref) (set_shape (length peaks_obs) (shape1 peaks_obs) run_1d)
      (posm <$> peaks_result.2) (order <$> peaks_result.2) peaks_result.1.2 = Ok wave /\
    (forall (k : nat) l, peaks_result.2 !! k = Some l -> flag l = true ->
       ~ wll l == 0 /\
       exists w, wave !! k = Some w /\
         Qabs ((w - wll l) / wll l * speed_of_light) <= threshold run_1d) /\
    (forall (k : nat) l w, peaks_result.2 !! k = Some l -> wave !! k = Some w ->
       ~ w == wll l).
Proof.
  assert (Hwll : forall l, l ∈ peaks_lines -> ~ wll l == 0).
  { intros l Hl H.
    repeat (apply elem_of_cons in Hl as [->|Hl]; [vm_compute in H; discriminate|]).
    by apply elem_of_nil in Hl. }
  split; [vm_compute; reflexivity|]. split; [vm_compute; reflexivity|].
  destruct (execute_result (L := ref) (plt := reference_plot) (G := reference_grid)
              run_1d peaks_obs peaks_lines
              peaks_result.1.1 peaks_result.1.2 peaks_result.2)
    as (Hlen & _ & Hbuild & _ & _ & Hbound); [vm_compute; reflexivity|].
  split; [exact Hlen|]. split; [exact Hbuild|]. split; [vm_compute; lia|].
  split; [exact Hwll|].
  destruct (Hbound ltac:(vm_compute; lia) Hwll) as (wave & Hwave & Hres).
  exists wave. split; [exact Hwave|]. split; [exact Hres|].
  vm_compute in Hwave. injection Hwave as <-.
  intros k l w Hl Hw H.
  do 3 (destruct k as [|k];
        [injection Hl as <-; injection Hw as <-; vm_compute in H; discriminate|]).
  discriminate.
Defined.

(** Three lines and the constant surface of degree (0, 0). *)
Lemma execute_line_count_witness :
  polarim run_const = false /\ step_mode run_const = false /\
  mode run_const = Mode2D /\ degree run_const = DegXY 0 0 /\
  length (run_lines ++ [Line 5009 9 0 0 1 1 false 8 10]) = (1 * 1 + 2)%nat /\
  exists e,
    execute (L := ref) (plt := reference_plot) (G := reference_grid) run_const run_obs
      (run_lines ++ [Line 5009 9 0 0 1 1 false 8 10]) = Some (Raises e).
Proof.
  repeat (split; [reflexivity|]).
  by apply (execute_line_count (L := ref) (plt := reference_plot) (G := reference_grid) run_const run_obs
              (run_lines ++ [Line 5009 9 0 0 1 1 false 8 10]) 0 0).
Defined.

(** A click on the observed and one on the reference spectrum. *)
Lemma on_click_tuple_offset_witness :
  ap_offset (new_AlignmentPlot (PyTuple 0 0)) = PyTuple 0 0 /\
  ap_offset (on_clicks (new_AlignmentPlot (PyTuple 0 0))
               [{| xdata := Some 3; ydata := Some (1 # 4) |};
                {| xdata := Some 7; ydata := Some (7 # 4) |}])
  = PyTuple 0 0.
Proof.
  split; [reflexivity|].
  by apply (proj1 (on_click_tuple_offset
                     [{| xdata := Some 3; ydata := Some (1 # 4) |};
                      {| xdata := Some 7; ydata := Some (7 # 4) |}]
                     (new_AlignmentPlot (PyTuple 0 0)) 0 0 eq_refl)).
Defined.

Lemma on_click_pair_witness :
  ap_first (new_AlignmentPlot (PyList 0 0)) = true /\
  ap_offset (on_clicks (new_AlignmentPlot (PyList 0 0))
               [{| xdata := Some (15 # 2); ydata := Some (7 # 4) |};
                {| xdata := Some 3; ydata := Some (1 # 4) |}])
  = PyList (-1) (-4) /\
  ap_offset (on_clicks (new_AlignmentPlot (PyList 0 0))
               [{| xdata := Some 3; ydata := Some (1 # 4) |};
                {| xdata := Some (15 # 2); ydata := Some (7 # 4) |}])
  = PyList (-1) (-4).
Proof.
  split; [reflexivity|].
  destruct (on_click_pair (new_AlignmentPlot (PyList 0 0)) 0 0 (15 # 2) (7 # 4) 3 (1 # 4)
              eq_refl eq_refl eq_refl eq_refl) as (H1 & H2 & _).
  by split.
Defined.

Lemma find_first_index_first_witness :
  find_first_index [3; 5; 7; 5]%Z 5%Z = Some 1%nat /\
  find_first_index [3; 5; 7; 5]%Z 4%Z = None.
Proof.
  split.
  - apply (proj1 (find_first_index_first [3; 5; 7; 5]%Z 5%Z) 1%nat).
    split; [reflexivity|]. intros [|j] Hj; [discriminate|lia].
  - apply (proj2 (find_first_index_first [3; 5; 7; 5]%Z 4%Z)).
    intros Hin. repeat (apply elem_of_cons in Hin as [Hin|Hin]; [discriminate|]).
    by apply elem_of_nil in Hin.
Defined.

Lemma interpolate_masked_values_witness :
  interpolate_masked [None; None] = Raise ValueError /\
  ma_compressed partly_masked <> [] /\
  exists out,
    interpolate_masked partly_masked = Ok out /\ length out = length partly_masked.
Proof.
  split.
  - by apply (proj1 (interpolate_masked_values [None; None])).
  - split; [vm_compute; discriminate|].
    destruct (proj2 (interpolate_masked_values partly_masked))
      as (out & lo & hi & Hout & Hlen & _); [vm_compute; discriminate|].
    by exists out.
Defined.

(** [run_lines] with other flags and other original positions. *)
Lemma execute_ignores_flag_and_posc_witness :
  manual run_1d = false /\ plot run_1d = 0%nat /\
  execute (L := ref) (plt := reference_plot) (G := reference_grid) run_1d run_obs
    [Line 5002 2 9 0 1 1 true 1 4; Line 5007 7 3 0 1 1 false 6 9]
  = execute (L := ref) (plt := reference_plot) (G := reference_grid) run_1d run_obs run_lines.
Proof.
  split; [reflexivity|]. split; [reflexivity|].
  by apply (execute_ignores_flag_and_posc (L := ref) (plt := reference_plot) (G := reference_grid) run_1d run_obs
              [Line 5002 2 9 0 1 1 true 1 4; Line 5007 7 3 0 1 1 false 6 9] run_lines).
Defined.

Lemma find_peaks_lengths_witness :
  _find_peaks (L := ref) arc_1d [] = Raise ValueError /\
  _find_peaks (L := ref) arc_1d
    [Some 1; Some 5; Some 1; Some 1; Some 5; Some 1; Some 1; Some 5; Some 1]
  = Ok ([0; 1; 2]%Z, [1; 4; 7]) /\
  length [1; 4; 7] = length [0; 1; 2]%Z.
Proof.
  split.
  - by apply (proj1 (find_peaks_lengths (L := ref) arc_1d [])).
  - split; [vm_compute; reflexivity|].
    apply (proj2 (find_peaks_lengths (L := ref) arc_1d
                    [Some 1; Some 5; Some 1; Some 1; Some 5; Some 1; Some 1; Some 5; Some 1])
             [0; 1; 2]%Z [1; 4; 7]).
    vm_compute; reflexivity.
Defined.
